(** * compose-diff: normalizer, structural differ, severity classifier, rules

    A shallow embedding of the Go packages [models], [parser] (normalizer
    and the short forms of ports, volumes and environments), [diff],
    [rules], of [applyRules] from [cmd], of the file names of [baseline]
    and of the selecting and grouping functions of [reporter], followed by
    the properties of the specification that are proved of it and by
    further properties of the code.

    Conventions of the embedding.
    - A Go [string] is a sequence of bytes: Rocq's [string].
    - A Go map is a [gmap]; a map used as a set ([map[string]bool] whose
      entries are all [true]) is a [gset].  A nil map and an empty map are
      not told apart (the code only reads and ranges over them).
    - A Go slice is a [list]; a nil slice and an empty slice are not told
      apart (the code only takes [len], ranges and indexes).
    - A pointer [*T] that is only compared with nil and dereferenced is an
      [option T].
    - Go's [int] is a [Z].  The counters of a summary count the elements of
      a slice held in memory, so they stay far below 2^63 and never wrap.
    - A value of type [interface{}] is a [Value]: the dynamic type together
      with the datum, [VNil] being the nil interface. *)

From Stdlib Require Import ZArith Lia Ascii.
From stdpp Require Import base option list sorting gmap strings fin_maps fin_sets.

Local Open Scope string_scope.
Local Open Scope list_scope.
Local Open Scope Z_scope.

(* ===================================================================== *)
(** * Go's standard library, as far as the code uses it *)
(* ===================================================================== *)

(** ** Package [strings] (byte-wise, as in Go) *)

Fixpoint strings_HasPrefix (s prefix : string) : bool :=
  match prefix, s with
  | EmptyString, _ => true
  | String p prefix', String c s' =>
      if Ascii.eqb c p then strings_HasPrefix s' prefix' else false
  | String _ _, EmptyString => false
  end.

Fixpoint strings_Contains (s substr : string) : bool :=
  if strings_HasPrefix s substr then true
  else match s with
       | EmptyString => false
       | String _ s' => strings_Contains s' substr
       end.

Fixpoint strings_HasSuffix (s suffix : string) : bool :=
  if String.eqb s suffix then true
  else match s with
       | EmptyString => false
       | String _ s' => strings_HasSuffix s' suffix
       end.

Definition strings_TrimPrefix (s prefix : string) : string :=
  if strings_HasPrefix s prefix
  then String.substring (String.length prefix)
         (String.length s - String.length prefix)%nat s
  else s.

Definition strings_TrimSuffix (s suffix : string) : string :=
  if strings_HasSuffix s suffix
  then String.substring 0 (String.length s - String.length suffix)%nat s
  else s.

(** [strings.Split(s, sep)] for a separator of one byte, the only use the
    code makes of it. *)
Fixpoint strings_Split (s : string) (sep : ascii) : list string :=
  match s with
  | EmptyString => [EmptyString]
  | String c s' =>
      if Ascii.eqb c sep then EmptyString :: strings_Split s' sep
      else match strings_Split s' sep with
           | [] => [String c EmptyString]
           | p :: ps => String c p :: ps
           end
  end.

(** [image[strings.LastIndex(image, sep)+1:]] for a one-byte separator:
    [None] when [LastIndex] is -1, else the bytes after the last [sep]. *)
Fixpoint after_LastIndex (s : string) (sep : ascii) : option string :=
  match s with
  | EmptyString => None
  | String c s' =>
      match after_LastIndex s' sep with
      | Some t => Some t
      | None => if Ascii.eqb c sep then Some s' else None
      end
  end.

(** [strings.ReplaceAll(s, old, new)] for a one-byte [old]. *)
Fixpoint strings_ReplaceAll (s : string) (old : ascii) (new : string) : string :=
  match s with
  | EmptyString => EmptyString
  | String c s' =>
      if Ascii.eqb c old then new +:+ strings_ReplaceAll s' old new
      else String c (strings_ReplaceAll s' old new)
  end.

(** [strings.Join(elems, sep)]. *)
Fixpoint strings_Join (elems : list string) (sep : string) : string :=
  match elems with
  | [] => ""
  | [e] => e
  | e :: elems' => e +:+ sep +:+ strings_Join elems' sep
  end.

(** ** Package [strconv] *)

Definition is_digit (c : ascii) : bool :=
  (48 <=? nat_of_ascii c)%nat && (nat_of_ascii c <=? 57)%nat.

Definition digit_value (c : ascii) : Z := Z.of_nat (nat_of_ascii c) - 48.

(** The number written by a run of decimal digits, most significant first;
    [None] when a byte is not a digit. *)
Fixpoint decimal_from (acc : Z) (s : string) : option Z :=
  match s with
  | EmptyString => Some acc
  | String c s' =>
      if is_digit c then decimal_from (10 * acc + digit_value c) s' else None
  end.

Definition maxInt : Z := 2 ^ 63 - 1.
Definition minInt : Z := - 2 ^ 63.

(** [strconv.Atoi] on a 64-bit platform: the value and whether [err] is nil.
    A syntax error gives 0; a number out of range gives the nearest bound of
    [int] together with a range error. *)
Definition strconv_Atoi (s : string) : Z * bool :=
  let '(neg, digits) :=
    match s with
    | String c d =>
        if Ascii.eqb c "-" then (true, d)
        else if Ascii.eqb c "+" then (false, d)
        else (false, s)
    | EmptyString => (false, s)
    end in
  match digits with
  | EmptyString => (0, false)
  | _ =>
      match decimal_from 0 digits with
      | None => (0, false)
      | Some n =>
          if neg then (if 2 ^ 63 <? n then (minInt, false) else (- n, true))
          else (if maxInt <? n then (maxInt, false) else (n, true))
      end
  end.

(** ** Package [sort]

    [sort.Strings] is modelled by the insertion sort that package [sort]
    runs on short slices: element [i] is moved left while it is less than
    its left neighbour.  The sorted prefix is kept reversed, so that the
    neighbour is at the head.  Strings that compare equal are the same
    string, so the result is the one sorted arrangement whatever the
    algorithm of the library. *)

Section insertion_sort.
Context {A : Type} (less : A → A → bool).

Fixpoint insert_left (x : A) (prefix_rev : list A) : list A :=
  match prefix_rev with
  | [] => [x]
  | y :: rest => if less x y then y :: insert_left x rest else x :: prefix_rev
  end.

Definition insertionSort (data : list A) : list A :=
  reverse (fold_left (λ prefix_rev x, insert_left x prefix_rev) data []).
End insertion_sort.

Definition sort_Strings : list string → list string := insertionSort String.ltb.

(** [sort.Slice] is known by its contract alone.  It rearranges the slice
    so that it is in order for [less], which has to be a strict weak
    ordering, and it is not guaranteed to be stable: the order in which it
    leaves elements that are tied under [less] is its own, and the
    algorithms that the library has used differ in it. *)
Class SliceSorter := {
  sort_Slice : ∀ {A : Type}, (A → A → bool) → list A → list A;
  sort_Slice_Permutation :
    ∀ {A : Type} (less : A → A → bool) (data : list A),
      sort_Slice less data ≡ₚ data;
  sort_Slice_Sorted :
    ∀ {A : Type} (less : A → A → bool) (data : list A),
      (∀ x y, less x y = true → less y x = false) →
      (∀ x y z, less y x = false → less z y = false → less z x = false) →
      Sorted (λ x y, less y x = false) (sort_Slice less data)
}.

(* ===================================================================== *)
(** * Package [models]: the intermediate representation *)
(* ===================================================================== *)

Record BuildIR := mkBuildIR {
  build_Context : string;
  build_Dockerfile : string;
  build_Args : gmap string string;
  build_Target : string
}.

Record PortIR := mkPortIR {
  HostIP : string;
  HostPort : string;
  ContainerPort : string;
  Protocol : string
}.

Record MountIR := mkMountIR {
  mount_Type : string;
  Source : string;
  Target : string;
  ReadOnly : bool
}.

Record HealthcheckIR := mkHealthcheckIR {
  Test : list string;
  Interval : string;
  Timeout : string;
  Retries : Z;
  StartPeriod : string;
  Disable : bool
}.

(** [Env] maps a name to [None] when the variable is declared without a
    value (a nil [*string]) and to [Some v] when it has one. *)
Record ServiceIR := mkServiceIR {
  Image : option string;
  Build : option BuildIR;
  Env : gmap string (option string);
  EnvFiles : list string;
  Ports : list PortIR;
  Volumes : list MountIR;
  Networks : list string;
  DependsOn : list string;
  Healthcheck : option HealthcheckIR;
  Command : list string;
  Entrypoint : list string;
  Profiles : list string;
  Restart : option string;
  Labels : gmap string string
}.

Record VolumeIR := mkVolumeIR {
  vol_Driver : string;
  vol_DriverOpts : gmap string string;
  vol_External : bool;
  vol_Name : string;
  vol_Labels : gmap string string
}.

Record NetworkIR := mkNetworkIR {
  net_Driver : string;
  net_DriverOpts : gmap string string;
  net_External : bool;
  net_Name : string;
  net_Labels : gmap string string
}.

Record ComposeIR := mkComposeIR {
  ir_Services : gmap string ServiceIR;
  ir_Volumes : gmap string VolumeIR;
  ir_Networks : gmap string NetworkIR
}.

Definition NewComposeIR : ComposeIR := mkComposeIR ∅ ∅ ∅.

#[global] Instance BuildIR_eq_dec : EqDecision BuildIR.
Proof. solve_decision. Defined.
#[global] Instance PortIR_eq_dec : EqDecision PortIR.
Proof. solve_decision. Defined.
#[global] Instance MountIR_eq_dec : EqDecision MountIR.
Proof. solve_decision. Defined.
#[global] Instance HealthcheckIR_eq_dec : EqDecision HealthcheckIR.
Proof. solve_decision. Defined.

(** The zero values that a Go map lookup yields on a missing key. *)
Definition zero_PortIR : PortIR := mkPortIR "" "" "" "".
Definition zero_MountIR : MountIR := mkMountIR "" "" "" false.
Definition zero_ServiceIR : ServiceIR :=
  mkServiceIR None None ∅ [] [] [] [] [] None [] [] [] None ∅.
Definition zero_VolumeIR : VolumeIR := mkVolumeIR "" ∅ false "" ∅.
Definition zero_NetworkIR : NetworkIR := mkNetworkIR "" ∅ false "" ∅.

#[global] Instance PortIR_inhabited : Inhabited PortIR := populate zero_PortIR.
#[global] Instance MountIR_inhabited : Inhabited MountIR := populate zero_MountIR.
#[global] Instance ServiceIR_inhabited : Inhabited ServiceIR :=
  populate zero_ServiceIR.
#[global] Instance VolumeIR_inhabited : Inhabited VolumeIR :=
  populate zero_VolumeIR.
#[global] Instance NetworkIR_inhabited : Inhabited NetworkIR :=
  populate zero_NetworkIR.

(** ** Changes and reports *)

Inductive ChangeKind := ChangeAdded | ChangeRemoved | ChangeModified.
Inductive Scope := ScopeService | ScopeVolume | ScopeNetwork.

#[global] Instance ChangeKind_eq_dec : EqDecision ChangeKind.
Proof. solve_decision. Defined.
#[global] Instance Scope_eq_dec : EqDecision Scope.
Proof. solve_decision. Defined.

(** [Severity] is a string type in Go, and a rule file can put any string
    in it, so it stays a string here. *)
Definition Severity := string.
Definition SeverityInfo : Severity := "info".
Definition SeverityWarning : Severity := "warning".
Definition SeverityBreaking : Severity := "breaking".

(** What the differ stores in the [interface{}] fields [Before] and [After].
    [VHealthcheck None] is a nil [*HealthcheckIR] boxed in an interface: it
    is not the nil interface [VNil]. *)
Inductive Value :=
| VNil
| VString (s : string)
| VStrings (l : list string)
| VService (s : ServiceIR)
| VVolume (v : VolumeIR)
| VNetwork (n : NetworkIR)
| VPort (p : PortIR)
| VMount (m : MountIR)
| VHealthcheck (h : option HealthcheckIR).

Record Change := mkChange {
  Kind : ChangeKind;
  scope : Scope;
  Name : string;
  Path : string;
  Before : Value;
  After : Value;
  severity : Severity
}.

Record DiffSummary := mkDiffSummary {
  ServicesAdded : Z;
  ServicesRemoved : Z;
  ServicesChanged : Z;
  VolumesAdded : Z;
  VolumesRemoved : Z;
  NetworksAdded : Z;
  NetworksRemoved : Z;
  TotalChanges : Z;
  BreakingCount : Z;
  WarningCount : Z;
  InfoCount : Z
}.

Record DiffReport := mkDiffReport {
  Summary : DiffSummary;
  Changes : list Change
}.

Definition zero_DiffSummary : DiffSummary :=
  mkDiffSummary 0 0 0 0 0 0 0 0 0 0 0.

Definition NewDiffReport : DiffReport := mkDiffReport zero_DiffSummary [].

(** Assignments to single fields of a summary. *)
Definition set_ServicesAdded (n : Z) (s : DiffSummary) : DiffSummary :=
  mkDiffSummary n (ServicesRemoved s) (ServicesChanged s) (VolumesAdded s)
    (VolumesRemoved s) (NetworksAdded s) (NetworksRemoved s) (TotalChanges s)
    (BreakingCount s) (WarningCount s) (InfoCount s).
Definition set_ServicesRemoved (n : Z) (s : DiffSummary) : DiffSummary :=
  mkDiffSummary (ServicesAdded s) n (ServicesChanged s) (VolumesAdded s)
    (VolumesRemoved s) (NetworksAdded s) (NetworksRemoved s) (TotalChanges s)
    (BreakingCount s) (WarningCount s) (InfoCount s).
Definition set_ServicesChanged (n : Z) (s : DiffSummary) : DiffSummary :=
  mkDiffSummary (ServicesAdded s) (ServicesRemoved s) n (VolumesAdded s)
    (VolumesRemoved s) (NetworksAdded s) (NetworksRemoved s) (TotalChanges s)
    (BreakingCount s) (WarningCount s) (InfoCount s).
Definition set_VolumesAdded (n : Z) (s : DiffSummary) : DiffSummary :=
  mkDiffSummary (ServicesAdded s) (ServicesRemoved s) (ServicesChanged s) n
    (VolumesRemoved s) (NetworksAdded s) (NetworksRemoved s) (TotalChanges s)
    (BreakingCount s) (WarningCount s) (InfoCount s).
Definition set_VolumesRemoved (n : Z) (s : DiffSummary) : DiffSummary :=
  mkDiffSummary (ServicesAdded s) (ServicesRemoved s) (ServicesChanged s)
    (VolumesAdded s) n (NetworksAdded s) (NetworksRemoved s) (TotalChanges s)
    (BreakingCount s) (WarningCount s) (InfoCount s).
Definition set_NetworksAdded (n : Z) (s : DiffSummary) : DiffSummary :=
  mkDiffSummary (ServicesAdded s) (ServicesRemoved s) (ServicesChanged s)
    (VolumesAdded s) (VolumesRemoved s) n (NetworksRemoved s) (TotalChanges s)
    (BreakingCount s) (WarningCount s) (InfoCount s).
Definition set_NetworksRemoved (n : Z) (s : DiffSummary) : DiffSummary :=
  mkDiffSummary (ServicesAdded s) (ServicesRemoved s) (ServicesChanged s)
    (VolumesAdded s) (VolumesRemoved s) (NetworksAdded s) n (TotalChanges s)
    (BreakingCount s) (WarningCount s) (InfoCount s).
Definition set_severity_counts (total b w i : Z) (s : DiffSummary)
  : DiffSummary :=
  mkDiffSummary (ServicesAdded s) (ServicesRemoved s) (ServicesChanged s)
    (VolumesAdded s) (VolumesRemoved s) (NetworksAdded s) (NetworksRemoved s)
    total b w i.

Definition set_Summary (f : DiffSummary → DiffSummary) (r : DiffReport)
  : DiffReport :=
  mkDiffReport (f (Summary r)) (Changes r).

(** [AddChange]: append the change, count it in the total and under its
    severity; a severity that is none of the three constants is counted
    under no severity. *)
Definition AddChange (r : DiffReport) (c : Change) : DiffReport :=
  let s := Summary r in
  let total := TotalChanges s + 1 in
  let s :=
    if String.eqb (severity c) SeverityBreaking then
      set_severity_counts total
        (BreakingCount s + 1) (WarningCount s) (InfoCount s) s
    else if String.eqb (severity c) SeverityWarning then
      set_severity_counts total
        (BreakingCount s) (WarningCount s + 1) (InfoCount s) s
    else if String.eqb (severity c) SeverityInfo then
      set_severity_counts total
        (BreakingCount s) (WarningCount s) (InfoCount s + 1) s
    else
      set_severity_counts total
        (BreakingCount s) (WarningCount s) (InfoCount s) s in
  mkDiffReport s (Changes r ++ [c]).

Definition SeverityLevel (s : Severity) : Z :=
  if String.eqb s SeverityBreaking then 3
  else if String.eqb s SeverityWarning then 2
  else if String.eqb s SeverityInfo then 1
  else 0.

Definition ParseSeverity (s : string) : Severity :=
  if String.eqb s "breaking" then SeverityBreaking
  else if String.eqb s "warning" then SeverityWarning
  else SeverityInfo.

#[global] Instance ServiceIR_eq_dec : EqDecision ServiceIR.
Proof. solve_decision. Defined.
#[global] Instance VolumeIR_eq_dec : EqDecision VolumeIR.
Proof. solve_decision. Defined.
#[global] Instance NetworkIR_eq_dec : EqDecision NetworkIR.
Proof. solve_decision. Defined.
#[global] Instance Value_eq_dec : EqDecision Value.
Proof. solve_decision. Defined.

(* ===================================================================== *)
(** * Package [diff]: the structural differ *)
(* ===================================================================== *)

(** ** Helper functions *)

(** The keys of a map, in the order the map happens to yield them. *)
Definition mapKeys {V : Type} (m : gmap string V) : list string :=
  (map_to_list m).*1.

Definition envKeys (m : gmap string (option string)) : list string :=
  sort_Strings (map_to_list m).*1.

Definition diffSets (old new : list string)
  : list string * list string * list string :=
  let oldSet : gset string := list_to_set old in
  let newSet : gset string := list_to_set new in
  let added := filter (λ s, s ∉ oldSet) (elements newSet) in
  let removed := filter (λ s, s ∉ newSet) (elements oldSet) in
  let common := filter (λ s, s ∈ newSet) (elements oldSet) in
  (sort_Strings added, sort_Strings removed, sort_Strings common).

Definition ptrEqual (a b : option string) : bool :=
  match a, b with
  | None, None => true
  | None, _ | _, None => false
  | Some x, Some y => String.eqb x y
  end.

Definition ptrValue (p : option string) : Value :=
  match p with
  | None => VNil
  | Some s => VString s
  end.

Fixpoint sliceEqual (a b : list string) : bool :=
  match a, b with
  | [], [] => true
  | x :: a', y :: b' => if String.eqb x y then sliceEqual a' b' else false
  | _, _ => false
  end.

(** [reflect.DeepEqual] on two non-nil pointers compares the structs they
    point to, field by field.  (It also tells a nil [Test] from an empty
    one, which lists do not.) *)
Definition healthcheckEqual (a b : option HealthcheckIR) : bool :=
  match a, b with
  | None, None => true
  | None, _ | _, None => false
  | Some x, Some y => bool_decide (x = y)
  end.

(** The arguments are interfaces; only the nil interface equals nil. *)
Definition changeKindForPtrs (old new : Value) : ChangeKind :=
  match old with
  | VNil => ChangeAdded
  | _ => match new with
         | VNil => ChangeRemoved
         | _ => ChangeModified
         end
  end.

Definition port_key (p : PortIR) : string :=
  HostPort p +:+ ":" +:+ ContainerPort p +:+ "/" +:+ Protocol p.

Definition portMap (ports : list PortIR) : gmap string PortIR :=
  fold_left (λ m p, <[port_key p := p]> m) ports ∅.

Definition mountMap (mounts : list MountIR) : gmap string MountIR :=
  fold_left (λ m mount, <[Target mount := mount]> m) mounts ∅.

(** ** Severity of an image change (severity.go) *)

Definition extractTag (image : string) : string :=
  if strings_Contains image "@" then ""
  else
    let parts := strings_Split image ":" in
    if (length parts <? 2)%nat then "latest"
    else match after_LastIndex image ":" with
         | None => "latest"
         | Some tag => if strings_Contains tag "/" then "latest" else tag
         end.

(** The first submatch of the regular expression [^(\d+)]: the longest
    run of ASCII digits at the start. *)
Fixpoint leading_digits (s : string) : string :=
  match s with
  | EmptyString => EmptyString
  | String c s' => if is_digit c then String c (leading_digits s') else EmptyString
  end.

Definition extractMajorVersion (tag : string) : string :=
  if String.eqb tag "" || String.eqb tag "latest" then ""
  else
    let tag := strings_TrimPrefix tag "v" in
    (* [FindStringSubmatch] finds nothing exactly when the run is empty *)
    leading_digits tag.

Definition imageSeverity (old new : option string) : Severity :=
  match old, new with
  | Some o, Some n =>
      let oldTag := extractTag o in
      let newTag := extractTag n in
      if String.eqb oldTag newTag then SeverityInfo
      else
        let oldMajor := extractMajorVersion oldTag in
        let newMajor := extractMajorVersion newTag in
        if negb (String.eqb oldMajor "") && negb (String.eqb newMajor "")
           && negb (String.eqb oldMajor newMajor)
        then SeverityWarning
        else SeverityInfo
  | _, _ => SeverityInfo
  end.

Definition IsBreakingChange (c : Change) : bool :=
  if bool_decide (Kind c = ChangeRemoved)
     && (strings_Contains (Path c) ".environment."
         || strings_Contains (Path c) ".ports."
         || strings_Contains (Path c) ".volumes."
         || strings_Contains (Path c) ".depends_on."
         || strings_Contains (Path c) ".healthcheck"
         || bool_decide (scope c = ScopeService)
         || bool_decide (scope c = ScopeVolume))
  then true
  else if strings_HasSuffix (Path c) ".image"
          && bool_decide (Kind c = ChangeModified)
  then match Before c, After c with
       | VString before, VString after =>
           let oldMajor := extractMajorVersion (extractTag before) in
           let newMajor := extractMajorVersion (extractTag after) in
           if negb (String.eqb oldMajor "") && negb (String.eqb newMajor "")
           then
             let oldNum := fst (strconv_Atoi oldMajor) in
             let newNum := fst (strconv_Atoi newMajor) in
             newNum <? oldNum
           else false
       | _, _ => false
       end
  else false.

(** ** Field-level comparison of one service *)

Definition compareEnv (svcName basePath : string)
    (old new : gmap string (option string)) : list Change :=
  let oldKeys := envKeys old in
  let newKeys := envKeys new in
  let '(added, removed, common) := diffSets oldKeys newKeys in
  let changes : list Change := [] in
  let changes :=
    fold_left (λ changes key, changes ++ [
      mkChange ChangeAdded ScopeService svcName
        (basePath +:+ ".environment." +:+ key)
        VNil (ptrValue (new !!! key)) SeverityInfo]) added changes in
  let changes :=
    fold_left (λ changes key, changes ++ [
      mkChange ChangeRemoved ScopeService svcName
        (basePath +:+ ".environment." +:+ key)
        (ptrValue (old !!! key)) VNil SeverityBreaking]) removed changes in
  fold_left (λ changes key,
    let oldVal := ptrValue (old !!! key) in
    let newVal := ptrValue (new !!! key) in
    if bool_decide (oldVal ≠ newVal) then
      changes ++ [
        mkChange ChangeModified ScopeService svcName
          (basePath +:+ ".environment." +:+ key)
          oldVal newVal SeverityWarning]
    else changes) common changes.

Definition comparePorts (svcName basePath : string)
    (old new : list PortIR) : list Change :=
  let oldMap := portMap old in
  let newMap := portMap new in
  let oldKeys := mapKeys oldMap in
  let newKeys := mapKeys newMap in
  let '(added, removed, common) := diffSets oldKeys newKeys in
  let changes : list Change := [] in
  let changes :=
    fold_left (λ changes key, changes ++ [
      mkChange ChangeAdded ScopeService svcName
        (basePath +:+ ".ports." +:+ key)
        VNil (VPort (newMap !!! key)) SeverityInfo]) added changes in
  let changes :=
    fold_left (λ changes key, changes ++ [
      mkChange ChangeRemoved ScopeService svcName
        (basePath +:+ ".ports." +:+ key)
        (VPort (oldMap !!! key)) VNil SeverityBreaking]) removed changes in
  fold_left (λ changes key,
    let oldPort : PortIR := oldMap !!! key in
    let newPort : PortIR := newMap !!! key in
    if bool_decide (oldPort ≠ newPort) then
      changes ++ [
        mkChange ChangeModified ScopeService svcName
          (basePath +:+ ".ports." +:+ key)
          (VPort oldPort) (VPort newPort) SeverityWarning]
    else changes) common changes.

Definition compareServiceVolumes (svcName basePath : string)
    (old new : list MountIR) : list Change :=
  let oldMap := mountMap old in
  let newMap := mountMap new in
  let oldKeys := mapKeys oldMap in
  let newKeys := mapKeys newMap in
  let '(added, removed, common) := diffSets oldKeys newKeys in
  let changes : list Change := [] in
  let changes :=
    fold_left (λ changes key, changes ++ [
      mkChange ChangeAdded ScopeService svcName
        (basePath +:+ ".volumes." +:+ key)
        VNil (VMount (newMap !!! key)) SeverityInfo]) added changes in
  let changes :=
    fold_left (λ changes key, changes ++ [
      mkChange ChangeRemoved ScopeService svcName
        (basePath +:+ ".volumes." +:+ key)
        (VMount (oldMap !!! key)) VNil SeverityBreaking]) removed changes in
  fold_left (λ changes key,
    let oldMount : MountIR := oldMap !!! key in
    let newMount : MountIR := newMap !!! key in
    if bool_decide (oldMount ≠ newMount) then
      changes ++ [
        mkChange ChangeModified ScopeService svcName
          (basePath +:+ ".volumes." +:+ key)
          (VMount oldMount) (VMount newMount) SeverityWarning]
    else changes) common changes.

Definition compareStringSlice (svcName path : string)
    (old new : list string) (sev : Severity) : list Change :=
  let '(added, removed, _) := diffSets old new in
  let changes : list Change := [] in
  let changes :=
    fold_left (λ changes item, changes ++ [
      mkChange ChangeAdded ScopeService svcName
        (path +:+ "." +:+ item)
        VNil (VString item) SeverityInfo]) added changes in
  fold_left (λ changes item, changes ++ [
    mkChange ChangeRemoved ScopeService svcName
      (path +:+ "." +:+ item)
      (VString item) VNil sev]) removed changes.

Definition compareService (name : string) (old new : ServiceIR)
  : list Change :=
  let changes : list Change := [] in
  let basePath := "services." +:+ name in
  (* Image *)
  let changes :=
    if negb (ptrEqual (Image old) (Image new)) then
      changes ++ [
        mkChange ChangeModified ScopeService name (basePath +:+ ".image")
          (ptrValue (Image old)) (ptrValue (Image new))
          (imageSeverity (Image old) (Image new))]
    else changes in
  (* Environment variables *)
  let changes := changes ++ compareEnv name basePath (Env old) (Env new) in
  (* Ports *)
  let changes :=
    changes ++ comparePorts name basePath (Ports old) (Ports new) in
  (* Volumes *)
  let changes :=
    changes ++ compareServiceVolumes name basePath (Volumes old) (Volumes new) in
  (* Networks *)
  let changes :=
    changes ++ compareStringSlice name (basePath +:+ ".networks")
                 (Networks old) (Networks new) SeverityInfo in
  (* DependsOn *)
  let changes :=
    changes ++ compareStringSlice name (basePath +:+ ".depends_on")
                 (DependsOn old) (DependsOn new) SeverityWarning in
  (* Healthcheck *)
  let changes :=
    if negb (healthcheckEqual (Healthcheck old) (Healthcheck new)) then
      let sev :=
        match Healthcheck old, Healthcheck new with
        | Some _, None => SeverityBreaking
        | _, _ => SeverityInfo
        end in
      changes ++ [
        mkChange
          (changeKindForPtrs (VHealthcheck (Healthcheck old))
                             (VHealthcheck (Healthcheck new)))
          ScopeService name (basePath +:+ ".healthcheck")
          (VHealthcheck (Healthcheck old)) (VHealthcheck (Healthcheck new))
          sev]
    else changes in
  (* Command *)
  let changes :=
    if negb (sliceEqual (Command old) (Command new)) then
      changes ++ [
        mkChange ChangeModified ScopeService name (basePath +:+ ".command")
          (VStrings (Command old)) (VStrings (Command new)) SeverityInfo]
    else changes in
  (* Entrypoint *)
  let changes :=
    if negb (sliceEqual (Entrypoint old) (Entrypoint new)) then
      changes ++ [
        mkChange ChangeModified ScopeService name (basePath +:+ ".entrypoint")
          (VStrings (Entrypoint old)) (VStrings (Entrypoint new))
          SeverityWarning]
    else changes in
  (* Restart *)
  if negb (ptrEqual (Restart old) (Restart new)) then
    changes ++ [
      mkChange ChangeModified ScopeService name (basePath +:+ ".restart")
        (ptrValue (Restart old)) (ptrValue (Restart new)) SeverityInfo]
  else changes.

(** ** Entity-level comparison *)

Definition compareServices (old new : gmap string ServiceIR)
    (report : DiffReport) : DiffReport :=
  let oldNames := mapKeys old in
  let newNames := mapKeys new in
  let '(added, removed, common) := diffSets oldNames newNames in
  let report :=
    set_Summary (set_ServicesAdded (Z.of_nat (length added))) report in
  let report :=
    set_Summary (set_ServicesRemoved (Z.of_nat (length removed))) report in
  let report :=
    fold_left (λ report name,
      AddChange report
        (mkChange ChangeAdded ScopeService name ("services." +:+ name)
           VNil (VService (new !!! name)) SeverityInfo)) added report in
  let report :=
    fold_left (λ report name,
      AddChange report
        (mkChange ChangeRemoved ScopeService name ("services." +:+ name)
           (VService (old !!! name)) VNil SeverityBreaking)) removed report in
  let '(report, changedServices) :=
    fold_left (λ '(report, changedServices) name,
      let oldSvc : ServiceIR := old !!! name in
      let newSvc : ServiceIR := new !!! name in
      let changes := compareService name oldSvc newSvc in
      if (0 <? length changes)%nat
      then (fold_left AddChange changes report, changedServices + 1)
      else (report, changedServices)) common (report, 0) in
  set_Summary (set_ServicesChanged changedServices) report.

Definition compareVolumes (old new : gmap string VolumeIR)
    (report : DiffReport) : DiffReport :=
  let oldNames := mapKeys old in
  let newNames := mapKeys new in
  let '(added, removed, _) := diffSets oldNames newNames in
  let report :=
    set_Summary (set_VolumesAdded (Z.of_nat (length added))) report in
  let report :=
    set_Summary (set_VolumesRemoved (Z.of_nat (length removed))) report in
  let report :=
    fold_left (λ report name,
      AddChange report
        (mkChange ChangeAdded ScopeVolume name ("volumes." +:+ name)
           VNil (VVolume (new !!! name)) SeverityInfo)) added report in
  fold_left (λ report name,
    AddChange report
      (mkChange ChangeRemoved ScopeVolume name ("volumes." +:+ name)
         (VVolume (old !!! name)) VNil SeverityBreaking)) removed report.

Definition compareNetworks (old new : gmap string NetworkIR)
    (report : DiffReport) : DiffReport :=
  let oldNames := mapKeys old in
  let newNames := mapKeys new in
  let '(added, removed, _) := diffSets oldNames newNames in
  let report :=
    set_Summary (set_NetworksAdded (Z.of_nat (length added))) report in
  let report :=
    set_Summary (set_NetworksRemoved (Z.of_nat (length removed))) report in
  let report :=
    fold_left (λ report name,
      AddChange report
        (mkChange ChangeAdded ScopeNetwork name ("networks." +:+ name)
           VNil (VNetwork (new !!! name)) SeverityInfo)) added report in
  fold_left (λ report name,
    AddChange report
      (mkChange ChangeRemoved ScopeNetwork name ("networks." +:+ name)
         (VNetwork (old !!! name)) VNil SeverityWarning)) removed report.

Definition Compare (old new : ComposeIR) : DiffReport :=
  let report := NewDiffReport in
  let report := compareServices (ir_Services old) (ir_Services new) report in
  let report := compareVolumes (ir_Volumes old) (ir_Volumes new) report in
  compareNetworks (ir_Networks old) (ir_Networks new) report.

(** ** Report filters *)

Definition FilterByService (report : DiffReport) (service : string)
  : DiffReport :=
  let filtered := NewDiffReport in
  let filtered := mkDiffReport (Summary report) (Changes filtered) in
  fold_left (λ filtered c,
    if bool_decide (scope c = ScopeService) && String.eqb (Name c) service
    then mkDiffReport (Summary filtered) (Changes filtered ++ [c])
    else filtered) (Changes report) filtered.

Definition FilterBySeverity (report : DiffReport) (minSeverity : string)
  : DiffReport :=
  let minLevel := SeverityLevel (ParseSeverity minSeverity) in
  let filtered := NewDiffReport in
  let filtered := mkDiffReport (Summary report) (Changes filtered) in
  fold_left (λ filtered c,
    if minLevel <=? SeverityLevel (severity c)
    then mkDiffReport (Summary filtered) (Changes filtered ++ [c])
    else filtered) (Changes report) filtered.

(* ===================================================================== *)
(** * Package [parser]: port strings and the normalizer *)
(* ===================================================================== *)

(** [parsePortString]: the error it returns is always nil. *)
Definition parsePortString (s : string) : PortIR :=
  let '(proto, s) :=
    if strings_HasSuffix s "/udp" then ("udp", strings_TrimSuffix s "/udp")
    else if strings_HasSuffix s "/tcp" then ("tcp", strings_TrimSuffix s "/tcp")
    else ("tcp", s) in
  match strings_Split s ":" with
  | [c] => mkPortIR "" "" c proto
  | [h; c] => mkPortIR "" h c proto
  | [ip; h; c] => mkPortIR ip h c proto
  | _ => mkPortIR "" "" "" proto
  end.

Definition sortedStrings (s : list string) : list string :=
  if (length s =? 0)%nat then s else sort_Strings s.

Definition port_less (a b : PortIR) : bool :=
  if negb (String.eqb (ContainerPort a) (ContainerPort b))
  then String.ltb (ContainerPort a) (ContainerPort b)
  else String.ltb (HostPort a) (HostPort b).

Definition mount_less (a b : MountIR) : bool :=
  String.ltb (Target a) (Target b).

Section normalizer.
Context `{SliceSorter}.

Definition normalizePorts (ports : list PortIR) : list PortIR :=
  if (length ports =? 0)%nat then ports else sort_Slice port_less ports.

Definition normalizeVolumes (volumes : list MountIR) : list MountIR :=
  if (length volumes =? 0)%nat then volumes
  else sort_Slice mount_less volumes.

Definition normalizeService (svc : ServiceIR) : ServiceIR :=
  {| Image := Image svc;
     Build := Build svc;
     Env := Env svc;
     EnvFiles := sortedStrings (EnvFiles svc);
     Ports := normalizePorts (Ports svc);
     Volumes := normalizeVolumes (Volumes svc);
     Networks := sortedStrings (Networks svc);
     DependsOn := sortedStrings (DependsOn svc);
     Healthcheck := Healthcheck svc;
     Command := Command svc;
     Entrypoint := Entrypoint svc;
     Profiles := sortedStrings (Profiles svc);
     Restart := Restart svc;
     Labels := Labels svc |}.

(** Every service is rebuilt by [normalizeService]; volumes and networks
    are copied entry by entry into fresh maps. *)
Definition Normalize (ir : ComposeIR) : ComposeIR :=
  {| ir_Services := normalizeService <$> ir_Services ir;
     ir_Volumes := ir_Volumes ir;
     ir_Networks := ir_Networks ir |}.

End normalizer.

(** ** Volume strings *)

Definition inferMountType (source : string) : string :=
  if strings_HasPrefix source "./" || strings_HasPrefix source "/"
     || strings_HasPrefix source "~"
  then "bind"
  else "volume".

(** [parseVolumeString]: the error it returns is always nil. *)
Definition parseVolumeString (s : string) : MountIR :=
  match strings_Split s ":" with
  | [target] => mkMountIR "volume" "" target false
  | [source; target] => mkMountIR (inferMountType source) source target false
  | [source; target; mode] =>
      mkMountIR (inferMountType source) source target (String.eqb mode "ro")
  | _ => mkMountIR "bind" "" "" false
  end.

(** ** Environment entries

    [parseEnvironment] looks at one level of the YAML node it is given:
    the kind of the node, and the kind and the value of each child.  The
    value of an alias node is the name of its anchor; sequences, mappings
    and documents have the empty value. *)

#[warnings="-register-all"]
Inductive Node :=
  | ScalarNode (value : string)
  | SequenceNode (content : list Node)
  | MappingNode (content : list Node)
  | DocumentNode (content : list Node)
  | AliasNode (value : string).

Definition node_Value (n : Node) : string :=
  match n with
  | ScalarNode value | AliasNode value => value
  | _ => ""
  end.

(** [strings.SplitN(s, sep, 2)] for a separator of one byte: the bytes
    before and after the first [sep], or [s] alone when it has none. *)
Fixpoint strings_SplitN_2 (s : string) (sep : ascii) : list string :=
  match s with
  | EmptyString => [EmptyString]
  | String c s' =>
      if Ascii.eqb c sep then [EmptyString; s']
      else match strings_SplitN_2 s' sep with
           | [] => [String c EmptyString]
           | p :: ps => String c p :: ps
           end
  end.

(** [SplitN] returns at least one part, so [parts[0]] is always there. *)
Definition parseEnvVar (s : string) : string * string :=
  match strings_SplitN_2 s "=" with
  | [key; value] => (key, value)
  | parts => (default "" (head parts), "")
  end.

Definition set_env (key value : string) (env : gmap string (option string))
  : gmap string (option string) :=
  if negb (String.eqb value "") then <[key := Some value]> env
  else <[key := None]> env.

(** The loop of the mapping form steps through [Content] two nodes at a
    time, a key and its value; a YAML mapping always has an even number of
    them. *)
Fixpoint parseEnvironment_mapping (content : list Node)
    (env : gmap string (option string)) : gmap string (option string) :=
  match content with
  | keyNode :: valueNode :: content' =>
      parseEnvironment_mapping content'
        match valueNode with
        | ScalarNode value => set_env (node_Value keyNode) value env
        | _ => env
        end
  | _ => env
  end.

(** [parseEnvironment]: the error it returns is always nil. *)
Definition parseEnvironment (node : Node) : gmap string (option string) :=
  match node with
  | SequenceNode content =>
      fold_left
        (λ env item,
           match item with
           | ScalarNode value =>
               let '(key, value) := parseEnvVar value in
               set_env key value env
           | _ => env
           end)
        content ∅
  | MappingNode content => parseEnvironment_mapping content ∅
  | _ => ∅
  end.

(* ===================================================================== *)
(** * Package [rules] and [applyRules] *)
(* ===================================================================== *)

(** Go's package [regexp] is outside the repository.  The rule engine is
    embedded over any implementation of the three operations it uses, so
    that what is proved of it holds for Go's own. *)
Class RegexpEngine := {
  Regexp : Type;
  (** [regexp.Compile]: [None] when it returns an error *)
  regexp_Compile : string → option Regexp;
  MatchString : Regexp → string → bool
}.

Record SeverityRule := mkSeverityRule {
  sr_Pattern : string;
  sr_Severity : string;
  sr_IsRegex : bool
}.

Record IgnoreRule := mkIgnoreRule {
  ir_Pattern : string;
  ir_IsRegex : bool;
  ir_Reason : string
}.

Record ServiceIgnoreRules := mkServiceIgnoreRules {
  Paths : list string;
  Fields : list string
}.

Record RulesConfig := mkRulesConfig {
  Version : string;
  SeverityOverrides : list SeverityRule;
  IgnorePatterns : list IgnoreRule;
  ServiceIgnores : gmap string ServiceIgnoreRules;
  Categories : gmap string (list string)
}.

Section rules.
Context `{RegexpEngine} `{SliceSorter}.

(** [cs_pattern] is the [*regexp.Regexp] field: nil unless the rule is a
    regular expression. *)
Record compiledSeverity := mkCompiledSeverity {
  cs_pattern : option Regexp;
  cs_literal : string;
  cs_severity : string;
  cs_isRegex : bool
}.

Record compiledIgnore := mkCompiledIgnore {
  ci_pattern : option Regexp;
  ci_literal : string;
  ci_isRegex : bool;
  ci_reason : string
}.

Record Rules := mkRules {
  config : RulesConfig;
  severityPatterns : list compiledSeverity;
  ignorePatterns : list compiledIgnore
}.

(** The two loops of [compileRules]; [None] is the early
    [return nil, err]. *)
Fixpoint compileSeverityRules (srs : list SeverityRule)
    (acc : list compiledSeverity) : option (list compiledSeverity) :=
  match srs with
  | [] => Some acc
  | sr :: rest =>
      if sr_IsRegex sr then
        match regexp_Compile (sr_Pattern sr) with
        | None => None
        | Some re =>
            compileSeverityRules rest
              (acc ++ [mkCompiledSeverity (Some re) "" (sr_Severity sr) true])
        end
      else
        compileSeverityRules rest
          (acc ++ [mkCompiledSeverity None (sr_Pattern sr)
                     (sr_Severity sr) false])
  end.

Fixpoint compileIgnoreRules (irs : list IgnoreRule)
    (acc : list compiledIgnore) : option (list compiledIgnore) :=
  match irs with
  | [] => Some acc
  | ir :: rest =>
      if ir_IsRegex ir then
        match regexp_Compile (ir_Pattern ir) with
        | None => None
        | Some re =>
            compileIgnoreRules rest
              (acc ++ [mkCompiledIgnore (Some re) "" true (ir_Reason ir)])
        end
      else
        compileIgnoreRules rest
          (acc ++ [mkCompiledIgnore None (ir_Pattern ir) false
                     (ir_Reason ir)])
  end.

(** [compileRules]: [Some rules] for [(rules, nil)], [None] for
    [(nil, err)]. *)
Definition compileRules (cfg : RulesConfig) : option Rules :=
  match compileSeverityRules (SeverityOverrides cfg) [] with
  | None => None
  | Some sps =>
      match compileIgnoreRules (IgnorePatterns cfg) [] with
      | None => None
      | Some ips => Some (mkRules cfg sps ips)
      end
  end.

Definition matchGlob (pattern str : string) : bool :=
  let pattern := strings_ReplaceAll pattern "." "\." in
  let pattern := strings_ReplaceAll pattern "*" ".*" in
  let pattern := "^" +:+ pattern +:+ "$" in
  match regexp_Compile pattern with
  | None => String.eqb pattern str
  | Some re => MatchString re str
  end.

(** A compiled regular-expression rule always carries its pattern
    ([compileRules] sets it), so the nil case below is never reached. *)
Definition pattern_matches (pattern : option Regexp) (path : string)
  : bool :=
  match pattern with
  | Some re => MatchString re path
  | None => false
  end.

Fixpoint severityOverride (sps : list compiledSeverity) (path : string)
  : Severity * bool :=
  match sps with
  | [] => ("", false)
  | sp :: rest =>
      if cs_isRegex sp then
        if pattern_matches (cs_pattern sp) path then (cs_severity sp, true)
        else severityOverride rest path
      else
        if matchGlob (cs_literal sp) path then (cs_severity sp, true)
        else severityOverride rest path
  end.

Definition GetSeverityOverride (r : Rules) (path : string)
  : Severity * bool :=
  severityOverride (severityPatterns r) path.

Fixpoint shouldIgnore (ips : list compiledIgnore) (path : string)
  : bool * string :=
  match ips with
  | [] => (false, "")
  | ip :: rest =>
      if ci_isRegex ip then
        if pattern_matches (ci_pattern ip) path then (true, ci_reason ip)
        else shouldIgnore rest path
      else
        if matchGlob (ci_literal ip) path then (true, ci_reason ip)
        else shouldIgnore rest path
  end.

Definition ShouldIgnore (r : Rules) (path : string) : bool * string :=
  shouldIgnore (ignorePatterns r) path.

Definition ShouldIgnoreServiceField (r : Rules) (service field : string)
  : bool :=
  match ServiceIgnores (config r) !! service with
  | None => false
  | Some si =>
      if existsb (λ f, String.eqb f field) (Fields si) then true
      else existsb (λ p, matchGlob p field) (Paths si)
  end.

(** [splitPath] ranges over the runes of the path and appends each to
    the current part; on the valid UTF-8 that paths are, this is the same
    as going byte by byte. *)
Fixpoint splitPath_from (path current : string) (parts : list string)
  : list string :=
  match path with
  | EmptyString =>
      if negb (String.eqb current "") then parts ++ [current] else parts
  | String r path' =>
      if Ascii.eqb r "." then
        if negb (String.eqb current "")
        then splitPath_from path' "" (parts ++ [current])
        else splitPath_from path' current parts
      else splitPath_from path' (current +:+ String r "") parts
  end.

Definition splitPath (path : string) : list string :=
  splitPath_from path "" [].

Definition extractFieldFromPath (path : string) : string :=
  let parts := splitPath path in
  if (3 <=? length parts)%nat then default "" (parts !! 2%nat) else "".

Definition with_severity (c : Change) (sev : Severity) : Change :=
  mkChange (Kind c) (scope c) (Name c) (Path c) (Before c) (After c) sev.

(** [applyRules] (package [cmd]).  The loop state is the retained list
    and the three counters. *)
Definition applyRules_step (r : Rules)
    (st : list Change * Z * Z * Z) (c : Change)
  : list Change * Z * Z * Z :=
  let '(filtered, breakingCount, warningCount, infoCount) := st in
  if fst (ShouldIgnore r (Path c)) then st
  else if ShouldIgnoreServiceField r (Name c) (extractFieldFromPath (Path c))
  then st
  else
    let c :=
      match GetSeverityOverride r (Path c) with
      | (sev, true) => with_severity c sev
      | (_, false) => c
      end in
    let filtered := filtered ++ [c] in
    if String.eqb (severity c) SeverityBreaking
    then (filtered, breakingCount + 1, warningCount, infoCount)
    else if String.eqb (severity c) SeverityWarning
    then (filtered, breakingCount, warningCount + 1, infoCount)
    else (filtered, breakingCount, warningCount, infoCount + 1).

Definition applyRules (report : DiffReport) (r : Rules) : DiffReport :=
  let '(filtered, breakingCount, warningCount, infoCount) :=
    fold_left (applyRules_step r) (Changes report) ([], 0, 0, 0) in
  mkDiffReport
    (set_severity_counts (Z.of_nat (length filtered))
       breakingCount warningCount infoCount (Summary report))
    filtered.

(** The part of [runDiff] between parsing and printing: the report that
    is handed to the reporters. *)
Definition runDiff_report (normalizeOn : bool) (r : option Rules)
    (serviceFilter severityMin : string) (oldIR newIR : ComposeIR)
  : DiffReport :=
  let oldIR := if normalizeOn then Normalize oldIR else oldIR in
  let newIR := if normalizeOn then Normalize newIR else newIR in
  let report := Compare oldIR newIR in
  let report :=
    match r with
    | Some r => applyRules report r
    | None => report
    end in
  let report :=
    if negb (String.eqb serviceFilter "")
    then FilterByService report serviceFilter
    else report in
  FilterBySeverity report severityMin.
End rules.

(** ** A regular-expression engine to run the rule engine on

    A model of Go's [regexp] (RE2 syntax) on the fragment that [matchGlob]
    produces from patterns made of ordinary bytes, [.], [*], [+] and [?]:
    an optional [^], then atoms, each followed by at most one repetition
    operator, then an optional [$].  An atom is a byte that is not an
    operator of the syntax, a backslash followed by a punctuation byte
    (that byte, literally), or [.] (any byte but a newline: Go compiles
    without the [s] flag).  Subjects are ASCII, so that a rune is a byte.
    [Compile] answers [None] outside the fragment too, and nothing below
    is evaluated there. *)
Module re2.

Inductive atom := Lit (c : ascii) | AnyNotNL.
Inductive rep := One | Star | Plus | Quest.

Record regexp := mkRegexp {
  begin_text : bool;
  items : list (atom * rep);
  end_text : bool
}.

Definition is_operator (c : ascii) : bool :=
  existsb (Ascii.eqb c)
    ["\"; "."; "+"; "*"; "?"; "("; ")"; "|"; "["; "]"; "{"; "}"; "^"; "$"]%char.

Definition is_punct (c : ascii) : bool :=
  let n := nat_of_ascii c in
  ((33 <=? n) && (n <=? 47) || (58 <=? n) && (n <=? 64)
   || (91 <=? n) && (n <=? 96) || (123 <=? n) && (n <=? 126))%nat.

Definition rep_of (c : ascii) : option rep :=
  if Ascii.eqb c "*" then Some Star
  else if Ascii.eqb c "+" then Some Plus
  else if Ascii.eqb c "?" then Some Quest
  else None.

(** After an atom: an optional repetition operator, then the rest. *)
Definition with_rep (parse : string → option (list (atom * rep) * bool))
    (a : atom) (s : string) : option (list (atom * rep) * bool) :=
  match s with
  | String c s' =>
      match rep_of c with
      | Some r =>
          match s' with
          | String c' _ =>
              match rep_of c' with
              | Some _ => None
              | None => '(its, e) ← parse s'; Some ((a, r) :: its, e)
              end
          | EmptyString => Some ([(a, r)], false)
          end
      | None => '(its, e) ← parse s; Some ((a, One) :: its, e)
      end
  | EmptyString => Some ([(a, One)], false)
  end.

(** The atoms up to the end, and whether the pattern ends in [$].
    [fuel] bounds the number of bytes read. *)
Fixpoint parse_items (fuel : nat) (s : string)
  : option (list (atom * rep) * bool) :=
  match fuel with
  | O => None
  | S fuel =>
      match s with
      | EmptyString => Some ([], false)
      | String c s' =>
          if Ascii.eqb c "$" && String.eqb s' "" then Some ([], true)
          else if Ascii.eqb c "." then with_rep (parse_items fuel) AnyNotNL s'
          else if Ascii.eqb c "\" then
            match s' with
            | String e s'' =>
                if is_punct e then with_rep (parse_items fuel) (Lit e) s''
                else None
            | EmptyString => None
            end
          else if is_operator c then None
          else with_rep (parse_items fuel) (Lit c) s'
      end
  end.

Definition Compile (pattern : string) : option regexp :=
  let '(b, body) :=
    match pattern with
    | String "^" body => (true, body)
    | _ => (false, pattern)
    end in
  '(its, e) ← parse_items (S (String.length body)) body;
  Some (mkRegexp b its e).

Definition atom_matches (a : atom) (c : ascii) : bool :=
  match a with
  | Lit l => Ascii.eqb c l
  | AnyNotNL => negb (Ascii.eqb c "010")
  end.

(** Do the items match a prefix of [s] (all of [s] when [to_end])? *)
Fixpoint match_items (to_end : bool) (its : list (atom * rep))
  : string → bool :=
  match its with
  | [] => λ s, if to_end then String.eqb s "" else true
  | (a, r) :: rest =>
      let next := match_items to_end rest in
      let star :=
        fix star (s : string) : bool :=
          next s
          || match s with
             | String c s' => atom_matches a c && star s'
             | EmptyString => false
             end in
      λ s,
        match r with
        | One =>
            match s with
            | String c s' => atom_matches a c && next s'
            | EmptyString => false
            end
        | Quest =>
            next s
            || match s with
               | String c s' => atom_matches a c && next s'
               | EmptyString => false
               end
        | Star => star s
        | Plus =>
            match s with
            | String c s' => atom_matches a c && star s'
            | EmptyString => false
            end
        end
  end.

(** Some suffix of [s] starts with a match. *)
Fixpoint search (to_end : bool) (its : list (atom * rep)) (s : string)
  : bool :=
  match_items to_end its s
  || match s with
     | String _ s' => search to_end its s'
     | EmptyString => false
     end.

(** [MatchString]: does the subject contain a match? *)
Definition MatchString (re : regexp) (s : string) : bool :=
  if begin_text re then match_items (end_text re) (items re) s
  else search (end_text re) (items re) s.

End re2.

#[global] Instance re2_engine : RegexpEngine :=
  {| Regexp := re2.regexp;
     regexp_Compile := re2.Compile;
     MatchString := re2.MatchString |}.

(* ===================================================================== *)
(** * Package [baseline]: file names *)
(* ===================================================================== *)

Definition in_range (lo hi r : ascii) : bool :=
  (nat_of_ascii lo <=? nat_of_ascii r)%nat
  && (nat_of_ascii r <=? nat_of_ascii hi)%nat.

(** What one rune of the name adds to the result.  The loop ranges over
    runes; a rune outside ASCII, and the replacement rune that a byte of
    an invalid encoding is read as, adds nothing, and neither does any of
    the bytes that encode it here, all of them 128 or more. *)
Definition sanitize_rune (r : ascii) : string :=
  if in_range "a" "z" r || in_range "A" "Z" r || in_range "0" "9" r
     || Ascii.eqb r "-" || Ascii.eqb r "_"
  then String r ""
  else if Ascii.eqb r " " || Ascii.eqb r "/" || Ascii.eqb r "\"
  then "_"
  else "".

Fixpoint sanitize_loop (name result : string) : string :=
  match name with
  | EmptyString => result
  | String r name' => sanitize_loop name' (result +:+ sanitize_rune r)
  end.

Definition sanitizeFilename (name : string) : string :=
  let result := sanitize_loop name "" in
  if String.eqb result "" then "default" else result.

(* ===================================================================== *)
(** * Package [reporter]: selecting and grouping changes *)
(* ===================================================================== *)

(** The changes of one section of the Markdown report. *)
Definition filterBySeverity (changes : list Change) (sev : Severity)
  : list Change :=
  fold_left
    (λ result c, if String.eqb (severity c) sev then result ++ [c] else result)
    changes [].

(** The part of a path that the reports print beside a change. *)
Definition extractField (path : string) : string :=
  let parts := strings_Split path "." in
  if (3 <=? length parts)%nat then strings_Join (drop 2 parts) "." else path.

(** The changes of the text report, service by service; indexing the map
    at a service it does not hold yet gives the nil slice. *)
Definition groupByService (changes : list Change) : gmap string (list Change) :=
  fold_left
    (λ result c,
       if bool_decide (scope c = ScopeService)
       then <[Name c := result !!! Name c ++ [c]]> result
       else result)
    changes ∅.

Definition filterVolNetChanges (changes : list Change) : list Change :=
  fold_left
    (λ result c,
       if bool_decide (scope c = ScopeVolume)
          || bool_decide (scope c = ScopeNetwork)
       then result ++ [c]
       else result)
    changes [].

(** [sortedKeys] collects the keys of the map in the order in which the
    map is ranged over, which Go leaves open, and sorts them in place:
    [keys] below is the slice as collected.  [swap_if_greater] is the body
    of the inner loop; both indices are always below the length. *)
Definition swap_if_greater (i j : nat) (keys : list string) : list string :=
  match keys !! i, keys !! j with
  | Some a, Some b =>
      if String.ltb b a then <[i:=b]> (<[j:=a]> keys) else keys
  | _, _ => keys
  end.

Definition sortedKeys (keys : list string) : list string :=
  let n := length keys in
  fold_left
    (λ keys i,
       fold_left (λ keys j, swap_if_greater i j keys)
         (seq (S i) (n - S i)%nat) keys)
    (seq 0%nat n) keys.

(* ===================================================================== *)
(** * The vocabulary of the properties *)
(* ===================================================================== *)

(** ** Order of a slice *)

(** No element is less than its left neighbour. *)
Definition ascending {A} (less : A → A → bool) : list A → Prop :=
  Sorted (λ x y, less y x = false).

(** The same for a reversed prefix: no element is less than the next. *)
Definition descending {A} (less : A → A → bool) : list A → Prop :=
  Sorted (λ y x, less y x = false).

(** ** Port bindings by key *)



(** ** Ties under the orders of the normalizer *)


Section sorter_vocabulary.
Context `{SliceSorter}.



End sorter_vocabulary.


(** ** Counting changes *)

(** The number of changes that satisfy [P], as a Go [int]. *)
Definition count_if (P : Change → bool) (cs : list Change) : Z :=
  Z.of_nat (length (filter (λ c, P c) cs)).

Definition is_breaking (c : Change) : bool :=
  String.eqb (severity c) SeverityBreaking.
Definition is_warning (c : Change) : bool :=
  String.eqb (severity c) SeverityWarning.
Definition is_info (c : Change) : bool :=
  String.eqb (severity c) SeverityInfo.

(** What a run of [AddChange] does to the summary. *)
Definition add_counts (cs : list Change) (s : DiffSummary) : DiffSummary :=
  set_severity_counts
    (TotalChanges s + Z.of_nat (length cs))
    (BreakingCount s + count_if is_breaking cs)
    (WarningCount s + count_if is_warning cs)
    (InfoCount s + count_if is_info cs)
    s.

(** ** The three lists of [diffSets], by name *)

Definition names_added (old new : list string) : list string :=
  (diffSets old new).1.1.
Definition names_removed (old new : list string) : list string :=
  (diffSets old new).1.2.
Definition names_common (old new : list string) : list string :=
  (diffSets old new).2.

(** ** The changes that each comparison emits *)

Definition env_added (svcName basePath : string)
    (new : gmap string (option string)) (key : string) : Change :=
  mkChange ChangeAdded ScopeService svcName
    (basePath +:+ ".environment." +:+ key)
    VNil (ptrValue (new !!! key)) SeverityInfo.

Definition env_removed (svcName basePath : string)
    (old : gmap string (option string)) (key : string) : Change :=
  mkChange ChangeRemoved ScopeService svcName
    (basePath +:+ ".environment." +:+ key)
    (ptrValue (old !!! key)) VNil SeverityBreaking.

Definition env_modified (svcName basePath : string)
    (old new : gmap string (option string)) (key : string) : Change :=
  mkChange ChangeModified ScopeService svcName
    (basePath +:+ ".environment." +:+ key)
    (ptrValue (old !!! key)) (ptrValue (new !!! key)) SeverityWarning.

Definition port_added (svcName basePath : string)
    (newMap : gmap string PortIR) (key : string) : Change :=
  mkChange ChangeAdded ScopeService svcName (basePath +:+ ".ports." +:+ key)
    VNil (VPort (newMap !!! key)) SeverityInfo.

Definition port_removed (svcName basePath : string)
    (oldMap : gmap string PortIR) (key : string) : Change :=
  mkChange ChangeRemoved ScopeService svcName (basePath +:+ ".ports." +:+ key)
    (VPort (oldMap !!! key)) VNil SeverityBreaking.

Definition port_modified (svcName basePath : string)
    (oldMap newMap : gmap string PortIR) (key : string) : Change :=
  mkChange ChangeModified ScopeService svcName (basePath +:+ ".ports." +:+ key)
    (VPort (oldMap !!! key)) (VPort (newMap !!! key)) SeverityWarning.

Definition mount_added (svcName basePath : string)
    (newMap : gmap string MountIR) (key : string) : Change :=
  mkChange ChangeAdded ScopeService svcName (basePath +:+ ".volumes." +:+ key)
    VNil (VMount (newMap !!! key)) SeverityInfo.

Definition mount_removed (svcName basePath : string)
    (oldMap : gmap string MountIR) (key : string) : Change :=
  mkChange ChangeRemoved ScopeService svcName
    (basePath +:+ ".volumes." +:+ key)
    (VMount (oldMap !!! key)) VNil SeverityBreaking.

Definition mount_modified (svcName basePath : string)
    (oldMap newMap : gmap string MountIR) (key : string) : Change :=
  mkChange ChangeModified ScopeService svcName
    (basePath +:+ ".volumes." +:+ key)
    (VMount (oldMap !!! key)) (VMount (newMap !!! key)) SeverityWarning.

Definition item_added (svcName path item : string) : Change :=
  mkChange ChangeAdded ScopeService svcName (path +:+ "." +:+ item)
    VNil (VString item) SeverityInfo.

Definition item_removed (svcName path : string) (sev : Severity)
    (item : string) : Change :=
  mkChange ChangeRemoved ScopeService svcName (path +:+ "." +:+ item)
    (VString item) VNil sev.

(** ** What holds of the changes of one service *)

(** The invariant that the differ keeps between the kind of a change and
    its two values. *)
Definition kind_invariant (c : Change) : Prop :=
  match Kind c with
  | ChangeAdded => Before c = VNil
  | ChangeRemoved => After c = VNil
  | ChangeModified => Before c ≠ After c
  end.

(** A change below the entity [name]: in service scope, carrying the
    service's name, at a path longer than the entity's own. *)
Definition field_change_of (name : string) (c : Change) : Prop :=
  scope c = ScopeService ∧ Name c = name ∧ Path c ≠ "services." +:+ name.

(** ** The changes of one service and of a whole report *)

(** The changes of one service, piece by piece. *)
Definition image_change (name : string) (old new : ServiceIR) : list Change :=
  if negb (ptrEqual (Image old) (Image new)) then
    [mkChange ChangeModified ScopeService name
       (("services." +:+ name) +:+ ".image")
       (ptrValue (Image old)) (ptrValue (Image new))
       (imageSeverity (Image old) (Image new))]
  else [].

Definition healthcheck_change (name : string) (old new : ServiceIR)
  : list Change :=
  if negb (healthcheckEqual (Healthcheck old) (Healthcheck new)) then
    [mkChange
       (changeKindForPtrs (VHealthcheck (Healthcheck old))
                          (VHealthcheck (Healthcheck new)))
       ScopeService name (("services." +:+ name) +:+ ".healthcheck")
       (VHealthcheck (Healthcheck old)) (VHealthcheck (Healthcheck new))
       match Healthcheck old, Healthcheck new with
       | Some _, None => SeverityBreaking
       | _, _ => SeverityInfo
       end]
  else [].

Definition command_change (name : string) (old new : ServiceIR)
  : list Change :=
  if negb (sliceEqual (Command old) (Command new)) then
    [mkChange ChangeModified ScopeService name
       (("services." +:+ name) +:+ ".command")
       (VStrings (Command old)) (VStrings (Command new)) SeverityInfo]
  else [].

Definition entrypoint_change (name : string) (old new : ServiceIR)
  : list Change :=
  if negb (sliceEqual (Entrypoint old) (Entrypoint new)) then
    [mkChange ChangeModified ScopeService name
       (("services." +:+ name) +:+ ".entrypoint")
       (VStrings (Entrypoint old)) (VStrings (Entrypoint new))
       SeverityWarning]
  else [].

Definition restart_change (name : string) (old new : ServiceIR)
  : list Change :=
  if negb (ptrEqual (Restart old) (Restart new)) then
    [mkChange ChangeModified ScopeService name
       (("services." +:+ name) +:+ ".restart")
       (ptrValue (Restart old)) (ptrValue (Restart new)) SeverityInfo]
  else [].

Definition service_added (new : gmap string ServiceIR) (name : string)
  : Change :=
  mkChange ChangeAdded ScopeService name ("services." +:+ name)
    VNil (VService (new !!! name)) SeverityInfo.

Definition service_removed (old : gmap string ServiceIR) (name : string)
  : Change :=
  mkChange ChangeRemoved ScopeService name ("services." +:+ name)
    (VService (old !!! name)) VNil SeverityBreaking.

Definition volume_added (new : gmap string VolumeIR) (name : string)
  : Change :=
  mkChange ChangeAdded ScopeVolume name ("volumes." +:+ name)
    VNil (VVolume (new !!! name)) SeverityInfo.

Definition volume_removed (old : gmap string VolumeIR) (name : string)
  : Change :=
  mkChange ChangeRemoved ScopeVolume name ("volumes." +:+ name)
    (VVolume (old !!! name)) VNil SeverityBreaking.

Definition network_added (new : gmap string NetworkIR) (name : string)
  : Change :=
  mkChange ChangeAdded ScopeNetwork name ("networks." +:+ name)
    VNil (VNetwork (new !!! name)) SeverityInfo.

Definition network_removed (old : gmap string NetworkIR) (name : string)
  : Change :=
  mkChange ChangeRemoved ScopeNetwork name ("networks." +:+ name)
    (VNetwork (old !!! name)) VNil SeverityWarning.

(** The field-level changes of the service [name], present on both sides. *)
Definition changes_of (old new : gmap string ServiceIR) (name : string)
  : list Change :=
  compareService name (old !!! name) (new !!! name).

Definition field_changes (old new : gmap string ServiceIR) : list Change :=
  names_common (mapKeys old) (mapKeys new) ≫= changes_of old new.

Definition service_changes (old new : gmap string ServiceIR) : list Change :=
  (service_added new <$> names_added (mapKeys old) (mapKeys new))
  ++ (service_removed old <$> names_removed (mapKeys old) (mapKeys new))
  ++ field_changes old new.

Definition volume_changes (old new : gmap string VolumeIR) : list Change :=
  (volume_added new <$> names_added (mapKeys old) (mapKeys new))
  ++ (volume_removed old <$> names_removed (mapKeys old) (mapKeys new)).

Definition network_changes (old new : gmap string NetworkIR) : list Change :=
  (network_added new <$> names_added (mapKeys old) (mapKeys new))
  ++ (network_removed old <$> names_removed (mapKeys old) (mapKeys new)).

(** The number of services with at least one field-level change. *)
Definition changed_count (old new : gmap string ServiceIR) (l : list string)
  : Z :=
  Z.of_nat (length (filter (λ name, changes_of old new name ≠ []) l)).

(** ** Selecting and rebuilding *)

(** The removed changes of scope [s] that carry the entity name [name]. *)
Definition removed_entity (s : Scope) (name : string) (c : Change) : Prop :=
  Kind c = ChangeRemoved ∧ scope c = s ∧ Name c = name.

#[global] Instance removed_entity_dec s name c :
  Decision (removed_entity s name c).
Proof. unfold removed_entity. apply _. Defined.

(** The service with its label map replaced. *)
Definition with_Labels (labels : gmap string string) (svc : ServiceIR)
  : ServiceIR :=
  {| Image := Image svc; Build := Build svc; Env := Env svc;
     EnvFiles := EnvFiles svc; Ports := Ports svc; Volumes := Volumes svc;
     Networks := Networks svc; DependsOn := DependsOn svc;
     Healthcheck := Healthcheck svc; Command := Command svc;
     Entrypoint := Entrypoint svc; Profiles := Profiles svc;
     Restart := Restart svc; Labels := labels |}.

(** ** The kind invariant as the data model words it *)

(** The invariant in the words of the data model: a value is absent when
    it is the nil interface. *)
Definition absent (v : Value) : Prop := v = VNil.

Definition kind_invariant_as_specified (c : Change) : Prop :=
  match Kind c with
  | ChangeAdded => absent (Before c)
  | ChangeRemoved => absent (After c)
  | ChangeModified =>
      ¬ absent (Before c) ∧ ¬ absent (After c) ∧ Before c ≠ After c
  end.

(** ** Major versions as numbers *)

(** The number that a run of decimal digits writes. *)
Definition decimal_value (s : string) : Z := default 0 (decimal_from 0 s).

(** ** The aggregate of a list of changes

    The summary recomputed from the changes alone, in the words of the
    data model: per scope, the entities added and removed; the services
    with a change below the entity; the total; the totals per severity. *)

Definition entity_path (c : Change) : string :=
  match scope c with
  | ScopeService => "services."
  | ScopeVolume => "volumes."
  | ScopeNetwork => "networks."
  end +:+ Name c.

Definition is_entity (k : ChangeKind) (s : Scope) (c : Change) : bool :=
  bool_decide (Kind c = k ∧ scope c = s ∧ Path c = entity_path c).

Definition is_service_field (c : Change) : bool :=
  bool_decide (scope c = ScopeService ∧ Path c ≠ entity_path c).

Definition changed_services (cs : list Change) : gset string :=
  list_to_set (Name <$> filter (λ c, is_service_field c) cs).

Definition summarize (cs : list Change) : DiffSummary :=
  {| ServicesAdded := count_if (is_entity ChangeAdded ScopeService) cs;
     ServicesRemoved := count_if (is_entity ChangeRemoved ScopeService) cs;
     ServicesChanged := Z.of_nat (size (changed_services cs));
     VolumesAdded := count_if (is_entity ChangeAdded ScopeVolume) cs;
     VolumesRemoved := count_if (is_entity ChangeRemoved ScopeVolume) cs;
     NetworksAdded := count_if (is_entity ChangeAdded ScopeNetwork) cs;
     NetworksRemoved := count_if (is_entity ChangeRemoved ScopeNetwork) cs;
     TotalChanges := Z.of_nat (length cs);
     BreakingCount := count_if is_breaking cs;
     WarningCount := count_if is_warning cs;
     InfoCount := count_if is_info cs |}.

(** ** The loop of [applyRules] *)

(** Neither breaking nor warning: what [applyRules] counts as info. *)
Definition is_other (c : Change) : bool :=
  negb (is_breaking c) && negb (is_warning c).

(** The counters of the loop of [applyRules] agree with the retained
    list. *)
Definition recounted (st : list Change * Z * Z * Z) : Prop :=
  let '(filtered, b, w, i) := st in
  b = count_if is_breaking filtered
  ∧ w = count_if is_warning filtered
  ∧ i = count_if is_other filtered.

(** ** Glob matching as specified

    The whole path matches the pattern, [*] standing for any run of bytes
    and every other byte for itself. *)

Fixpoint glob (pattern : string) : string → bool :=
  match pattern with
  | EmptyString => λ s, String.eqb s ""
  | String c pattern' =>
      let rest := glob pattern' in
      let star :=
        fix star (s : string) : bool :=
          rest s
          || match s with
             | String _ s' => star s'
             | EmptyString => false
             end in
      λ s,
        if Ascii.eqb c "*" then star s
        else match s with
             | String d s' => Ascii.eqb d c && rest s'
             | EmptyString => false
             end
  end.

Fixpoint string_forall (P : ascii → bool) (s : string) : bool :=
  match s with
  | EmptyString => true
  | String c s' => P c && string_forall P s'
  end.

(** A byte that a glob pattern can hold without meaning anything to the
    regular-expression compiler: [.], [*], or no operator at all. *)
Definition glob_byte (c : ascii) : bool :=
  Ascii.eqb c "." || Ascii.eqb c "*" || negb (re2.is_operator c).

Definition not_newline (c : ascii) : bool := negb (Ascii.eqb c "010").

(** What [matchGlob] rewrites one byte of such a pattern to, and the atom
    that the compiler reads back. *)
Definition glob_byte_regexp (c : ascii) : string :=
  if Ascii.eqb c "." then "\."
  else if Ascii.eqb c "*" then ".*"
  else String c "".

Definition glob_byte_item (c : ascii) : re2.atom * re2.rep :=
  if Ascii.eqb c "." then (re2.Lit ".", re2.One)
  else if Ascii.eqb c "*" then (re2.AnyNotNL, re2.Star)
  else (re2.Lit c, re2.One).

Fixpoint glob_regexp (pattern : string) : string :=
  match pattern with
  | EmptyString => EmptyString
  | String c pattern' => glob_byte_regexp c +:+ glob_regexp pattern'
  end.

Fixpoint glob_items (pattern : string) : list (re2.atom * re2.rep) :=
  match pattern with
  | EmptyString => []
  | String c pattern' => glob_byte_item c :: glob_items pattern'
  end.

(** ** What [applyRules] does to one change *)

Section rules_vocabulary.
Context `{RegexpEngine}.

(** The change passes both ignore checks. *)
Definition kept (r : Rules) (c : Change) : bool :=
  negb (ShouldIgnore r (Path c)).1
  && negb (ShouldIgnoreServiceField r (Name c) (extractFieldFromPath (Path c))).

(** The change with the severity of the first override that matches its
    path, if there is one. *)
Definition rescored (r : Rules) (c : Change) : Change :=
  match GetSeverityOverride r (Path c) with
  | (sev, true) => with_severity c sev
  | (_, false) => c
  end.

(** The rule set of a directory without a rules file ([LoadRulesFromDir]):
    an empty configuration, nothing compiled. *)
Definition no_rules : Rules :=
  mkRules (mkRulesConfig "" [] [] ∅ ∅) [] [].

End rules_vocabulary.

(** A change without its severity. *)
Definition unscored (c : Change)
  : ChangeKind * Scope * string * string * Value * Value :=
  (Kind c, scope c, Name c, Path c, Before c, After c).

Definition known_severity (sev : Severity) : Prop :=
  sev = SeverityInfo ∨ sev = SeverityWarning ∨ sev = SeverityBreaking.

(** ** Services up to the order of their collections *)

(** The two services agree field by field, their ports, mounts, networks
    and dependencies up to order. *)
Definition same_up_to_order (a b : ServiceIR) : Prop :=
  Image a = Image b ∧ Env a = Env b
  ∧ Ports a ≡ₚ Ports b ∧ Volumes a ≡ₚ Volumes b
  ∧ Networks a ≡ₚ Networks b ∧ DependsOn a ≡ₚ DependsOn b
  ∧ Healthcheck a = Healthcheck b ∧ Command a = Command b
  ∧ Entrypoint a = Entrypoint b ∧ Restart a = Restart b.

(** No two ports of the service have the same key and no two mounts the
    same target. *)
Definition distinct_keys (a : ServiceIR) : Prop :=
  NoDup (port_key <$> Ports a) ∧ NoDup (Target <$> Volumes a).

(** The paths of the changes of one kind, in their order. *)
Definition paths_of_kind (k : ChangeKind) (cs : list Change) : list string :=
  Path <$> filter (λ c, Kind c = k) cs.

(** The map that the loops of [portMap] and [mountMap] build: each
    element under its key, a later element replacing an earlier one. *)
Definition keyed {V : Type} (key : V → string) (l : list V) : gmap string V :=
  fold_left (λ m x, <[key x := x]> m) l ∅.

(** ** Paths *)

(** No byte of [s] is [x]. *)
Definition free_of (x : ascii) (s : string) : bool :=
  string_forall (λ c, negb (Ascii.eqb c x)) s.

Definition dot_free (s : string) : bool := free_of "." s.

Definition star_free (s : string) : bool := free_of "*" s.

Definition starts_with_digit (s : string) : bool :=
  match s with
  | String c _ => is_digit c
  | EmptyString => false
  end.

(** The bytes that [sanitizeFilename] lets through. *)
Definition safe_byte (r : ascii) : bool :=
  in_range "a" "z" r || in_range "A" "Z" r || in_range "0" "9" r
  || Ascii.eqb r "-" || Ascii.eqb r "_".

(** The scalars [key=value] of the list form of an environment, and the
    key and value scalars of its map form. *)
Definition env_sequence (kvs : list (string * string)) : Node :=
  SequenceNode ((λ kv, ScalarNode (kv.1 +:+ "=" +:+ kv.2)) <$> kvs).

Definition env_mapping (kvs : list (string * string)) : Node :=
  MappingNode (kvs ≫= λ kv, [ScalarNode kv.1; ScalarNode kv.2]).

(** The fields of a service that [compareService] compares, as they are
    spelled in a path. *)
Definition service_fields : list string :=
  ["image"; "environment"; "ports"; "volumes"; "networks"; "depends_on";
   "healthcheck"; "command"; "entrypoint"; "restart"].

(** ** Slices being sorted in place *)

(** The element at [i] is no greater than those at the positions between
    [i] and [m]; the elements below [m] are no greater than any element
    after them. *)
Definition least_at (i m : nat) (ks : list string) : Prop :=
  ∀ k a b, (i < k < m)%nat → ks !! i = Some a → ks !! k = Some b → String.le a b.

Definition sorted_below (m : nat) (ks : list string) : Prop :=
  ∀ p q a b, (p < m)%nat → (p < q)%nat → ks !! p = Some a → ks !! q = Some b →
             String.le a b.

(** ** Changes of one service *)

Definition in_service (name : string) (c : Change) : Prop :=
  scope c = ScopeService ∧ Name c = name.

#[global] Instance in_service_dec name c : Decision (in_service name c).
Proof. unfold in_service. apply _. Defined.

#[global] Instance known_severity_dec sev : Decision (known_severity sev).
Proof. unfold known_severity. apply _. Defined.

(** ** Concrete trees and configurations *)

Definition service_of_image (image : string) : ServiceIR :=
  mkServiceIR (Some image) None ∅ [] [] [] [] [] None [] [] [] None ∅.

Definition tree_worker : ComposeIR :=
  mkComposeIR {[ "worker" := service_of_image "node:18" ]} ∅ ∅.

Definition tree_backend_network : ComposeIR :=
  mkComposeIR ∅ ∅ {[ "backend" := zero_NetworkIR ]}.

Definition tree_cache : ComposeIR :=
  mkComposeIR {[ "cache" := service_of_image "redis:7" ]} ∅ ∅.

Definition service_of_env (env : gmap string (option string)) : ServiceIR :=
  mkServiceIR (Some "node:18") None env [] [] [] [] [] None [] [] [] None ∅.

Definition tree_api_env (env : gmap string (option string)) : ComposeIR :=
  mkComposeIR {[ "api" := service_of_env env ]} ∅ ∅.

Definition service_of_labels (labels : gmap string string) : ServiceIR :=
  mkServiceIR (Some "node:18") None ∅ [] [] [] [] [] None [] [] [] None labels.

Definition tree_api_labels (labels : gmap string string) : ComposeIR :=
  mkComposeIR {[ "api" := service_of_labels labels ]} ∅ ∅.

Definition service_of_lists (networks dependsOn : list string) : ServiceIR :=
  mkServiceIR (Some "node:18") None ∅ [] [] [] networks dependsOn
    None [] [] [] None ∅.

Definition tree_web_lists (networks dependsOn : list string) : ComposeIR :=
  mkComposeIR {[ "web" := service_of_lists networks dependsOn ]} ∅ ∅.

Definition healthcheck_curl : HealthcheckIR :=
  mkHealthcheckIR ["CMD"; "curl"; "-f"; "http://localhost"] "30s" "10s" 3 ""
    false.

Definition service_of_healthcheck (h : option HealthcheckIR) : ServiceIR :=
  mkServiceIR (Some "node:18") None ∅ [] [] [] [] [] h [] [] [] None ∅.

Definition service_of_mounts (ports : list PortIR) (volumes : list MountIR)
  : ServiceIR :=
  mkServiceIR (Some "node:18") None ∅ [] ports volumes [] [] None [] [] []
    None ∅.

Definition removed_worker : Change :=
  mkChange ChangeRemoved ScopeService "worker" "services.worker"
    (VService (service_of_image "node:18")) VNil SeverityBreaking.

(** Changes of two services and of a volume, as a report lists them. *)
Definition changes_web_db : list Change :=
  [mkChange ChangeModified ScopeService "web" "services.web.image"
     (VString "nginx:1.24") (VString "nginx:1.25") SeverityInfo;
   mkChange ChangeRemoved ScopeService "db" "services.db.environment.PGDATA"
     (VString "/data") VNil SeverityBreaking;
   mkChange ChangeAdded ScopeService "web" "services.web.ports.8080:80/tcp"
     VNil (VPort (mkPortIR "" "8080" "80" "tcp")) SeverityInfo;
   mkChange ChangeRemoved ScopeVolume "pgdata" "volumes.pgdata"
     (VVolume zero_VolumeIR) VNil SeverityBreaking].



Definition config_unknown_severity : RulesConfig :=
  mkRulesConfig "1" [mkSeverityRule "*.image" "critical" false] [] ∅ ∅.

(* ===================================================================== *)
(** * Properties of the library models *)
(* ===================================================================== *)

Section insertion_sort_facts.
Context {A : Type} (less : A → A → bool).

Lemma insert_left_Permutation x p : insert_left less x p ≡ₚ x :: p.
Proof.
  induction p as [|y p IH]; simpl; [done|].
  destruct (less x y); [|done].
  rewrite IH. apply Permutation_swap.
Qed.

Lemma fold_insert_Permutation l p :
  fold_left (λ p x, insert_left less x p) l p ≡ₚ l ++ p.
Proof.
  revert p. induction l as [|x l IH]; intros p; simpl; [done|].
  rewrite IH, insert_left_Permutation.
  by rewrite Permutation_middle.
Qed.

Lemma insertionSort_Permutation l : insertionSort less l ≡ₚ l.
Proof.
  unfold insertionSort. rewrite reverse_Permutation, fold_insert_Permutation.
  by rewrite app_nil_r.
Qed.



Hypothesis less_asym : ∀ x y, less x y = true → less y x = false.

Lemma insert_left_HdRel y x p :
  less y x = false →
  HdRel (λ y x, less y x = false) y p →
  HdRel (λ y x, less y x = false) y (insert_left less x p).
Proof.
  intros Hyx Hp. destruct p as [|z p]; simpl.
  - by constructor.
  - destruct (less x z); constructor; [by inversion Hp | done].
Qed.

Lemma insert_left_descending x p :
  descending less p → descending less (insert_left less x p).
Proof.
  induction p as [|y p IH]; intros Hp; simpl.
  - repeat constructor.
  - destruct (less x y) eqn:Hxy.
    + inversion Hp; subst. constructor; [by apply IH|].
      apply insert_left_HdRel; [by apply less_asym | done].
    + constructor; [done | by constructor].
Qed.

Lemma fold_insert_descending l p :
  descending less p → descending less (fold_left (λ p x, insert_left less x p) l p).
Proof.
  revert p. induction l as [|x l IH]; intros p Hp; simpl; [done|].
  by apply IH, insert_left_descending.
Qed.

Lemma insertionSort_ascending l : ascending less (insertionSort less l).
Proof.
  apply (Sorted_reverse (λ y x, less y x = false)).
  apply fold_insert_descending. constructor.
Qed.

End insertion_sort_facts.

Lemma String_ltb_asym (a b : string) :
  String.ltb a b = true → String.ltb b a = false.
Proof.
  unfold String.ltb. rewrite (String.compare_antisym b a).
  by destruct (String.compare a b).
Qed.

Lemma String_ltb_irrefl (a : string) : String.ltb a a = false.
Proof.
  destruct (String.ltb a a) eqn:E; [|done].
  by rewrite (String_ltb_asym _ _ E) in E.
Qed.



(* ===================================================================== *)
(** * The normalizer *)
(* ===================================================================== *)


(** ** The orders of ports and of mounts *)








(** ** Normalizing twice *)

Section normalizer_facts.
Context `{SliceSorter}.













End normalizer_facts.

(* ===================================================================== *)
(** * The structural differ *)
(* ===================================================================== *)

(** ** Strings *)

Lemma String_app_cons (c : ascii) (a b : string) :
  String c a +:+ b = String c (a +:+ b).
Proof. reflexivity. Qed.

Lemma String_app_nil_l (a : string) : "" +:+ a = a.
Proof. reflexivity. Qed.

Lemma String_app_nil_r (a : string) : a +:+ "" = a.
Proof.
  induction a as [|c a IH]; [done|]. by rewrite String_app_cons, IH.
Qed.

Lemma String_app_assoc (a b c : string) :
  (a +:+ b) +:+ c = a +:+ (b +:+ c).
Proof.
  induction a as [|x a IH]; [done|]. by rewrite !String_app_cons, IH.
Qed.

Lemma String_app_ne (a b : string) : b ≠ "" → a +:+ b ≠ a.
Proof.
  intros Hb Heq. apply Hb.
  apply (inj (String.app a)). by rewrite String_app_nil_r.
Qed.

Lemma strings_HasSuffix_app (a b : string) :
  strings_HasSuffix (a +:+ b) b = true.
Proof.
  induction a as [|c a IH].
  - rewrite String_app_nil_l.
    destruct b; cbn [strings_HasSuffix]; by rewrite String.eqb_refl.
  - rewrite String_app_cons. cbn [strings_HasSuffix]. rewrite IH.
    by case_match.
Qed.

(** ** Loops that append *)

Lemma fold_snoc {A B} (f : A → B) (l : list A) (acc : list B) :
  fold_left (λ acc x, acc ++ [f x]) l acc = acc ++ (f <$> l).
Proof.
  revert acc. induction l as [|x l IH]; intros acc; simpl.
  - by rewrite app_nil_r.
  - by rewrite IH, <- app_assoc.
Qed.

Lemma fold_snoc_if {A B} (b : A → bool) (f : A → B) (l : list A)
    (acc : list B) :
  fold_left (λ acc x, if b x then acc ++ [f x] else acc) l acc
  = acc ++ (f <$> filter (λ x, b x) l).
Proof.
  revert acc. induction l as [|x l IH]; intros acc; simpl.
  - by rewrite app_nil_r.
  - rewrite IH. destruct (b x) eqn:E.
    + rewrite filter_cons_True; [|by rewrite E]. by rewrite <- app_assoc.
    + rewrite filter_cons_False; [done|]. rewrite E. intros [].
Qed.

(** ** [diffSets] *)

Lemma elem_of_sort_Strings (s : string) (l : list string) :
  s ∈ sort_Strings l ↔ s ∈ l.
Proof. unfold sort_Strings. by rewrite insertionSort_Permutation. Qed.

Lemma NoDup_sort_Strings (l : list string) :
  NoDup (sort_Strings l) ↔ NoDup l.
Proof. unfold sort_Strings. by rewrite insertionSort_Permutation. Qed.

Lemma diffSets_spec (old new a r c : list string) :
  diffSets old new = (a, r, c) →
  (∀ s, s ∈ a ↔ s ∈ new ∧ s ∉ old)
  ∧ (∀ s, s ∈ r ↔ s ∈ old ∧ s ∉ new)
  ∧ (∀ s, s ∈ c ↔ s ∈ old ∧ s ∈ new)
  ∧ NoDup a ∧ NoDup r ∧ NoDup c.
Proof.
  unfold diffSets. intros [= <- <- <-].
  split_and!;
    try (intros s;
         rewrite elem_of_sort_Strings, list_elem_of_filter, elem_of_elements,
           !elem_of_list_to_set; tauto);
    apply NoDup_sort_Strings, NoDup_filter, NoDup_elements.
Qed.

Lemma elem_of_mapKeys {V} (m : gmap string V) (k : string) :
  k ∈ mapKeys m ↔ is_Some (m !! k).
Proof.
  unfold mapKeys. rewrite list_elem_of_fmap. split.
  - intros [[k' v] [-> Hkv]]. apply elem_of_map_to_list in Hkv. by exists v.
  - intros [v Hv]. exists (k, v). split; [done|].
    by apply elem_of_map_to_list.
Qed.

Lemma elem_of_envKeys (m : gmap string (option string)) (k : string) :
  k ∈ envKeys m ↔ is_Some (m !! k).
Proof. unfold envKeys. rewrite elem_of_sort_Strings. apply elem_of_mapKeys. Qed.

(** ** Reports under [AddChange] *)

Lemma count_if_nil P : count_if P [] = 0.
Proof. done. Qed.

Lemma count_if_app P cs1 cs2 :
  count_if P (cs1 ++ cs2) = count_if P cs1 + count_if P cs2.
Proof. unfold count_if. rewrite filter_app, length_app. lia. Qed.

Lemma count_if_singleton P c : count_if P [c] = if P c then 1 else 0.
Proof.
  unfold count_if. destruct (P c) eqn:E.
  - rewrite filter_cons_True; [done|]. by rewrite E.
  - rewrite filter_cons_False; [done|]. rewrite E. intros [].
Qed.

Lemma fold_AddChange_fmap {A} (f : A → Change) (l : list A) (r : DiffReport) :
  fold_left (λ r x, AddChange r (f x)) l r = fold_left AddChange (f <$> l) r.
Proof. revert r. induction l as [|x l IH]; intros r; simpl; [done|apply IH]. Qed.

Lemma Changes_fold_AddChange (cs : list Change) (r : DiffReport) :
  Changes (fold_left AddChange cs r) = Changes r ++ cs.
Proof.
  revert r. induction cs as [|c cs IH]; intros r; simpl.
  - by rewrite app_nil_r.
  - rewrite IH. simpl. by rewrite <- app_assoc.
Qed.

Lemma Summary_AddChange (r : DiffReport) (c : Change) :
  Summary (AddChange r c) = add_counts [c] (Summary r).
Proof.
  unfold AddChange, add_counts, set_severity_counts.
  rewrite !count_if_singleton. unfold is_breaking, is_warning, is_info.
  generalize (severity c). intros sev. cbn [Summary length].
  destruct (String.eqb_spec sev SeverityBreaking) as [->|?];
    [cbn; f_equal; lia|].
  destruct (String.eqb_spec sev SeverityWarning) as [->|?];
    [cbn; f_equal; lia|].
  destruct (String.eqb_spec sev SeverityInfo) as [->|?];
    cbn; f_equal; lia.
Qed.

Lemma add_counts_app cs1 cs2 s :
  add_counts (cs1 ++ cs2) s = add_counts cs2 (add_counts cs1 s).
Proof.
  unfold add_counts, set_severity_counts; simpl.
  rewrite !count_if_app, length_app. f_equal; lia.
Qed.

Lemma add_counts_nil s : add_counts [] s = s.
Proof.
  destruct s. unfold add_counts, set_severity_counts, count_if; cbn.
  f_equal; lia.
Qed.

Lemma Summary_fold_AddChange (cs : list Change) (r : DiffReport) :
  Summary (fold_left AddChange cs r) = add_counts cs (Summary r).
Proof.
  revert r. induction cs as [|c cs IH]; intros r; simpl.
  - by rewrite add_counts_nil.
  - rewrite IH, Summary_AddChange. by rewrite <- add_counts_app.
Qed.

(** ** The three lists of [diffSets] *)

Lemma diffSets_eta (old new : list string) :
  diffSets old new
  = (names_added old new, names_removed old new, names_common old new).
Proof.
  unfold names_added, names_removed, names_common.
  by destruct (diffSets old new) as [[??]?].
Qed.

Lemma elem_of_names_added old new s :
  s ∈ names_added old new ↔ s ∈ new ∧ s ∉ old.
Proof. by apply (diffSets_spec _ _ _ _ _ (diffSets_eta old new)). Qed.

Lemma elem_of_names_removed old new s :
  s ∈ names_removed old new ↔ s ∈ old ∧ s ∉ new.
Proof. by apply (diffSets_spec _ _ _ _ _ (diffSets_eta old new)). Qed.

Lemma elem_of_names_common old new s :
  s ∈ names_common old new ↔ s ∈ old ∧ s ∈ new.
Proof. by apply (diffSets_spec _ _ _ _ _ (diffSets_eta old new)). Qed.


Lemma NoDup_names_removed old new : NoDup (names_removed old new).
Proof. by apply (diffSets_spec _ _ _ _ _ (diffSets_eta old new)). Qed.

Lemma NoDup_names_common old new : NoDup (names_common old new).
Proof. by apply (diffSets_spec _ _ _ _ _ (diffSets_eta old new)). Qed.

(** ** The changes each comparison emits, in closed form *)

Lemma compareEnv_eq svcName basePath old new :
  compareEnv svcName basePath old new
  = (env_added svcName basePath new
       <$> names_added (envKeys old) (envKeys new))
    ++ (env_removed svcName basePath old
          <$> names_removed (envKeys old) (envKeys new))
    ++ (env_modified svcName basePath old new
          <$> filter (λ key, bool_decide
                               (ptrValue (old !!! key) ≠ ptrValue (new !!! key)))
                (names_common (envKeys old) (envKeys new))).
Proof.
  unfold compareEnv. rewrite diffSets_eta.
  rewrite (fold_snoc_if
    (λ key, bool_decide (ptrValue (old !!! key) ≠ ptrValue (new !!! key)))
    (env_modified svcName basePath old new)), !fold_snoc.
  simpl. by rewrite <- app_assoc.
Qed.

Lemma comparePorts_eq svcName basePath old new :
  comparePorts svcName basePath old new
  = (port_added svcName basePath (portMap new)
       <$> names_added (mapKeys (portMap old)) (mapKeys (portMap new)))
    ++ (port_removed svcName basePath (portMap old)
          <$> names_removed (mapKeys (portMap old)) (mapKeys (portMap new)))
    ++ (port_modified svcName basePath (portMap old) (portMap new)
          <$> filter (λ key, bool_decide
                               (portMap old !!! key ≠ portMap new !!! key))
                (names_common (mapKeys (portMap old)) (mapKeys (portMap new)))).
Proof.
  unfold comparePorts. rewrite diffSets_eta.
  rewrite (fold_snoc_if
    (λ key, bool_decide (portMap old !!! key ≠ portMap new !!! key))
    (port_modified svcName basePath (portMap old) (portMap new))), !fold_snoc.
  simpl. by rewrite <- app_assoc.
Qed.

Lemma compareServiceVolumes_eq svcName basePath old new :
  compareServiceVolumes svcName basePath old new
  = (mount_added svcName basePath (mountMap new)
       <$> names_added (mapKeys (mountMap old)) (mapKeys (mountMap new)))
    ++ (mount_removed svcName basePath (mountMap old)
          <$> names_removed (mapKeys (mountMap old)) (mapKeys (mountMap new)))
    ++ (mount_modified svcName basePath (mountMap old) (mountMap new)
          <$> filter (λ key, bool_decide
                               (mountMap old !!! key ≠ mountMap new !!! key))
                (names_common (mapKeys (mountMap old))
                   (mapKeys (mountMap new)))).
Proof.
  unfold compareServiceVolumes. rewrite diffSets_eta.
  rewrite (fold_snoc_if
    (λ key, bool_decide (mountMap old !!! key ≠ mountMap new !!! key))
    (mount_modified svcName basePath (mountMap old) (mountMap new))),
    !fold_snoc.
  simpl. by rewrite <- app_assoc.
Qed.

Lemma compareStringSlice_eq svcName path old new sev :
  compareStringSlice svcName path old new sev
  = (item_added svcName path <$> names_added old new)
    ++ (item_removed svcName path sev <$> names_removed old new).
Proof.
  unfold compareStringSlice. rewrite diffSets_eta. by rewrite !fold_snoc.
Qed.

(** ** What holds of every change of one service *)

Lemma sliceEqual_eq (a b : list string) : sliceEqual a b = true ↔ a = b.
Proof.
  revert b. induction a as [|x a IH]; intros [|y b]; simpl; try done.
  destruct (String.eqb_spec x y) as [->|Hxy].
  - rewrite IH. split; [by intros ->|by intros [= ->]].
  - split; [done|by intros [= ? ?]].
Qed.

Lemma ptrEqual_eq (a b : option string) : ptrEqual a b = true ↔ a = b.
Proof.
  destruct a as [x|], b as [y|]; simpl; try done.
  destruct (String.eqb_spec x y) as [->|Hxy]; [done|].
  split; [done|by intros [= ?]].
Qed.

Lemma ptrValue_inj (a b : option string) : ptrValue a = ptrValue b → a = b.
Proof. destruct a, b; simpl; intros ?; by simplify_eq. Qed.

Lemma healthcheckEqual_eq (a b : option HealthcheckIR) :
  healthcheckEqual a b = true ↔ a = b.
Proof.
  destruct a as [x|], b as [y|]; simpl; try done.
  rewrite bool_decide_eq_true. split; [by intros ->|by intros [= ->]].
Qed.

Lemma compareService_eq (name : string) (old new : ServiceIR) :
  compareService name old new
  = image_change name old new
    ++ compareEnv name ("services." +:+ name) (Env old) (Env new)
    ++ comparePorts name ("services." +:+ name) (Ports old) (Ports new)
    ++ compareServiceVolumes name ("services." +:+ name)
         (Volumes old) (Volumes new)
    ++ compareStringSlice name (("services." +:+ name) +:+ ".networks")
         (Networks old) (Networks new) SeverityInfo
    ++ compareStringSlice name (("services." +:+ name) +:+ ".depends_on")
         (DependsOn old) (DependsOn new) SeverityWarning
    ++ healthcheck_change name old new
    ++ command_change name old new
    ++ entrypoint_change name old new
    ++ restart_change name old new.
Proof.
  unfold compareService, image_change, healthcheck_change, command_change,
    entrypoint_change, restart_change.
  generalize (compareEnv name ("services." +:+ name) (Env old) (Env new)).
  generalize (comparePorts name ("services." +:+ name) (Ports old) (Ports new)).
  generalize (compareServiceVolumes name ("services." +:+ name)
                (Volumes old) (Volumes new)).
  generalize (compareStringSlice name (("services." +:+ name) +:+ ".networks")
                (Networks old) (Networks new) SeverityInfo).
  generalize (compareStringSlice name
                (("services." +:+ name) +:+ ".depends_on")
                (DependsOn old) (DependsOn new) SeverityWarning).
  intros l5 l4 l3 l2 l1.
  destruct (negb (ptrEqual (Image old) (Image new)));
    destruct (negb (healthcheckEqual (Healthcheck old) (Healthcheck new)));
    destruct (negb (sliceEqual (Command old) (Command new)));
    destruct (negb (sliceEqual (Entrypoint old) (Entrypoint new)));
    destruct (negb (ptrEqual (Restart old) (Restart new)));
    cbn [app]; rewrite <- ?app_assoc, ?app_nil_r; reflexivity.
Qed.

Lemma field_change_of_intro (name : string) (c : Change) (suffix : string) :
  scope c = ScopeService → Name c = name →
  Path c = ("services." +:+ name) +:+ suffix → suffix ≠ "" →
  field_change_of name c.
Proof.
  intros ? ? Hp ?. split_and!; [done|done|].
  rewrite Hp. by apply String_app_ne.
Qed.

Lemma compareService_field (name : string) (old new : ServiceIR) :
  Forall (field_change_of name) (compareService name old new).
Proof.
  rewrite compareService_eq.
  rewrite compareEnv_eq, comparePorts_eq, compareServiceVolumes_eq,
    !compareStringSlice_eq.
  unfold image_change, healthcheck_change, command_change,
    entrypoint_change, restart_change.
  repeat apply Forall_app_2;
    repeat match goal with
           | |- Forall _ (if ?b then _ else _) => destruct b
           | |- Forall _ [] => apply Forall_nil_2
           | |- Forall _ [_] => apply Forall_singleton
           | |- Forall _ (_ <$> _) =>
               apply Forall_fmap, Forall_forall; intros key _
           end.
  all: try (eapply field_change_of_intro; [done|done|reflexivity|done]).
  all: eapply field_change_of_intro;
         [done|done|simpl; apply String_app_assoc|done].
Qed.

Lemma compareService_kind (name : string) (old new : ServiceIR) :
  Forall kind_invariant (compareService name old new).
Proof.
  rewrite compareService_eq.
  rewrite compareEnv_eq, comparePorts_eq, compareServiceVolumes_eq,
    !compareStringSlice_eq.
  unfold image_change, healthcheck_change, command_change,
    entrypoint_change, restart_change.
  repeat apply Forall_app_2;
    repeat match goal with
           | |- Forall _ (if negb ?b then _ else _) => destruct b eqn:?; simpl
           | |- Forall _ [] => apply Forall_nil_2
           | |- Forall _ [_] => apply Forall_singleton
           | |- Forall _ (_ <$> filter _ _) =>
               apply Forall_fmap, Forall_forall;
               intros key [Hne%bool_decide_unpack _]%list_elem_of_filter
           | |- Forall _ (_ <$> _) =>
               apply Forall_fmap, Forall_forall; intros key _
           end;
    red; simpl; try done; try congruence; try (by intros [= ?]).
  - intros Heq%ptrValue_inj%ptrEqual_eq. congruence.
  - intros [= Heq%healthcheckEqual_eq]. congruence.
  - intros [= Heq%sliceEqual_eq]. congruence.
  - intros [= Heq%sliceEqual_eq]. congruence.
  - intros Heq%ptrValue_inj%ptrEqual_eq. congruence.
Qed.

(** ** The report of [Compare], in closed form *)

Lemma common_loop (old new : gmap string ServiceIR) (l : list string)
    (rep : DiffReport) (n : Z) :
  fold_left (λ '(report, changedServices) name,
      let oldSvc : ServiceIR := old !!! name in
      let newSvc : ServiceIR := new !!! name in
      let changes := compareService name oldSvc newSvc in
      if (0 <? length changes)%nat
      then (fold_left AddChange changes report, changedServices + 1)
      else (report, changedServices)) l (rep, n)
  = (fold_left AddChange (l ≫= changes_of old new) rep,
     n + changed_count old new l).
Proof.
  revert rep n. induction l as [|name l IH]; intros rep n.
  - simpl. f_equal. unfold changed_count. simpl. lia.
  - cbn [fold_left]. unfold changed_count in *.
    change (compareService name (old !!! name) (new !!! name))
      with (changes_of old new name).
    destruct (changes_of old new name) as [|c cs] eqn:E.
    + simpl. rewrite IH, E. simpl. rewrite filter_cons_False; [done|].
      by rewrite E; intros ?.
    + cbn [length Nat.ltb Nat.leb].
      rewrite IH. cbn [mbind list_bind]. rewrite E.
      rewrite fold_left_app.
      rewrite filter_cons_True by (by rewrite E).
      f_equal. cbn [length]. lia.
Qed.

Lemma compareServices_Changes old new rep :
  Changes (compareServices old new rep) = Changes rep ++ service_changes old new.
Proof.
  unfold compareServices. rewrite diffSets_eta.
  rewrite common_loop. cbn [set_Summary Changes].
  rewrite Changes_fold_AddChange.
  rewrite (fold_AddChange_fmap (service_removed old)),
    (fold_AddChange_fmap (service_added new)), !Changes_fold_AddChange.
  cbn [set_Summary Changes]. unfold service_changes, field_changes.
  by rewrite <- !app_assoc.
Qed.

Lemma compareServices_Summary old new rep :
  Summary (compareServices old new rep)
  = set_ServicesChanged
      (changed_count old new (names_common (mapKeys old) (mapKeys new)))
      (add_counts (service_changes old new)
         (set_ServicesRemoved
            (Z.of_nat (length (names_removed (mapKeys old) (mapKeys new))))
            (set_ServicesAdded
               (Z.of_nat (length (names_added (mapKeys old) (mapKeys new))))
               (Summary rep)))).
Proof.
  unfold compareServices. rewrite diffSets_eta.
  rewrite common_loop. cbn [set_Summary Summary].
  rewrite Summary_fold_AddChange.
  rewrite (fold_AddChange_fmap (service_removed old)),
    (fold_AddChange_fmap (service_added new)), !Summary_fold_AddChange.
  cbn [set_Summary Summary]. unfold service_changes, field_changes.
  rewrite !add_counts_app. f_equal; lia.
Qed.

Lemma compareVolumes_Changes old new rep :
  Changes (compareVolumes old new rep) = Changes rep ++ volume_changes old new.
Proof.
  unfold compareVolumes. rewrite diffSets_eta.
  rewrite (fold_AddChange_fmap (volume_removed old)),
    (fold_AddChange_fmap (volume_added new)), !Changes_fold_AddChange.
  cbn [set_Summary Changes]. unfold volume_changes.
  by rewrite <- !app_assoc.
Qed.

Lemma compareVolumes_Summary old new rep :
  Summary (compareVolumes old new rep)
  = add_counts (volume_changes old new)
      (set_VolumesRemoved
         (Z.of_nat (length (names_removed (mapKeys old) (mapKeys new))))
         (set_VolumesAdded
            (Z.of_nat (length (names_added (mapKeys old) (mapKeys new))))
            (Summary rep))).
Proof.
  unfold compareVolumes. rewrite diffSets_eta.
  rewrite (fold_AddChange_fmap (volume_removed old)),
    (fold_AddChange_fmap (volume_added new)), !Summary_fold_AddChange.
  cbn [set_Summary Summary]. unfold volume_changes.
  by rewrite !add_counts_app.
Qed.

Lemma compareNetworks_Changes old new rep :
  Changes (compareNetworks old new rep)
  = Changes rep ++ network_changes old new.
Proof.
  unfold compareNetworks. rewrite diffSets_eta.
  rewrite (fold_AddChange_fmap (network_removed old)),
    (fold_AddChange_fmap (network_added new)), !Changes_fold_AddChange.
  cbn [set_Summary Changes]. unfold network_changes.
  by rewrite <- !app_assoc.
Qed.

Lemma compareNetworks_Summary old new rep :
  Summary (compareNetworks old new rep)
  = add_counts (network_changes old new)
      (set_NetworksRemoved
         (Z.of_nat (length (names_removed (mapKeys old) (mapKeys new))))
         (set_NetworksAdded
            (Z.of_nat (length (names_added (mapKeys old) (mapKeys new))))
            (Summary rep))).
Proof.
  unfold compareNetworks. rewrite diffSets_eta.
  rewrite (fold_AddChange_fmap (network_removed old)),
    (fold_AddChange_fmap (network_added new)), !Summary_fold_AddChange.
  cbn [set_Summary Summary]. unfold network_changes.
  by rewrite !add_counts_app.
Qed.

Lemma Compare_Changes (old new : ComposeIR) :
  Changes (Compare old new)
  = service_changes (ir_Services old) (ir_Services new)
    ++ volume_changes (ir_Volumes old) (ir_Volumes new)
    ++ network_changes (ir_Networks old) (ir_Networks new).
Proof.
  unfold Compare.
  rewrite compareNetworks_Changes, compareVolumes_Changes,
    compareServices_Changes.
  simpl. by rewrite <- app_assoc.
Qed.

(** ** Entity removal *)

Lemma filter_none {A} (P : A → Prop) `{∀ x, Decision (P x)} (l : list A) :
  (∀ x, x ∈ l → ¬ P x) → filter P l = [].
Proof.
  induction l as [|x l IH]; intros Hl; [done|].
  rewrite filter_cons_False by (apply Hl; left).
  apply IH. intros y Hy. apply Hl. by right.
Qed.

Lemma filter_fmap_one {A} (P : A → Prop) `{∀ x, Decision (P x)}
    (f : string → A) (l : list string) (name : string) :
  (∀ n, P (f n) ↔ n = name) → NoDup l → name ∈ l →
  filter P (f <$> l) = [f name].
Proof.
  intros HP. induction l as [|n l IH]; intros Hnd Hin.
  - by apply elem_of_nil in Hin.
  - apply NoDup_cons in Hnd as [Hn Hnd]. rewrite fmap_cons.
    destruct (decide (n = name)) as [->|Hne].
    + rewrite filter_cons_True by by apply HP.
      f_equal. apply filter_none.
      intros c [m [-> Hm]]%list_elem_of_fmap Hc%HP. by subst.
    + rewrite filter_cons_False by (by rewrite HP).
      apply IH; [done|]. apply elem_of_cons in Hin as [?|?]; [by subst|done].
Qed.

Lemma elem_of_field_changes old new (c : Change) :
  c ∈ field_changes old new →
  ∃ name, name ∈ names_common (mapKeys old) (mapKeys new)
          ∧ c ∈ compareService name (old !!! name) (new !!! name).
Proof.
  unfold field_changes. rewrite list_elem_of_bind.
  intros (name & ? & ?). by exists name.
Qed.

Lemma field_changes_common old new (c : Change) :
  c ∈ field_changes old new →
  scope c = ScopeService ∧ is_Some (old !! Name c) ∧ is_Some (new !! Name c)
  ∧ Path c ≠ "services." +:+ Name c.
Proof.
  intros (name & Hname & Hc)%elem_of_field_changes.
  pose proof (compareService_field name (old !!! name) (new !!! name)) as HF.
  rewrite Forall_forall in HF. destruct (HF c Hc) as (? & -> & ?).
  apply elem_of_names_common in Hname as [??].
  by rewrite <- !elem_of_mapKeys.
Qed.

Lemma removed_services old new name svc :
  old !! name = Some svc → new !! name = None →
  filter (removed_entity ScopeService name) (service_changes old new)
  = [mkChange ChangeRemoved ScopeService name ("services." +:+ name)
       (VService svc) VNil SeverityBreaking].
Proof.
  intros Hold Hnew. unfold service_changes. rewrite !filter_app.
  rewrite (filter_none _ (service_added new <$> _)), (filter_none _ (field_changes _ _)).
  - rewrite app_nil_r. simpl.
    rewrite (filter_fmap_one _ (service_removed old) _ name).
    + unfold service_removed. by rewrite (lookup_total_correct _ _ _ Hold).
    + intros n. unfold removed_entity. simpl.
      split; [by intros (_ & _ & ?)|by intros ->].
    + apply NoDup_names_removed.
    + apply elem_of_names_removed. rewrite !elem_of_mapKeys, Hold, Hnew.
      split; [done|]. by intros [??].
  - intros c Hc%field_changes_common [_ [_ Hn]].
    destruct Hc as (_ & _ & [? Hs] & _). congruence.
  - intros c [n [-> _]]%list_elem_of_fmap [? _]. done.
Qed.

Lemma removed_volumes (old new : gmap string VolumeIR) name vol :
  old !! name = Some vol → new !! name = None →
  filter (removed_entity ScopeVolume name) (volume_changes old new)
  = [mkChange ChangeRemoved ScopeVolume name ("volumes." +:+ name)
       (VVolume vol) VNil SeverityBreaking].
Proof.
  intros Hold Hnew. unfold volume_changes. rewrite !filter_app.
  rewrite (filter_none _ (volume_added new <$> _)).
  - simpl. rewrite (filter_fmap_one _ (volume_removed old) _ name).
    + unfold volume_removed. by rewrite (lookup_total_correct _ _ _ Hold).
    + intros n. unfold removed_entity. simpl.
      split; [by intros (_ & _ & ?)|by intros ->].
    + apply NoDup_names_removed.
    + apply elem_of_names_removed. rewrite !elem_of_mapKeys, Hold, Hnew.
      split; [done|]. by intros [??].
  - intros c [n [-> _]]%list_elem_of_fmap [? _]. done.
Qed.

Lemma removed_networks (old new : gmap string NetworkIR) name net :
  old !! name = Some net → new !! name = None →
  filter (removed_entity ScopeNetwork name) (network_changes old new)
  = [mkChange ChangeRemoved ScopeNetwork name ("networks." +:+ name)
       (VNetwork net) VNil SeverityWarning].
Proof.
  intros Hold Hnew. unfold network_changes. rewrite !filter_app.
  rewrite (filter_none _ (network_added new <$> _)).
  - simpl. rewrite (filter_fmap_one _ (network_removed old) _ name).
    + unfold network_removed. by rewrite (lookup_total_correct _ _ _ Hold).
    + intros n. unfold removed_entity. simpl.
      split; [by intros (_ & _ & ?)|by intros ->].
    + apply NoDup_names_removed.
    + apply elem_of_names_removed. rewrite !elem_of_mapKeys, Hold, Hnew.
      split; [done|]. by intros [??].
  - intros c [n [-> _]]%list_elem_of_fmap [? _]. done.
Qed.

Lemma scope_service_changes old new (c : Change) :
  c ∈ service_changes old new → scope c = ScopeService.
Proof.
  unfold service_changes. rewrite !elem_of_app, !list_elem_of_fmap.
  intros [(? & -> & _)|[(? & -> & _)|Hc%field_changes_common]];
    [done|done|by destruct Hc].
Qed.

Lemma scope_volume_changes old new (c : Change) :
  c ∈ volume_changes old new → scope c = ScopeVolume.
Proof.
  unfold volume_changes. rewrite !elem_of_app, !list_elem_of_fmap.
  by intros [(? & -> & _)|(? & -> & _)].
Qed.

Lemma scope_network_changes old new (c : Change) :
  c ∈ network_changes old new → scope c = ScopeNetwork.
Proof.
  unfold network_changes. rewrite !elem_of_app, !list_elem_of_fmap.
  by intros [(? & -> & _)|(? & -> & _)].
Qed.

(** C1, as the code has it. For every pair of trees and every entity name that
    the old tree has and the new one lacks, the report holds exactly one
    removed change of that scope and name; it is at entity granularity,
    carries the old entity, and its severity is breaking for a service and for
    a volume, warning for a network. *)
Theorem removed_entity_changes (old new : ComposeIR) (name : string) :
  (∀ svc, ir_Services old !! name = Some svc →
          ir_Services new !! name = None →
     filter (removed_entity ScopeService name) (Changes (Compare old new))
     = [mkChange ChangeRemoved ScopeService name ("services." +:+ name)
          (VService svc) VNil SeverityBreaking])
  ∧ (∀ vol, ir_Volumes old !! name = Some vol →
            ir_Volumes new !! name = None →
     filter (removed_entity ScopeVolume name) (Changes (Compare old new))
     = [mkChange ChangeRemoved ScopeVolume name ("volumes." +:+ name)
          (VVolume vol) VNil SeverityBreaking])
  ∧ (∀ net, ir_Networks old !! name = Some net →
            ir_Networks new !! name = None →
     filter (removed_entity ScopeNetwork name) (Changes (Compare old new))
     = [mkChange ChangeRemoved ScopeNetwork name ("networks." +:+ name)
          (VNetwork net) VNil SeverityWarning]).
Proof.
  rewrite Compare_Changes, !filter_app. split_and!.
  - intros svc Hold Hnew.
    rewrite (removed_services _ _ _ _ Hold Hnew).
    rewrite (filter_none _ (volume_changes _ _)),
      (filter_none _ (network_changes _ _)); [done| |].
    + intros c Hc%scope_network_changes (_ & ? & _). congruence.
    + intros c Hc%scope_volume_changes (_ & ? & _). congruence.
  - intros vol Hold Hnew.
    rewrite (removed_volumes _ _ _ _ Hold Hnew).
    rewrite (filter_none _ (service_changes _ _)),
      (filter_none _ (network_changes _ _)); [done| |].
    + intros c Hc%scope_network_changes (_ & ? & _). congruence.
    + intros c Hc%scope_service_changes (_ & ? & _). congruence.
  - intros net Hold Hnew.
    rewrite (removed_networks _ _ _ _ Hold Hnew).
    rewrite (filter_none _ (service_changes _ _)),
      (filter_none _ (volume_changes _ _)); [done| |].
    + intros c Hc%scope_volume_changes (_ & ? & _). congruence.
    + intros c Hc%scope_service_changes (_ & ? & _). congruence.
Qed.

(** ** Services present in both trees *)

Lemma compareService_in_Compare (oldT newT : ComposeIR) (name : string)
    (old new : ServiceIR) (c : Change) :
  ir_Services oldT !! name = Some old →
  ir_Services newT !! name = Some new →
  c ∈ compareService name old new → c ∈ Changes (Compare oldT newT).
Proof.
  intros Hold Hnew Hc. rewrite Compare_Changes. unfold service_changes.
  rewrite !elem_of_app. left. right. right.
  unfold field_changes. rewrite list_elem_of_bind. exists name. split.
  - unfold changes_of.
    by rewrite (lookup_total_correct _ _ _ Hold),
      (lookup_total_correct _ _ _ Hnew).
  - apply elem_of_names_common. rewrite !elem_of_mapKeys, Hold, Hnew.
    by split.
Qed.

Lemma names_added_refl (l : list string) : names_added l l = [].
Proof.
  destruct (names_added l l) as [|x l'] eqn:E; [done|].
  assert (x ∈ names_added l l) as Hx by (rewrite E; left).
  apply elem_of_names_added in Hx as [??]. done.
Qed.

Lemma names_removed_refl (l : list string) : names_removed l l = [].
Proof.
  destruct (names_removed l l) as [|x l'] eqn:E; [done|].
  assert (x ∈ names_removed l l) as Hx by (rewrite E; left).
  apply elem_of_names_removed in Hx as [??]. done.
Qed.

(** The no-op law for one service. *)
Lemma compareService_refl (name : string) (svc : ServiceIR) :
  compareService name svc svc = [].
Proof.
  rewrite compareService_eq, compareEnv_eq, comparePorts_eq,
    compareServiceVolumes_eq, !compareStringSlice_eq.
  rewrite !names_added_refl, !names_removed_refl.
  unfold image_change, healthcheck_change, command_change,
    entrypoint_change, restart_change.
  rewrite (proj2 (ptrEqual_eq _ _) eq_refl),
    (proj2 (ptrEqual_eq _ _) eq_refl),
    (proj2 (healthcheckEqual_eq _ _) eq_refl),
    (proj2 (sliceEqual_eq _ _) eq_refl),
    (proj2 (sliceEqual_eq _ _) eq_refl).
  rewrite !filter_none; [done|..]; intros key _ Hne%bool_decide_unpack; done.
Qed.

Lemma env_added_in (name : string) (old new : ServiceIR) (key : string)
    (v : option string) :
  Env old !! key = None → Env new !! key = Some v →
  mkChange ChangeAdded ScopeService name
    (("services." +:+ name) +:+ ".environment." +:+ key)
    VNil (ptrValue v) SeverityInfo ∈ compareService name old new.
Proof.
  intros Ho Hn. rewrite compareService_eq, compareEnv_eq, !elem_of_app.
  right. left. left. apply list_elem_of_fmap. exists key. split.
  - unfold env_added. by rewrite (lookup_total_correct _ _ _ Hn).
  - apply elem_of_names_added. rewrite !elem_of_envKeys, Ho, Hn.
    split; [done|]. by intros [??].
Qed.

Lemma env_removed_in (name : string) (old new : ServiceIR) (key : string)
    (v : option string) :
  Env old !! key = Some v → Env new !! key = None →
  mkChange ChangeRemoved ScopeService name
    (("services." +:+ name) +:+ ".environment." +:+ key)
    (ptrValue v) VNil SeverityBreaking ∈ compareService name old new.
Proof.
  intros Ho Hn. rewrite compareService_eq, compareEnv_eq, !elem_of_app.
  right. left. right. left. apply list_elem_of_fmap. exists key. split.
  - unfold env_removed. by rewrite (lookup_total_correct _ _ _ Ho).
  - apply elem_of_names_removed. rewrite !elem_of_envKeys, Ho, Hn.
    split; [done|]. by intros [??].
Qed.

Lemma env_modified_in (name : string) (old new : ServiceIR) (key : string)
    (v w : option string) :
  Env old !! key = Some v → Env new !! key = Some w → v ≠ w →
  mkChange ChangeModified ScopeService name
    (("services." +:+ name) +:+ ".environment." +:+ key)
    (ptrValue v) (ptrValue w) SeverityWarning ∈ compareService name old new.
Proof.
  intros Ho Hn Hvw. rewrite compareService_eq, compareEnv_eq, !elem_of_app.
  right. left. right. right. apply list_elem_of_fmap. exists key. split.
  - unfold env_modified.
    by rewrite (lookup_total_correct _ _ _ Ho),
      (lookup_total_correct _ _ _ Hn).
  - apply list_elem_of_filter. split.
    + apply bool_decide_pack.
      rewrite (lookup_total_correct _ _ _ Ho),
        (lookup_total_correct _ _ _ Hn).
      by intros ?%ptrValue_inj.
    + apply elem_of_names_common. rewrite !elem_of_envKeys, Ho, Hn.
      by split.
Qed.

(** C3, as the code has it. For two services present in both trees under one
    name, the environment map is reconciled by key: a key only in the new map
    yields an added change, a key only in the old map a removed change, a key
    in both with different values a modified change. The labels map is not
    compared: services that differ in their labels only yield no change at
    all. *)
Theorem environment_reconciled_labels_ignored (oldT newT : ComposeIR)
    (name : string) (old new : ServiceIR) :
  ir_Services oldT !! name = Some old →
  ir_Services newT !! name = Some new →
  (∀ key v, Env old !! key = None → Env new !! key = Some v →
     mkChange ChangeAdded ScopeService name
       (("services." +:+ name) +:+ ".environment." +:+ key)
       VNil (ptrValue v) SeverityInfo ∈ Changes (Compare oldT newT))
  ∧ (∀ key v, Env old !! key = Some v → Env new !! key = None →
     mkChange ChangeRemoved ScopeService name
       (("services." +:+ name) +:+ ".environment." +:+ key)
       (ptrValue v) VNil SeverityBreaking ∈ Changes (Compare oldT newT))
  ∧ (∀ key v w, Env old !! key = Some v → Env new !! key = Some w → v ≠ w →
     mkChange ChangeModified ScopeService name
       (("services." +:+ name) +:+ ".environment." +:+ key)
       (ptrValue v) (ptrValue w) SeverityWarning
     ∈ Changes (Compare oldT newT))
  ∧ (∀ labels, new = with_Labels labels old →
       compareService name old new = []).
Proof.
  intros Hold Hnew. split_and!.
  - intros key v Ho Hn.
    by apply (compareService_in_Compare _ _ _ _ _ _ Hold Hnew), env_added_in.
  - intros key v Ho Hn.
    by apply (compareService_in_Compare _ _ _ _ _ _ Hold Hnew),
      env_removed_in.
  - intros key v w Ho Hn Hvw.
    by apply (compareService_in_Compare _ _ _ _ _ _ Hold Hnew),
      env_modified_in.
  - intros labels ->. apply (compareService_refl name old).
Qed.

(** C4, as the code has it. For a service present in both trees, an item that
    the old networks list has and the new one lacks yields a removed change of
    severity info, and such an item of the depends_on list a removed change of
    severity warning. *)
Theorem removed_list_items (oldT newT : ComposeIR) (name : string)
    (old new : ServiceIR) (item : string) :
  ir_Services oldT !! name = Some old →
  ir_Services newT !! name = Some new →
  (item ∈ Networks old → item ∉ Networks new →
     mkChange ChangeRemoved ScopeService name
       ((("services." +:+ name) +:+ ".networks") +:+ "." +:+ item)
       (VString item) VNil SeverityInfo ∈ Changes (Compare oldT newT))
  ∧ (item ∈ DependsOn old → item ∉ DependsOn new →
     mkChange ChangeRemoved ScopeService name
       ((("services." +:+ name) +:+ ".depends_on") +:+ "." +:+ item)
       (VString item) VNil SeverityWarning ∈ Changes (Compare oldT newT)).
Proof.
  intros Hold Hnew. split.
  - intros Ho Hn.
    apply (compareService_in_Compare _ _ _ _ _ _ Hold Hnew).
    rewrite compareService_eq, !compareStringSlice_eq, !elem_of_app.
    do 4 right. left. right. apply list_elem_of_fmap. exists item.
    split; [done|]. by apply elem_of_names_removed.
  - intros Ho Hn.
    apply (compareService_in_Compare _ _ _ _ _ _ Hold Hnew).
    rewrite compareService_eq, !compareStringSlice_eq, !elem_of_app.
    do 5 right. left. right. apply list_elem_of_fmap. exists item.
    split; [done|]. by apply elem_of_names_removed.
Qed.

(** ** The kind of a change and its two values *)

Lemma Compare_kind_invariant (old new : ComposeIR) :
  Forall kind_invariant (Changes (Compare old new)).
Proof.
  rewrite Compare_Changes.
  unfold service_changes, volume_changes, network_changes, field_changes.
  repeat apply Forall_app_2;
    try (apply Forall_fmap, Forall_forall; by intros name _).
  apply Forall_forall. intros c (name & _ & Hc)%elem_of_field_changes.
  pose proof (compareService_kind name (ir_Services old !!! name)
                (ir_Services new !!! name)) as HF.
  rewrite Forall_forall in HF. by apply HF.
Qed.

(** C6, as the code has it. Every change that the differ produces has an
    absent before-value when it is added, an absent after-value when it is
    removed, and two unequal values when it is modified (either of which may
    be absent). In particular an environment variable that goes from declared
    with a value to declared unset, in a service present in both trees, is
    emitted as a modified change whose after-value is absent. *)
Theorem changes_keep_kind_invariant (old new : ComposeIR) :
  Forall (λ c,
    match Kind c with
    | ChangeAdded => absent (Before c)
    | ChangeRemoved => absent (After c)
    | ChangeModified => Before c ≠ After c
    end) (Changes (Compare old new))
  ∧ (∀ name o n key v,
       ir_Services old !! name = Some o →
       ir_Services new !! name = Some n →
       Env o !! key = Some (Some v) → Env n !! key = Some None →
       mkChange ChangeModified ScopeService name
         (("services." +:+ name) +:+ ".environment." +:+ key)
         (VString v) VNil SeverityWarning ∈ Changes (Compare old new)).
Proof.
  split.
  - apply Compare_kind_invariant.
  - intros name o n key v Hold Hnew Ho Hn.
    apply (compareService_in_Compare _ _ _ _ _ _ Hold Hnew).
    by apply (env_modified_in name o n key (Some v) None).
Qed.

(* ===================================================================== *)
(** * The severity of an image change *)
(* ===================================================================== *)

Lemma decimal_from_leading_digits (acc : Z) (s : string) :
  is_Some (decimal_from acc (leading_digits s)).
Proof.
  revert acc. induction s as [|c s IH]; intros acc; simpl; [done|].
  destruct (is_digit c) eqn:E; simpl; [|done]. rewrite E. apply IH.
Qed.

Lemma is_digit_not_sign (c : ascii) :
  is_digit c = true → Ascii.eqb c "-" = false ∧ Ascii.eqb c "+" = false.
Proof.
  intros Hc. split.
  - destruct (Ascii.eqb_spec c "-") as [->|]; [done|done].
  - destruct (Ascii.eqb_spec c "+") as [->|]; [done|done].
Qed.

(** On the digits of a major version [strconv.Atoi] gives their number,
    or the largest [int] when the number does not fit. *)
Lemma Atoi_leading_digits (s : string) :
  leading_digits s ≠ "" →
  (strconv_Atoi (leading_digits s)).1
  = Z.min (decimal_value (leading_digits s)) maxInt.
Proof.
  intros Hne. unfold decimal_value.
  destruct (decimal_from_leading_digits 0 s) as [n Hn].
  destruct s as [|c s]; simpl in *; [done|].
  destruct (is_digit c) eqn:Hc; [|done].
  unfold strconv_Atoi.
  destruct (is_digit_not_sign c Hc) as [-> ->].
  rewrite Hn. simpl.
  destruct (Z.ltb_spec maxInt n); simpl; lia.
Qed.

Lemma extractMajorVersion_digits (tag : string) :
  extractMajorVersion tag = ""
  ∨ ∃ s, extractMajorVersion tag = leading_digits s.
Proof.
  unfold extractMajorVersion. case_match; [by left|right; eauto].
Qed.

Lemma Atoi_major (tag : string) :
  extractMajorVersion tag ≠ "" →
  (strconv_Atoi (extractMajorVersion tag)).1
  = Z.min (decimal_value (extractMajorVersion tag)) maxInt.
Proof.
  intros Hne.
  destruct (extractMajorVersion_digits tag) as [?|[s Hs]]; [done|].
  rewrite Hs in *. by apply Atoi_leading_digits.
Qed.

Lemma extractTag_digest (image : string) :
  strings_Contains image "@" = true → extractTag image = "".
Proof. unfold extractTag. by intros ->. Qed.

Lemma imageSeverity_warning (o n : string) :
  extractMajorVersion (extractTag o) ≠ "" →
  extractMajorVersion (extractTag n) ≠ "" →
  extractMajorVersion (extractTag o) ≠ extractMajorVersion (extractTag n) →
  imageSeverity (Some o) (Some n) = SeverityWarning.
Proof.
  intros Ho Hn Hon. unfold imageSeverity.
  destruct (String.eqb_spec (extractTag o) (extractTag n)) as [Heq|_].
  { by rewrite Heq in Hon. }
  by rewrite (proj2 (String.eqb_neq _ _) Ho), (proj2 (String.eqb_neq _ _) Hn),
    (proj2 (String.eqb_neq _ _) Hon).
Qed.

Lemma imageSeverity_digest (o n : string) :
  strings_Contains o "@" = true ∨ strings_Contains n "@" = true →
  imageSeverity (Some o) (Some n) = SeverityInfo.
Proof.
  intros H. unfold imageSeverity.
  destruct (String.eqb (extractTag o) (extractTag n)); [done|].
  destruct H as [H|H]; rewrite (extractTag_digest _ H).
  - done.
  - change (extractMajorVersion "") with "".
    by rewrite String.eqb_refl, andb_false_r.
Qed.

(** C8, as the code has it. For the modified change that the differ emits for
    an image reference: when both tags yield a major version and the majors
    differ, its default severity is warning; when moreover the new major is
    numerically lower than the old one and lower than 2^63 - 1 (where
    [strconv.Atoi] saturates), [IsBreakingChange] holds of it while its
    severity stays warning; when a side is a digest reference, that side
    yields no tag and the severity is info. *)
Theorem image_change_severity (name o n : string) :
  let oldMajor := extractMajorVersion (extractTag o) in
  let newMajor := extractMajorVersion (extractTag n) in
  let c :=
    mkChange ChangeModified ScopeService name
      (("services." +:+ name) +:+ ".image")
      (VString o) (VString n) (imageSeverity (Some o) (Some n)) in
  (∀ old new, Image old = Some o → Image new = Some n → o ≠ n →
     c ∈ compareService name old new)
  ∧ (oldMajor ≠ "" → newMajor ≠ "" → oldMajor ≠ newMajor →
       severity c = SeverityWarning
       ∧ (decimal_value newMajor < decimal_value oldMajor →
          decimal_value newMajor < 2 ^ 63 - 1 →
          IsBreakingChange c = true))
  ∧ (strings_Contains o "@" = true →
       extractTag o = "" ∧ severity c = SeverityInfo)
  ∧ (strings_Contains n "@" = true →
       extractTag n = "" ∧ severity c = SeverityInfo).
Proof.
  intros oldMajor newMajor c. subst oldMajor newMajor c. split_and!.
  - intros old new Ho Hn Hne.
    rewrite compareService_eq, !elem_of_app. left.
    unfold image_change. rewrite Ho, Hn. simpl.
    rewrite (proj2 (String.eqb_neq _ _) Hne). simpl. by left.
  - intros Ho Hn Hon. split; [by apply imageSeverity_warning|].
    intros Hlt Hfit. unfold IsBreakingChange.
    cbn [Kind Path Before After scope].
    rewrite strings_HasSuffix_app.
    rewrite (bool_decide_eq_false_2 (ChangeModified = ChangeRemoved)) by done.
    rewrite (bool_decide_eq_true_2 (ChangeModified = ChangeModified)) by done.
    cbn [andb].
    rewrite (proj2 (String.eqb_neq _ _) Ho), (proj2 (String.eqb_neq _ _) Hn).
    cbn [andb negb fst]. rewrite !Atoi_major by done.
    apply Z.ltb_lt. unfold maxInt. lia.
  - intros H. split; [by apply extractTag_digest|].
    apply imageSeverity_digest. by left.
  - intros H. split; [by apply extractTag_digest|].
    apply imageSeverity_digest. by right.
Qed.

(* ===================================================================== *)
(** * Port bindings *)
(* ===================================================================== *)











(* ===================================================================== *)
(** * Rule loading *)
(* ===================================================================== *)

Section rules_facts.
Context `{RegexpEngine}.

Lemma compileSeverityRules_None (srs : list SeverityRule)
  (acc : list compiledSeverity) :
compileSeverityRules srs acc = None ↔
∃ sr, sr ∈ srs ∧ sr_IsRegex sr = true
      ∧ regexp_Compile (sr_Pattern sr) = None.
Proof.
revert acc. induction srs as [|sr srs IH]; intros acc; simpl.
- split; [done|]. by intros (? & ?%elem_of_nil & _).
- destruct (sr_IsRegex sr) eqn:Hre;
    [destruct (regexp_Compile (sr_Pattern sr)) eqn:Hc|]; rewrite ?IH.
  + split.
    * intros (x & ? & ?). exists x. split; [by right|done].
    * intros (x & [->|?]%elem_of_cons & ? & ?); [congruence|by exists x].
  + split; [|done]. intros _. exists sr. split; [by left|done].
  + split.
    * intros (x & ? & ?). exists x. split; [by right|done].
    * intros (x & [->|?]%elem_of_cons & ? & ?); [congruence|by exists x].
Qed.

Lemma compileIgnoreRules_None (irs : list IgnoreRule)
  (acc : list compiledIgnore) :
compileIgnoreRules irs acc = None ↔
∃ ir, ir ∈ irs ∧ ir_IsRegex ir = true
      ∧ regexp_Compile (ir_Pattern ir) = None.
Proof.
revert acc. induction irs as [|ir irs IH]; intros acc; simpl.
- split; [done|]. by intros (? & ?%elem_of_nil & _).
- destruct (ir_IsRegex ir) eqn:Hre;
    [destruct (regexp_Compile (ir_Pattern ir)) eqn:Hc|]; rewrite ?IH.
  + split.
    * intros (x & ? & ?). exists x. split; [by right|done].
    * intros (x & [->|?]%elem_of_cons & ? & ?); [congruence|by exists x].
  + split; [|done]. intros _. exists ir. split; [by left|done].
  + split.
    * intros (x & ? & ?). exists x. split; [by right|done].
    * intros (x & [->|?]%elem_of_cons & ? & ?); [congruence|by exists x].
Qed.

Lemma compileSeverityRules_severities (srs : list SeverityRule)
  (acc sps : list compiledSeverity) :
compileSeverityRules srs acc = Some sps →
cs_severity <$> sps = (cs_severity <$> acc) ++ (sr_Severity <$> srs).
Proof.
revert acc. induction srs as [|sr srs IH]; intros acc; simpl.
- intros [= ->]. by rewrite app_nil_r.
- destruct (sr_IsRegex sr);
    [destruct (regexp_Compile (sr_Pattern sr)); [|done]|];
    intros ->%IH; rewrite fmap_app, <- app_assoc; done.
Qed.

(** C5, as the code has it. Rule loading returns a rule set or a load error;
    the error arises exactly when some severity-override or ignore rule that
    is marked as a regular expression has a pattern that does not compile.
    Severity names are not checked: a loaded rule set carries the severity
    strings of the configuration as they are. *)
Theorem compileRules_load_error (cfg : RulesConfig) :
(compileRules cfg = None ↔
   (∃ sr, sr ∈ SeverityOverrides cfg ∧ sr_IsRegex sr = true
          ∧ regexp_Compile (sr_Pattern sr) = None)
   ∨ (∃ ir, ir ∈ IgnorePatterns cfg ∧ ir_IsRegex ir = true
            ∧ regexp_Compile (ir_Pattern ir) = None))
∧ (∀ rules, compileRules cfg = Some rules →
     cs_severity <$> severityPatterns rules
     = sr_Severity <$> SeverityOverrides cfg).
Proof.
unfold compileRules. split.
- destruct (compileSeverityRules (SeverityOverrides cfg) []) as [sps|] eqn:Es.
  + destruct (compileIgnoreRules (IgnorePatterns cfg) []) as [ips|] eqn:Ei.
    * split; [done|].
      intros [Hs%(compileSeverityRules_None _ [])
             |Hi%(compileIgnoreRules_None _ [])]; congruence.
    * split; [|done]. intros _. right.
      by apply (compileIgnoreRules_None _ []).
  + split; [|done]. intros _. left.
    by apply (compileSeverityRules_None _ []).
- intros rules.
  destruct (compileSeverityRules (SeverityOverrides cfg) []) as [sps|] eqn:Es;
    [|done].
  destruct (compileIgnoreRules (IgnorePatterns cfg) []); [|done].
  intros [= <-]. simpl.
  by rewrite (compileSeverityRules_severities _ _ _ Es).
Qed.

End rules_facts.

(* ===================================================================== *)
(** * The summary of a report *)
(* ===================================================================== *)

(** ** Counting in the report of [Compare] *)

Lemma count_if_all {A} (P : Change → bool) (f : A → Change) (l : list A) :
  (∀ x, P (f x) = true) → count_if P (f <$> l) = Z.of_nat (length l).
Proof.
  intros HP. unfold count_if. f_equal.
  induction l as [|x l IH]; [done|].
  rewrite fmap_cons, filter_cons_True by (by rewrite HP). simpl. by rewrite IH.
Qed.

Lemma count_if_none (P : Change → bool) (l : list Change) :
  (∀ c, c ∈ l → P c = false) → count_if P l = 0.
Proof.
  intros HP. unfold count_if. rewrite filter_none; [done|].
  intros c Hc. rewrite (HP c Hc). by intros [].
Qed.

Lemma is_entity_service_changes (k : ChangeKind) (s : Scope) old new :
  count_if (is_entity k s) (service_changes old new)
  = match k, s with
    | ChangeAdded, ScopeService =>
        Z.of_nat (length (names_added (mapKeys old) (mapKeys new)))
    | ChangeRemoved, ScopeService =>
        Z.of_nat (length (names_removed (mapKeys old) (mapKeys new)))
    | _, _ => 0
    end.
Proof.
  unfold service_changes. rewrite !count_if_app.
  rewrite (count_if_none _ (field_changes old new)).
  2:{ intros c (Hs & _ & _ & Hp)%field_changes_common.
      apply bool_decide_eq_false. intros (_ & _ & Hp').
      apply Hp. rewrite Hp'. unfold entity_path. by rewrite Hs. }
  destruct k, s;
    repeat first
      [ rewrite count_if_all by (intros; by apply bool_decide_eq_true)
      | rewrite count_if_none
          by (intros c (x & -> & _)%list_elem_of_fmap;
              apply bool_decide_eq_false; by intros (? & ? & _)) ];
    lia.
Qed.

Lemma is_entity_volume_changes (k : ChangeKind) (s : Scope)
    (old new : gmap string VolumeIR) :
  count_if (is_entity k s) (volume_changes old new)
  = match k, s with
    | ChangeAdded, ScopeVolume =>
        Z.of_nat (length (names_added (mapKeys old) (mapKeys new)))
    | ChangeRemoved, ScopeVolume =>
        Z.of_nat (length (names_removed (mapKeys old) (mapKeys new)))
    | _, _ => 0
    end.
Proof.
  unfold volume_changes. rewrite !count_if_app.
  destruct k, s;
    repeat first
      [ rewrite count_if_all by (intros; by apply bool_decide_eq_true)
      | rewrite count_if_none
          by (intros c (x & -> & _)%list_elem_of_fmap;
              apply bool_decide_eq_false; by intros (? & ? & _)) ];
    lia.
Qed.

Lemma is_entity_network_changes (k : ChangeKind) (s : Scope)
    (old new : gmap string NetworkIR) :
  count_if (is_entity k s) (network_changes old new)
  = match k, s with
    | ChangeAdded, ScopeNetwork =>
        Z.of_nat (length (names_added (mapKeys old) (mapKeys new)))
    | ChangeRemoved, ScopeNetwork =>
        Z.of_nat (length (names_removed (mapKeys old) (mapKeys new)))
    | _, _ => 0
    end.
Proof.
  unfold network_changes. rewrite !count_if_app.
  destruct k, s;
    repeat first
      [ rewrite count_if_all by (intros; by apply bool_decide_eq_true)
      | rewrite count_if_none
          by (intros c (x & -> & _)%list_elem_of_fmap;
              apply bool_decide_eq_false; by intros (? & ? & _)) ];
    lia.
Qed.

Lemma filter_all {A} (P : A → Prop) `{∀ x, Decision (P x)} (l : list A) :
  (∀ x, x ∈ l → P x) → filter P l = l.
Proof.
  induction l as [|x l IH]; intros Hl; [done|].
  rewrite filter_cons_True by (apply Hl; left).
  f_equal. apply IH. intros y Hy. apply Hl. by right.
Qed.

Lemma service_field_Compare (old new : ComposeIR) :
  filter (λ c, is_service_field c) (Changes (Compare old new))
  = field_changes (ir_Services old) (ir_Services new).
Proof.
  rewrite Compare_Changes. unfold service_changes. rewrite !filter_app.
  rewrite (filter_none _ (service_added _ <$> _)),
    (filter_none _ (service_removed _ <$> _)),
    (filter_none _ (volume_changes _ _)),
    (filter_none _ (network_changes _ _)).
  - rewrite app_nil_r. simpl. apply filter_all.
    intros c (Hs & _ & _ & Hp)%field_changes_common.
    apply bool_decide_pack. split; [done|].
    unfold entity_path. by rewrite Hs.
  - intros c Hc%scope_network_changes [Hs _]%bool_decide_unpack. congruence.
  - intros c Hc%scope_volume_changes [Hs _]%bool_decide_unpack. congruence.
  - intros c (x & -> & _)%list_elem_of_fmap [_ Hp]%bool_decide_unpack.
    by apply Hp.
  - intros c (x & -> & _)%list_elem_of_fmap [_ Hp]%bool_decide_unpack.
    by apply Hp.
Qed.

Lemma changed_services_Compare (old new : ComposeIR) :
  Z.of_nat (size (changed_services (Changes (Compare old new))))
  = changed_count (ir_Services old) (ir_Services new)
      (names_common (mapKeys (ir_Services old)) (mapKeys (ir_Services new))).
Proof.
  unfold changed_services, changed_count. rewrite service_field_Compare.
  f_equal.
  set (so := ir_Services old). set (sn := ir_Services new).
  set (l := names_common (mapKeys so) (mapKeys sn)).
  assert (list_to_set (Name <$> field_changes so sn)
          =@{gset string}
          list_to_set (filter (λ name, changes_of so sn name ≠ []) l)) as ->.
  { apply set_eq. intros x.
    rewrite !elem_of_list_to_set, list_elem_of_fmap, list_elem_of_filter.
    split.
    - intros (c & -> & (name & Hname & Hc)%elem_of_field_changes).
      pose proof (compareService_field name (so !!! name) (sn !!! name)) as HF.
      rewrite Forall_forall in HF. destruct (HF c Hc) as (_ & -> & _).
      split; [|done]. unfold changes_of. intros E. rewrite E in Hc.
      by apply elem_of_nil in Hc.
    - intros [Hne Hx]. unfold changes_of in Hne.
      destruct (compareService x (so !!! x) (sn !!! x)) as [|c cs] eqn:E;
        [done|].
      pose proof (compareService_field x (so !!! x) (sn !!! x)) as HF.
      rewrite E, Forall_cons in HF. destruct HF as [(_ & Hn & _) _].
      exists c. split; [done|].
      unfold field_changes. apply list_elem_of_bind. exists x.
      split; [|done]. unfold changes_of. rewrite E. by left. }
  apply size_list_to_set, NoDup_filter, NoDup_names_common.
Qed.

Lemma DiffSummary_eq (s t : DiffSummary) :
  ServicesAdded s = ServicesAdded t →
  ServicesRemoved s = ServicesRemoved t →
  ServicesChanged s = ServicesChanged t →
  VolumesAdded s = VolumesAdded t →
  VolumesRemoved s = VolumesRemoved t →
  NetworksAdded s = NetworksAdded t →
  NetworksRemoved s = NetworksRemoved t →
  TotalChanges s = TotalChanges t →
  BreakingCount s = BreakingCount t →
  WarningCount s = WarningCount t →
  InfoCount s = InfoCount t →
  s = t.
Proof. destruct s, t; simpl; intros; by subst. Qed.

(** Read one field through the updates of a summary. *)
Ltac read_summary :=
  cbn [ServicesAdded ServicesRemoved ServicesChanged VolumesAdded
       VolumesRemoved NetworksAdded NetworksRemoved TotalChanges
       BreakingCount WarningCount InfoCount Summary
       add_counts set_severity_counts set_NetworksRemoved set_NetworksAdded
       set_VolumesRemoved set_VolumesAdded set_ServicesChanged
       set_ServicesRemoved set_ServicesAdded NewDiffReport zero_DiffSummary
       summarize].

Lemma Compare_Summary (old new : ComposeIR) :
  Summary (Compare old new) = summarize (Changes (Compare old new)).
Proof.
  pose proof (changed_services_Compare old new) as Hchanged.
  revert Hchanged. rewrite Compare_Changes. intros Hchanged.
  unfold Compare.
  rewrite compareNetworks_Summary, compareVolumes_Summary,
    compareServices_Summary.
  apply DiffSummary_eq; read_summary;
    rewrite ?count_if_app, ?length_app, ?is_entity_service_changes,
      ?is_entity_volume_changes, ?is_entity_network_changes;
    try lia.
Qed.

(** ** The summary after the rules and after the filters *)

Lemma filter_loop_Summary (keep : Change → bool) (cs : list Change)
    (filtered : DiffReport) :
  Summary (fold_left (λ filtered c,
             if keep c
             then mkDiffReport (Summary filtered) (Changes filtered ++ [c])
             else filtered) cs filtered)
  = Summary filtered.
Proof.
  revert filtered. induction cs as [|c cs IH]; intros filtered; simpl;
    [done|].
  rewrite IH. by destruct (keep c).
Qed.

Lemma FilterByService_Summary (report : DiffReport) (service : string) :
  Summary (FilterByService report service) = Summary report.
Proof.
  unfold FilterByService.
  by rewrite (filter_loop_Summary
    (λ c, bool_decide (scope c = ScopeService) && String.eqb (Name c) service)).
Qed.

Lemma FilterBySeverity_Summary (report : DiffReport) (minSeverity : string) :
  Summary (FilterBySeverity report minSeverity) = Summary report.
Proof.
  unfold FilterBySeverity.
  by rewrite (filter_loop_Summary
    (λ c, SeverityLevel (ParseSeverity minSeverity)
          <=? SeverityLevel (severity c))).
Qed.

Section applyRules_facts.
Context `{RegexpEngine}.

Lemma applyRules_step_recounted (r : Rules) st (c : Change) :
recounted st → recounted (applyRules_step r st c).
Proof.
destruct st as [[[filtered b] w] i]. intros (-> & -> & ->).
unfold applyRules_step.
destruct (ShouldIgnore r (Path c)).1; [done|].
destruct (ShouldIgnoreServiceField r (Name c) _); [done|].
set (c' := match GetSeverityOverride r (Path c) with
           | (sev, true) => with_severity c sev
           | (_, false) => c
           end).
cbv zeta.
destruct (String.eqb (severity c') SeverityBreaking) eqn:Eb;
  [|destruct (String.eqb (severity c') SeverityWarning) eqn:Ew];
  unfold recounted; rewrite !count_if_app, !count_if_singleton;
  unfold is_other, is_breaking, is_warning; rewrite ?Eb, ?Ew.
- apply String.eqb_eq in Eb. rewrite Eb. cbn. split_and!; lia.
- cbn. split_and!; lia.
- cbn. split_and!; lia.
Qed.

Lemma applyRules_fold_recounted (r : Rules) (cs : list Change) st :
recounted st → recounted (fold_left (applyRules_step r) cs st).
Proof.
revert st. induction cs as [|c cs IH]; intros st Hst; simpl; [done|].
by apply IH, applyRules_step_recounted.
Qed.

Lemma applyRules_recounts (report : DiffReport) (r : Rules) :
let out := applyRules report r in
TotalChanges (Summary out) = Z.of_nat (length (Changes out))
∧ BreakingCount (Summary out) = count_if is_breaking (Changes out)
∧ WarningCount (Summary out) = count_if is_warning (Changes out)
∧ InfoCount (Summary out) = count_if is_other (Changes out).
Proof.
unfold applyRules.
pose proof (applyRules_fold_recounted r (Changes report) ([], 0, 0, 0)) as HR.
destruct (fold_left (applyRules_step r) (Changes report) ([], 0, 0, 0))
  as [[[filtered b] w] i].
destruct HR as (Hb & Hw & Hi); [done|]. by simpl.
Qed.

End applyRules_facts.

(** C2, as the code has it. The summary equals the aggregate of the changes
    list for the report that [Compare] builds. [applyRules] recomputes the
    total and the totals per severity from the changes it retains, the info
    total counting every retained change that is neither breaking nor warning.
    [FilterByService] and [FilterBySeverity] return the summary of the report
    they are given, whatever changes they retain. *)
Theorem summary_by_stage :
  (∀ old new : ComposeIR,
     Summary (Compare old new) = summarize (Changes (Compare old new)))
  ∧ (∀ (engine : RegexpEngine) (report : DiffReport) (r : Rules),
       let out := applyRules report r in
       TotalChanges (Summary out) = Z.of_nat (length (Changes out))
       ∧ BreakingCount (Summary out) = count_if is_breaking (Changes out)
       ∧ WarningCount (Summary out) = count_if is_warning (Changes out)
       ∧ InfoCount (Summary out) = count_if is_other (Changes out))
  ∧ (∀ (report : DiffReport) (service : string),
       Summary (FilterByService report service) = Summary report)
  ∧ (∀ (report : DiffReport) (minSeverity : string),
       Summary (FilterBySeverity report minSeverity) = Summary report).
Proof.
  split_and!.
  - apply Compare_Summary.
  - intros engine. apply applyRules_recounts.
  - apply FilterByService_Summary.
  - apply FilterBySeverity_Summary.
Qed.

(* ===================================================================== *)
(** * Glob patterns *)
(* ===================================================================== *)

(** ** Patterns without operators of the regular-expression syntax *)

Lemma glob_byte_cases (c : ascii) :
  glob_byte c = true →
  c = "."%char ∨ c = "*"%char
  ∨ (re2.is_operator c = false ∧ c ≠ "."%char ∧ c ≠ "*"%char).
Proof.
  unfold glob_byte.
  destruct (Ascii.eqb_spec c ".") as [->|?]; [by left|].
  destruct (Ascii.eqb_spec c "*") as [->|?]; [by right; left|].
  simpl. intros ?%negb_true_iff. by right; right.
Qed.

Lemma ReplaceAll_glob_regexp (pattern : string) :
  string_forall glob_byte pattern = true →
  strings_ReplaceAll (strings_ReplaceAll pattern "." "\.") "*" ".*"
  = glob_regexp pattern.
Proof.
  induction pattern as [|c pattern IH]; [done|].
  cbn [string_forall]. intros [Hc Hp]%andb_true_iff.
  cbn [strings_ReplaceAll glob_regexp]. unfold glob_byte_regexp.
  destruct (glob_byte_cases c Hc) as [->|[->|(_ & Hdot & Hstar)]].
  - cbn. rewrite !String_app_cons, String_app_nil_l.
    cbn [strings_ReplaceAll]. cbn. by rewrite IH.
  - cbn. by rewrite IH.
  - rewrite (proj2 (Ascii.eqb_neq _ _) Hdot).
    cbn [strings_ReplaceAll]. rewrite (proj2 (Ascii.eqb_neq _ _) Hstar).
    rewrite String_app_cons, String_app_nil_l. by rewrite IH.
Qed.

(** The first byte of what follows an atom is never a repetition
    operator. *)
Lemma glob_regexp_next (pattern : string) :
  string_forall glob_byte pattern = true →
  ∃ c rest, glob_regexp pattern +:+ "$" = String c rest
            ∧ re2.rep_of c = None.
Proof.
  destruct pattern as [|c pattern]; [by exists "$"%char, ""|].
  cbn [string_forall glob_regexp]. intros [Hc _]%andb_true_iff.
  unfold glob_byte_regexp.
  destruct (glob_byte_cases c Hc) as [->|[->|(Hop & Hdot & Hstar)]].
  - cbn. rewrite !String_app_cons. by eexists _, _.
  - cbn. rewrite !String_app_cons. by eexists _, _.
  - rewrite (proj2 (Ascii.eqb_neq _ _) Hdot), (proj2 (Ascii.eqb_neq _ _) Hstar).
    rewrite !String_app_cons. eexists _, _. split; [done|].
    unfold re2.rep_of. rewrite (proj2 (Ascii.eqb_neq _ _) Hstar).
    destruct (Ascii.eqb_spec c "+") as [->|?]; [done|].
    destruct (Ascii.eqb_spec c "?") as [->|?]; [done|]. done.
Qed.

Lemma String_length_app (a b : string) :
  String.length (a +:+ b) = (String.length a + String.length b)%nat.
Proof.
  induction a as [|c a IH]; [done|].
  rewrite String_app_cons. simpl. by rewrite IH.
Qed.

Lemma parse_glob_regexp (pattern : string) (fuel : nat) :
  string_forall glob_byte pattern = true →
  (String.length (glob_regexp pattern +:+ "$") ≤ fuel)%nat →
  re2.parse_items fuel (glob_regexp pattern +:+ "$")
  = Some (glob_items pattern, true).
Proof.
  revert fuel. induction pattern as [|c pattern IH]; intros fuel Hp Hfuel.
  - destruct fuel; [simpl in Hfuel; lia|done].
  - cbn [string_forall] in Hp. apply andb_true_iff in Hp as [Hc Hp].
    destruct (glob_regexp_next pattern Hp) as (d & rest & Hrest & Hd).
    cbn [glob_regexp glob_items] in *.
    unfold glob_byte_regexp, glob_byte_item in *.
    destruct (glob_byte_cases c Hc) as [->|[->|(Hop & Hdot & Hstar)]].
    + cbn in Hfuel |- *. rewrite !String_app_cons, String_app_nil_l in *.
      destruct fuel as [|fuel]; [simpl in Hfuel; lia|].
      cbn [re2.parse_items]. cbn.
      unfold re2.with_rep. rewrite Hrest, Hd, <- Hrest.
      rewrite IH; [done|done|]. simpl in Hfuel. lia.
    + cbn in Hfuel |- *. rewrite !String_app_cons, String_app_nil_l in *.
      destruct fuel as [|fuel]; [simpl in Hfuel; lia|].
      cbn [re2.parse_items]. cbn.
      unfold re2.with_rep. cbn. rewrite Hrest, Hd, <- Hrest.
      rewrite IH; [done|done|]. simpl in Hfuel. lia.
    + rewrite (proj2 (Ascii.eqb_neq _ _) Hdot),
        (proj2 (Ascii.eqb_neq _ _) Hstar) in *.
      rewrite !String_app_cons, String_app_nil_l in *.
      destruct fuel as [|fuel]; [simpl in Hfuel; lia|].
      cbn [re2.parse_items].
      assert (Ascii.eqb c "$" = false) as ->.
      { destruct (Ascii.eqb_spec c "$") as [->|?]; [done|done]. }
      assert (Ascii.eqb c "\" = false) as ->.
      { destruct (Ascii.eqb_spec c "\") as [->|?]; [done|done]. }
      rewrite (proj2 (Ascii.eqb_neq _ _) Hdot), Hop. cbn [andb].
      unfold re2.with_rep. rewrite Hrest, Hd, <- Hrest.
      rewrite IH; [done|done|]. simpl in Hfuel. lia.
Qed.

Lemma match_glob_items (pattern s : string) :
  string_forall glob_byte pattern = true →
  string_forall not_newline s = true →
  re2.match_items true (glob_items pattern) s = glob pattern s.
Proof.
  revert s. induction pattern as [|c pattern IH]; intros s Hp Hs; [done|].
  cbn [string_forall] in Hp. apply andb_true_iff in Hp as [Hc Hp].
  cbn [glob_items glob re2.match_items]. unfold glob_byte_item.
  destruct (glob_byte_cases c Hc) as [->|[->|(_ & Hdot & Hstar)]].
  - cbn. destruct s as [|d s]; [done|].
    cbn [string_forall] in Hs. apply andb_true_iff in Hs as [_ Hs].
    by rewrite IH.
  - cbn. induction s as [|d s IHs].
    + by rewrite IH.
    + rewrite IH by done.
      cbn [string_forall] in Hs. apply andb_true_iff in Hs as [Hd Hs].
      unfold not_newline in Hd. cbn [re2.atom_matches]. rewrite Hd.
      cbn [andb]. by rewrite IHs.
  - rewrite (proj2 (Ascii.eqb_neq _ _) Hdot), (proj2 (Ascii.eqb_neq _ _) Hstar).
    destruct s as [|d s]; [done|].
    cbn [string_forall] in Hs. apply andb_true_iff in Hs as [_ Hs].
    cbn [re2.atom_matches]. by rewrite IH.
Qed.

(** On a pattern without operators other than [.] and [*], and a path
    without a newline, [matchGlob] is glob matching as specified. *)
Lemma matchGlob_glob (pattern str : string) :
  string_forall glob_byte pattern = true →
  string_forall not_newline str = true →
  matchGlob pattern str = glob pattern str.
Proof.
  intros Hp Hs. unfold matchGlob.
  rewrite (ReplaceAll_glob_regexp _ Hp).
  cbn [regexp_Compile re2_engine]. unfold re2.Compile.
  rewrite String_app_cons, String_app_nil_l. cbn [Ascii.eqb].
  rewrite (parse_glob_regexp _ _ Hp) by lia.
  cbn. by apply match_glob_items.
Qed.

(** C10.  [matchGlob] escapes [.] and expands [*], and hands every other
    byte of the pattern to the regular-expression compiler as it is.  An
    operator of the regular-expression syntax in a pattern is therefore
    not matched literally: [a+] matches [aa] and not [a+]; a pattern ending
    in [?] matches the path without its last byte and not itself; and a
    pattern that does not compile, like a path through a directory [c++],
    is compared with the path only after [^] and [$] were put around it,
    so that it does not match the very path it spells. *)
Theorem matchGlob_operators_not_literal :
  matchGlob "a+" "aa" = true
  ∧ matchGlob "a+" "a+" = false
  ∧ matchGlob "services.api.environment.DEBUG?"
      "services.api.environment.DEBU" = true
  ∧ matchGlob "services.api.environment.DEBUG?"
      "services.api.environment.DEBUG?" = false
  ∧ regexp_Compile "^services\.app\.volumes\./usr/include/c++$" = None
  ∧ matchGlob "services.app.volumes./usr/include/c++"
      "services.app.volumes./usr/include/c++" = false
  ∧ matchGlob "services.app.volumes./usr/include/c++"
      "^services\.app\.volumes\./usr/include/c++$" = true.
Proof. by vm_compute. Qed.

(* ===================================================================== *)
(** * Sorters within the contract of [sort.Slice] *)
(* ===================================================================== *)



(** The insertion sort of the library, which is what [sort.Slice] runs on
    slices of up to 12 elements. *)
#[global] Instance insertion_sorter : SliceSorter :=
  {| sort_Slice := @insertionSort;
     sort_Slice_Permutation := @insertionSort_Permutation;
     sort_Slice_Sorted :=
       λ A less data Hasym _, insertionSort_ascending less Hasym data |}.


(* ===================================================================== *)
(** * The properties at concrete inputs *)
(* ===================================================================== *)

(** ** Entity removal (C1) *)

Lemma removed_entity_changes_witness :
  filter (removed_entity ScopeService "worker")
    (Changes (Compare tree_worker NewComposeIR))
  = [mkChange ChangeRemoved ScopeService "worker" ("services." +:+ "worker")
       (VService (service_of_image "node:18")) VNil SeverityBreaking].
Proof.
  apply (proj1 (removed_entity_changes tree_worker NewComposeIR "worker"));
    vm_compute; reflexivity.
Defined.

(** A network that disappears is reported once, and as a warning. *)
Lemma removed_network_not_breaking :
  ∃ c, filter (removed_entity ScopeNetwork "backend")
         (Changes (Compare tree_backend_network NewComposeIR)) = [c]
       ∧ severity c = SeverityWarning
       ∧ severity c ≠ SeverityBreaking.
Proof.
  eexists. split; [vm_compute; reflexivity|]. split; [reflexivity|done].
Qed.

(** ** The summary (C2) *)

(** With [--severity warning], the added service [cache] is filtered out
    of the changes and still counted in the summary. *)
Lemma filtered_summary_drifts :
  let report :=
    runDiff_report true None "" "warning" NewComposeIR tree_cache in
  Changes report = []
  ∧ TotalChanges (Summary report) = 1
  ∧ ServicesAdded (Summary report) = 1
  ∧ Summary report ≠ summarize (Changes report).
Proof.
  split_and!; [by vm_compute..|].
  intros Heq. vm_compute in Heq. discriminate Heq.
Qed.

(** ** Environment and labels (C3) *)

Lemma environment_reconciled_labels_ignored_witness :
  mkChange ChangeRemoved ScopeService "api"
    (("services." +:+ "api") +:+ ".environment." +:+ "DATABASE_URL")
    (ptrValue (Some "x")) VNil SeverityBreaking
  ∈ Changes (Compare (tree_api_env {[ "DATABASE_URL" := Some "x" ]})
               (tree_api_env ∅)).
Proof.
  apply (proj1 (proj2
    (environment_reconciled_labels_ignored
       (tree_api_env {[ "DATABASE_URL" := Some "x" ]}) (tree_api_env ∅) "api"
       (service_of_env {[ "DATABASE_URL" := Some "x" ]}) (service_of_env ∅)
       ltac:(vm_compute; reflexivity) ltac:(vm_compute; reflexivity))));
    vm_compute; reflexivity.
Defined.

(** Two trees whose service [api] differs in a label: no change. *)
Lemma label_difference_unreported :
  Labels (service_of_labels {[ "tier" := "web" ]})
  ≠ Labels (service_of_labels {[ "tier" := "db" ]})
  ∧ Changes (Compare (tree_api_labels {[ "tier" := "web" ]})
               (tree_api_labels {[ "tier" := "db" ]})) = [].
Proof.
  split; [|by vm_compute].
  intros Heq. apply (f_equal (λ m : gmap string string, m !! "tier")) in Heq.
  vm_compute in Heq. discriminate Heq.
Qed.

(** ** Removed list items (C4) *)

Lemma removed_list_items_witness :
  mkChange ChangeRemoved ScopeService "web"
    ((("services." +:+ "web") +:+ ".depends_on") +:+ "." +:+ "db")
    (VString "db") VNil SeverityWarning
  ∈ Changes (Compare (tree_web_lists [] ["db"]) (tree_web_lists [] [])).
Proof.
  apply (proj2
    (removed_list_items (tree_web_lists [] ["db"]) (tree_web_lists [] [])
       "web" (service_of_lists [] ["db"]) (service_of_lists [] []) "db"
       ltac:(vm_compute; reflexivity) ltac:(vm_compute; reflexivity))).
  - simpl. left.
  - simpl. apply not_elem_of_nil.
Defined.

(** A network dropped from the list of a service: one removed change, of
    severity info, and none of severity warning. *)
Lemma removed_network_item_is_info :
  Changes (Compare (tree_web_lists ["backend"] []) (tree_web_lists [] []))
  = [mkChange ChangeRemoved ScopeService "web" "services.web.networks.backend"
       (VString "backend") VNil SeverityInfo]
  ∧ SeverityInfo ≠ SeverityWarning.
Proof. split; [by vm_compute|done]. Qed.

(** ** Rule loading (C5) *)

Lemma compileRules_load_error_witness :
  cs_severity <$> [mkCompiledSeverity None "*.image" "critical" false]
  = sr_Severity <$> SeverityOverrides config_unknown_severity.
Proof.
  apply (proj2 (compileRules_load_error config_unknown_severity)
           (mkRules config_unknown_severity
              [mkCompiledSeverity None "*.image" "critical" false] [])).
  reflexivity.
Defined.

(** A rule naming the severity [critical] loads without error, and the
    rule set then overrides with that string. *)
Lemma unknown_severity_is_loaded :
  sr_Severity <$> SeverityOverrides config_unknown_severity = ["critical"]
  ∧ ∃ rules, compileRules config_unknown_severity = Some rules
             ∧ GetSeverityOverride rules "services.api.image"
               = ("critical", true).
Proof.
  split; [done|]. eexists. split; [reflexivity|]. by vm_compute.
Qed.

(** ** The kind invariant (C6) *)

Lemma changes_keep_kind_invariant_witness :
  mkChange ChangeModified ScopeService "api"
    (("services." +:+ "api") +:+ ".environment." +:+ "DEBUG")
    (VString "1") VNil SeverityWarning
  ∈ Changes (Compare (tree_api_env {[ "DEBUG" := Some "1" ]})
               (tree_api_env {[ "DEBUG" := None ]})).
Proof.
  apply (proj2
    (changes_keep_kind_invariant (tree_api_env {[ "DEBUG" := Some "1" ]})
       (tree_api_env {[ "DEBUG" := None ]}))
    "api" (service_of_env {[ "DEBUG" := Some "1" ]})
    (service_of_env {[ "DEBUG" := None ]}) "DEBUG" "1");
    vm_compute; reflexivity.
Defined.

(** A variable that loses its value: a modified change without an
    after-value, against the invariant as the data model words it. *)
Lemma unset_variable_breaks_specified_invariant :
  ¬ Forall kind_invariant_as_specified
      (Changes (Compare (tree_api_env {[ "DEBUG" := Some "1" ]})
                  (tree_api_env {[ "DEBUG" := None ]}))).
Proof.
  assert (Changes (Compare (tree_api_env {[ "DEBUG" := Some "1" ]})
                     (tree_api_env {[ "DEBUG" := None ]}))
          = [mkChange ChangeModified ScopeService "api"
               "services.api.environment.DEBUG"
               (VString "1") VNil SeverityWarning]) as ->
    by (by vm_compute).
  intros [(_ & Hafter & _) _]%Forall_cons. by apply Hafter.
Qed.

(** ** Ports (C7) *)


(** ** Normalization (C9) *)



(** ** Image changes (C8) *)

Lemma image_change_severity_witness :
  severity
    (mkChange ChangeModified ScopeService "api"
       (("services." +:+ "api") +:+ ".image")
       (VString "node:18") (VString "node:16")
       (imageSeverity (Some "node:18") (Some "node:16")))
  = SeverityWarning
  ∧ IsBreakingChange
      (mkChange ChangeModified ScopeService "api"
         (("services." +:+ "api") +:+ ".image")
         (VString "node:18") (VString "node:16")
         (imageSeverity (Some "node:18") (Some "node:16")))
    = true.
Proof.
  destruct (proj1 (proj2 (image_change_severity "api" "node:18" "node:16")))
    as [Hsev Hbreaking]; [by vm_compute..|].
  split; [exact Hsev|]. apply Hbreaking; by vm_compute.
Defined.

(** A downgrade between majors that do not fit an [int]: both saturate to
    the same number and the predicate does not see the downgrade. *)
Lemma saturated_downgrade_not_flagged :
  let o := "app:9223372036854775808" in
  let n := "app:9223372036854775807" in
  extractMajorVersion (extractTag o) = "9223372036854775808"
  ∧ extractMajorVersion (extractTag n) = "9223372036854775807"
  ∧ decimal_value (extractMajorVersion (extractTag n))
    < decimal_value (extractMajorVersion (extractTag o))
  ∧ imageSeverity (Some o) (Some n) = SeverityWarning
  ∧ IsBreakingChange
      (mkChange ChangeModified ScopeService "api" "services.api.image"
         (VString o) (VString n) (imageSeverity (Some o) (Some n)))
    = false.
Proof. by vm_compute. Qed.

(* ===================================================================== *)
(** * Further properties of the differ, the filters and the rules *)
(* ===================================================================== *)

(** ** A tree against itself *)

Lemma bind_nil {A B} (f : A → list B) (l : list A) :
  (∀ x, x ∈ l → f x = []) → l ≫= f = [].
Proof.
  induction l as [|x l IH]; intros Hf; [done|].
  cbn [mbind list_bind]. rewrite (Hf x) by left.
  apply IH. intros y Hy. apply Hf. by right.
Qed.

Lemma Compare_same_Changes (t : ComposeIR) : Changes (Compare t t) = [].
Proof.
  rewrite Compare_Changes.
  unfold service_changes, volume_changes, network_changes, field_changes.
  rewrite !names_added_refl, !names_removed_refl.
  rewrite bind_nil; [done|].
  intros name _. apply compareService_refl.
Qed.

(** X1.  The no-op law: comparing a tree with itself gives the empty
    report, with no change and every count of the summary at zero. *)
Theorem Compare_same (t : ComposeIR) : Compare t t = NewDiffReport.
Proof.
  pose proof (Compare_Summary t t) as Hs.
  pose proof (Compare_same_Changes t) as Hc.
  rewrite Hc in Hs. destruct (Compare t t) as [summary changes].
  simpl in *. subst. unfold NewDiffReport. f_equal.
Qed.

(** ** Severities and totals *)

Lemma compareService_severity (name : string) (old new : ServiceIR) :
  Forall (λ c, known_severity (severity c)) (compareService name old new).
Proof.
  rewrite compareService_eq.
  rewrite compareEnv_eq, comparePorts_eq, compareServiceVolumes_eq,
    !compareStringSlice_eq.
  unfold image_change, healthcheck_change, command_change,
    entrypoint_change, restart_change.
  assert (∀ a b, known_severity (imageSeverity a b)) as Himg.
  { intros [o|] [n|]; unfold imageSeverity, known_severity;
      repeat case_match; auto. }
  repeat apply Forall_app_2;
    repeat match goal with
           | |- Forall _ (if ?b then _ else _) => destruct b
           | |- Forall _ [] => apply Forall_nil_2
           | |- Forall _ [_] => apply Forall_singleton
           | |- Forall _ (_ <$> _) =>
               apply Forall_fmap, Forall_forall; intros key _
           end;
    simpl; try apply Himg; unfold known_severity; repeat case_match; auto.
Qed.

Lemma Compare_severity (old new : ComposeIR) :
  Forall (λ c, known_severity (severity c)) (Changes (Compare old new)).
Proof.
  rewrite Compare_Changes.
  unfold service_changes, volume_changes, network_changes, field_changes.
  repeat apply Forall_app_2;
    try (apply Forall_fmap, Forall_forall; intros name _;
         unfold known_severity; simpl; by auto).
  apply Forall_forall. intros c (name & _ & Hc)%elem_of_field_changes.
  pose proof (compareService_severity name (ir_Services old !!! name)
                (ir_Services new !!! name)) as HF.
  rewrite Forall_forall in HF. by apply HF.
Qed.

Lemma count_other_split (cs : list Change) :
  Z.of_nat (length cs)
  = count_if is_breaking cs + count_if is_warning cs + count_if is_other cs.
Proof.
  induction cs as [|c cs IH]; [done|].
  change (c :: cs) with ([c] ++ cs).
  rewrite !count_if_app, !count_if_singleton, length_app.
  unfold is_other, is_breaking, is_warning in *.
  destruct (String.eqb_spec (severity c) SeverityBreaking) as [E|?].
  - rewrite E. cbn. lia.
  - destruct (String.eqb (severity c) SeverityWarning); cbn; lia.
Qed.

Lemma count_other_known (cs : list Change) :
  Forall (λ c, known_severity (severity c)) cs →
  count_if is_other cs = count_if is_info cs.
Proof.
  induction cs as [|c cs IH]; intros Hcs; [done|].
  apply Forall_cons in Hcs as [Hc Hcs].
  change (c :: cs) with ([c] ++ cs).
  rewrite !count_if_app, !count_if_singleton, IH by done.
  unfold is_other, is_breaking, is_warning, is_info.
  destruct Hc as [-> | [-> | ->]]; reflexivity.
Qed.

(** X2.  In the report of [Compare], and in every report that
    [applyRules] returns, the total is the sum of the three totals per
    severity. *)
Theorem total_is_sum_of_severities :
  (∀ old new : ComposeIR,
     let s := Summary (Compare old new) in
     TotalChanges s = BreakingCount s + WarningCount s + InfoCount s)
  ∧ (∀ (engine : RegexpEngine) (report : DiffReport) (r : Rules),
       let s := Summary (applyRules report r) in
       TotalChanges s = BreakingCount s + WarningCount s + InfoCount s).
Proof.
  split.
  - intros old new. cbv zeta. rewrite Compare_Summary. cbn [summarize
      TotalChanges BreakingCount WarningCount InfoCount].
    rewrite (count_other_split (Changes (Compare old new))).
    by rewrite (count_other_known _ (Compare_severity old new)).
  - intros engine report r. cbv zeta.
    destruct (applyRules_recounts report r) as (-> & -> & -> & ->).
    apply count_other_split.
Qed.

(** ** The changes that the rules retain *)

Section applyRules_changes.
Context `{RegexpEngine}.

Lemma applyRules_fold_Changes (r : Rules) (cs : list Change)
    (st : list Change * Z * Z * Z) :
  (fold_left (applyRules_step r) cs st).1.1.1
  = st.1.1.1 ++ (rescored r <$> filter (λ c, kept r c) cs).
Proof.
  revert st. induction cs as [|c cs IH]; intros st.
  - simpl. by rewrite app_nil_r.
  - cbn [fold_left]. rewrite IH. destruct st as [[[filtered b] w] i].
    unfold applyRules_step, kept at 2.
    destruct (ShouldIgnore r (Path c)).1 eqn:E1.
    { rewrite filter_cons_False; [done|]. unfold kept. rewrite E1. by intros []. }
    destruct (ShouldIgnoreServiceField r (Name c) _) eqn:E2.
    { rewrite filter_cons_False; [done|]. unfold kept. rewrite E1, E2.
      by intros []. }
    rewrite filter_cons_True by (unfold kept; by rewrite E1, E2).
    fold (rescored r c). cbv zeta. rewrite fmap_cons.
    repeat case_match; simpl; by rewrite <- app_assoc.
Qed.

Lemma applyRules_Changes (report : DiffReport) (r : Rules) :
  Changes (applyRules report r)
  = rescored r <$> filter (λ c, kept r c) (Changes report).
Proof.
  unfold applyRules.
  pose proof (applyRules_fold_Changes r (Changes report) ([], 0, 0, 0)) as HC.
  destruct (fold_left (applyRules_step r) (Changes report) ([], 0, 0, 0))
    as [[[filtered b] w] i].
  by simpl in *.
Qed.

Lemma rescored_unscored (r : Rules) (c : Change) :
  unscored (rescored r c) = unscored c.
Proof.
  unfold rescored. destruct (GetSeverityOverride r (Path c)) as [sev []]; done.
Qed.

(** X3.  [applyRules] invents and reorders nothing: without their
    severities, the changes it returns are a sublist of the changes it is
    given.  None of them is at an ignored path, none is in an ignored field
    of its service, and the severity of each is that of the first override
    matching its path or else the one it came with. *)
Theorem applyRules_retained (report : DiffReport) (r : Rules) :
  sublist (unscored <$> Changes (applyRules report r))
          (unscored <$> Changes report)
  ∧ ∀ c', c' ∈ Changes (applyRules report r) →
      (ShouldIgnore r (Path c')).1 = false
      ∧ ShouldIgnoreServiceField r (Name c')
          (extractFieldFromPath (Path c')) = false
      ∧ ∃ c, c ∈ Changes report ∧ unscored c' = unscored c
             ∧ severity c' = match GetSeverityOverride r (Path c) with
                             | (sev, true) => sev
                             | (_, false) => severity c
                             end.
Proof.
  rewrite applyRules_Changes. split.
  - rewrite <- list_fmap_compose.
    rewrite (list_fmap_ext (unscored ∘ rescored r) unscored
               (filter (λ c, kept r c) (Changes report)))
      by (intros; apply rescored_unscored).
    apply fmap_sublist, sublist_filter.
  - intros c' (c & -> & [Hk Hc]%list_elem_of_filter)%list_elem_of_fmap.
    pose proof (rescored_unscored r c) as Hu.
    assert (Path (rescored r c) = Path c ∧ Name (rescored r c) = Name c)
      as [-> ->] by (unfold unscored in Hu; by simplify_eq).
    unfold kept in Hk.
    apply andb_prop_elim in Hk as [Hk1%negb_prop_elim Hk2%negb_prop_elim].
    split_and!.
    + by destruct (ShouldIgnore r (Path c)).1.
    + by destruct (ShouldIgnoreServiceField r (Name c) _).
    + exists c. split_and!; [done|done|].
      unfold rescored.
      by destruct (GetSeverityOverride r (Path c)) as [sev []].
Qed.

Lemma applyRules_scope_counts (report : DiffReport) (r : Rules) :
  let s := Summary (applyRules report r) in
  ServicesAdded s = ServicesAdded (Summary report)
  ∧ ServicesRemoved s = ServicesRemoved (Summary report)
  ∧ ServicesChanged s = ServicesChanged (Summary report)
  ∧ VolumesAdded s = VolumesAdded (Summary report)
  ∧ VolumesRemoved s = VolumesRemoved (Summary report)
  ∧ NetworksAdded s = NetworksAdded (Summary report)
  ∧ NetworksRemoved s = NetworksRemoved (Summary report).
Proof.
  unfold applyRules.
  by destruct (fold_left _ _ _) as [[[filtered b] w] i].
Qed.

Lemma kept_no_rules (c : Change) : kept no_rules c = true.
Proof. done. Qed.

Lemma rescored_no_rules (c : Change) : rescored no_rules c = c.
Proof. done. Qed.

(** X4.  Without a rules file the rule engine changes nothing: applied
    with the empty rule set to the report of [Compare], [applyRules]
    returns that report, summary included. *)
Theorem applyRules_no_rules (old new : ComposeIR) :
  applyRules (Compare old new) no_rules = Compare old new.
Proof.
  pose proof (applyRules_Changes (Compare old new) no_rules) as HC.
  rewrite filter_all in HC by (intros; by rewrite kept_no_rules).
  rewrite (list_fmap_ext (rescored no_rules) id) in HC
    by (intros; apply rescored_no_rules).
  rewrite list_fmap_id in HC.
  pose proof (applyRules_recounts (Compare old new) no_rules) as HS.
  cbv zeta in HS. rewrite HC in HS. destruct HS as (Ht & Hb & Hw & Hi).
  rewrite (count_other_known _ (Compare_severity old new)) in Hi.
  pose proof (applyRules_scope_counts (Compare old new) no_rules) as HP.
  cbv zeta in HP. destruct HP as (H1 & H2 & H3 & H4 & H5 & H6 & H7).
  pose proof (Compare_Summary old new) as HCS.
  assert (Summary (applyRules (Compare old new) no_rules)
          = Summary (Compare old new)) as HSum.
  { apply DiffSummary_eq; try done; rewrite HCS at 1;
      cbn [summarize TotalChanges BreakingCount WarningCount InfoCount];
      done. }
  destruct (applyRules (Compare old new) no_rules) as [s1 c1].
  destruct (Compare old new) as [s2 c2]. simpl in *. by subst.
Qed.

End applyRules_changes.

(** ** The report filters *)

Lemma filter_loop_Changes (keep : Change → bool) (cs : list Change)
    (filtered : DiffReport) :
  Changes (fold_left (λ filtered c,
             if keep c
             then mkDiffReport (Summary filtered) (Changes filtered ++ [c])
             else filtered) cs filtered)
  = Changes filtered ++ filter (λ c, keep c) cs.
Proof.
  revert filtered. induction cs as [|c cs IH]; intros filtered; simpl.
  - by rewrite app_nil_r.
  - rewrite IH. destruct (keep c) eqn:E.
    + rewrite filter_cons_True by (by rewrite E). simpl.
      by rewrite <- app_assoc.
    + rewrite filter_cons_False; [done|]. rewrite E. by intros [].
Qed.

Lemma FilterByService_Changes (report : DiffReport) (service : string) :
  Changes (FilterByService report service)
  = filter (λ c, scope c = ScopeService ∧ Name c = service) (Changes report).
Proof.
  unfold FilterByService.
  rewrite (filter_loop_Changes
    (λ c, bool_decide (scope c = ScopeService) && String.eqb (Name c) service)).
  simpl. apply list_filter_iff. intros c.
  rewrite andb_True, bool_decide_spec.
  by rewrite Is_true_true, String.eqb_eq.
Qed.

Lemma FilterBySeverity_Changes (report : DiffReport) (minSeverity : string) :
  Changes (FilterBySeverity report minSeverity)
  = filter (λ c, SeverityLevel (ParseSeverity minSeverity)
                 ≤ SeverityLevel (severity c)) (Changes report).
Proof.
  unfold FilterBySeverity.
  rewrite (filter_loop_Changes
    (λ c, SeverityLevel (ParseSeverity minSeverity)
          <=? SeverityLevel (severity c))).
  simpl. apply list_filter_iff. intros c.
  by rewrite Is_true_true, Z.leb_le.
Qed.

Lemma SeverityLevel_unknown (sev : Severity) :
  SeverityLevel sev = 0 ↔ ¬ known_severity sev.
Proof.
  unfold SeverityLevel, known_severity.
  destruct (String.eqb_spec sev SeverityBreaking) as [->|?];
    [split; [done|intros []; auto]|].
  destruct (String.eqb_spec sev SeverityWarning) as [->|?];
    [split; [done|intros []; auto]|].
  destruct (String.eqb_spec sev SeverityInfo) as [->|?];
    [split; [done|intros []; auto]|].
  split; [|done]. intros _ [?|[?|?]]; done.
Qed.

Lemma SeverityLevel_ParseSeverity (s : string) :
  1 ≤ SeverityLevel (ParseSeverity s).
Proof. unfold ParseSeverity. repeat case_match; done. Qed.

(** X5.  [FilterBySeverity] keeps, in their order, exactly the changes
    whose severity level reaches that of the minimum, a minimum that names
    no severity counting as info.  A change whose severity is none of info,
    warning and breaking has level 0 and is dropped whatever the
    minimum. *)
Theorem FilterBySeverity_retained (report : DiffReport)
    (minSeverity : string) :
  Changes (FilterBySeverity report minSeverity)
  = filter (λ c, SeverityLevel (ParseSeverity minSeverity)
                 ≤ SeverityLevel (severity c)) (Changes report)
  ∧ (minSeverity ≠ "breaking" → minSeverity ≠ "warning" →
     FilterBySeverity report minSeverity = FilterBySeverity report "info")
  ∧ (∀ c, ¬ known_severity (severity c) →
          c ∉ Changes (FilterBySeverity report minSeverity)).
Proof.
  split_and!.
  - apply FilterBySeverity_Changes.
  - intros Hb Hw. unfold FilterBySeverity, ParseSeverity.
    by rewrite (proj2 (String.eqb_neq _ _) Hb),
      (proj2 (String.eqb_neq _ _) Hw).
  - intros c Hc. rewrite FilterBySeverity_Changes, list_elem_of_filter.
    intros [Hle _]. apply SeverityLevel_unknown in Hc.
    pose proof (SeverityLevel_ParseSeverity minSeverity). lia.
Qed.

Lemma DiffReport_eq (r1 r2 : DiffReport) :
  Summary r1 = Summary r2 → Changes r1 = Changes r2 → r1 = r2.
Proof. destruct r1, r2; simpl; by intros -> ->. Qed.

(** X6.  The two filters commute, and each is idempotent: filtering by
    service and then by severity gives the same report as the other way
    round. *)
Theorem filters_commute (report : DiffReport) (service minSeverity : string) :
  FilterBySeverity (FilterByService report service) minSeverity
  = FilterByService (FilterBySeverity report minSeverity) service
  ∧ FilterByService (FilterByService report service) service
    = FilterByService report service
  ∧ FilterBySeverity (FilterBySeverity report minSeverity) minSeverity
    = FilterBySeverity report minSeverity.
Proof.
  split_and!; apply DiffReport_eq;
    repeat first
      [ rewrite FilterBySeverity_Summary | rewrite FilterByService_Summary
      | rewrite FilterBySeverity_Changes | rewrite FilterByService_Changes ];
    try done.
  - rewrite !list_filter_filter. apply list_filter_iff. intros c. tauto.
  - rewrite list_filter_filter. apply list_filter_iff. intros c. tauto.
  - rewrite list_filter_filter. apply list_filter_iff. intros c. tauto.
Qed.

(** ** Default severity and the breaking-change predicate *)

Lemma String_eqb_length (a b : string) :
  String.eqb a b = true → String.length a = String.length b.
Proof. by intros ->%String.eqb_eq. Qed.

Lemma strings_HasSuffix_app_short (a b suffix : string) :
  (String.length suffix ≤ String.length b)%nat →
  strings_HasSuffix (a +:+ b) suffix = strings_HasSuffix b suffix.
Proof.
  intros Hlen. induction a as [|c a IH]; [done|].
  rewrite String_app_cons. cbn [strings_HasSuffix].
  destruct (String.eqb (String c (a +:+ b)) suffix) eqn:E; [|done].
  apply String_eqb_length in E. simpl in E.
  rewrite String_length_app in E. lia.
Qed.

Lemma IsBreakingChange_removed (c : Change) :
  Kind c = ChangeRemoved → scope c = ScopeService ∨ scope c = ScopeVolume →
  IsBreakingChange c = true.
Proof.
  intros Hk Hs. unfold IsBreakingChange.
  rewrite (bool_decide_eq_true_2 _ Hk).
  destruct Hs as [Hs|Hs]; rewrite Hs; cbn [andb]; by rewrite ?orb_true_r.
Qed.

(** X7.  A healthcheck that a service loses is reported as a modified
    change (the differ tests boxed pointers against nil, which never
    holds), seeded breaking; and [IsBreakingChange], which looks for
    removed changes, does not hold of it. *)
Theorem healthcheck_removal_is_modified (name : string)
    (old new : ServiceIR) (h : HealthcheckIR) :
  Healthcheck old = Some h → Healthcheck new = None →
  let c :=
    mkChange ChangeModified ScopeService name
      (("services." +:+ name) +:+ ".healthcheck")
      (VHealthcheck (Some h)) (VHealthcheck None) SeverityBreaking in
  c ∈ compareService name old new ∧ IsBreakingChange c = false.
Proof.
  intros Ho Hn c. subst c. split.
  - rewrite compareService_eq, !elem_of_app. do 6 right. left.
    unfold healthcheck_change. rewrite Ho, Hn. simpl. left.
  - unfold IsBreakingChange. cbn [Kind Path Before After scope].
    rewrite (bool_decide_eq_false_2 (ChangeModified = ChangeRemoved)) by done.
    cbn [andb].
    by rewrite (strings_HasSuffix_app_short _ ".healthcheck" ".image")
      by (simpl; lia).
Qed.

Lemma compareService_breaking (name : string) (old new : ServiceIR) :
  Forall (λ c, severity c = SeverityBreaking →
               (Kind c = ChangeRemoved ∧ scope c = ScopeService)
               ∨ (Kind c = ChangeModified
                  ∧ ∃ h, Before c = VHealthcheck (Some h)
                         ∧ After c = VHealthcheck None))
    (compareService name old new).
Proof.
  rewrite compareService_eq.
  rewrite compareEnv_eq, comparePorts_eq, compareServiceVolumes_eq,
    !compareStringSlice_eq.
  unfold image_change, healthcheck_change, command_change,
    entrypoint_change, restart_change.
  assert (∀ a b, imageSeverity a b ≠ SeverityBreaking) as Himg.
  { intros [o|] [n|]; unfold imageSeverity; repeat case_match; done. }
  repeat apply Forall_app_2;
    repeat match goal with
           | |- Forall _ (if ?b then _ else _) => destruct b
           | |- Forall _ [] => apply Forall_nil_2
           | |- Forall _ [_] => apply Forall_singleton
           | |- Forall _ (_ <$> _) =>
               apply Forall_fmap, Forall_forall; intros key _
           end;
    simpl; try done; try (by left); try (intros ?; by apply Himg in H).
  destruct (Healthcheck old) as [h|], (Healthcheck new) as [h'|];
    try done.
  intros _. right. split; [done|]. by exists h.
Qed.

(** X8.  Every change that [Compare] seeds as breaking is a removed
    service, volume, environment variable, port or mount, of which
    [IsBreakingChange] holds, or else the modified change of a lost
    healthcheck. *)
Theorem breaking_changes_are_flagged (old new : ComposeIR) (c : Change) :
  c ∈ Changes (Compare old new) → severity c = SeverityBreaking →
  (Kind c = ChangeRemoved ∧ scope c ≠ ScopeNetwork
   ∧ IsBreakingChange c = true)
  ∨ (Kind c = ChangeModified
     ∧ ∃ h, Before c = VHealthcheck (Some h) ∧ After c = VHealthcheck None).
Proof.
  rewrite Compare_Changes.
  unfold service_changes, volume_changes, network_changes.
  rewrite !elem_of_app, !list_elem_of_fmap.
  intros [[(n & -> & _)|[(n & -> & _)|Hc]]
         |[[(n & -> & _)|(n & -> & _)]|[(n & -> & _)|(n & -> & _)]]] Hsev;
    try done.
  - left. split_and!; [done|done|]. by apply IsBreakingChange_removed; auto.
  - apply elem_of_field_changes in Hc as (n & _ & Hc).
    pose proof (compareService_breaking n (ir_Services old !!! n)
                  (ir_Services new !!! n)) as HF.
    rewrite Forall_forall in HF.
    destruct (HF c Hc Hsev) as [[Hk Hs]|?]; [left|by right].
    split_and!; [done|by rewrite Hs|].
    apply IsBreakingChange_removed; auto.
  - left. split_and!; [done|done|]. by apply IsBreakingChange_removed; auto.
Qed.

(** ** Image references *)

(** X9.  The severity of an image change does not depend on the
    direction of the change, and it is info or warning, never breaking. *)
Theorem imageSeverity_symmetric (a b : option string) :
  imageSeverity a b = imageSeverity b a
  ∧ (imageSeverity a b = SeverityInfo ∨ imageSeverity a b = SeverityWarning).
Proof.
  destruct a as [o|], b as [n|]; unfold imageSeverity; try (by auto).
  rewrite (String.eqb_sym (extractTag n) (extractTag o)).
  rewrite (String.eqb_sym (extractMajorVersion (extractTag n))
             (extractMajorVersion (extractTag o))).
  destruct (String.eqb (extractTag o) (extractTag n)); [by auto|].
  destruct (String.eqb (extractMajorVersion (extractTag o)) "") ,
    (String.eqb (extractMajorVersion (extractTag n)) "") ,
    (String.eqb (extractMajorVersion (extractTag o))
       (extractMajorVersion (extractTag n))); simpl; auto.
Qed.

(** ** Sorting strings *)

Lemma ascending_ltb_le (l : list string) :
  ascending String.ltb l → Sorted String.le l.
Proof.
  unfold ascending. induction 1 as [|x l Hl IH Hhd]; constructor; [done|].
  destruct Hhd as [|y l Hxy]; constructor.
  unfold String.le, String.leb. unfold String.ltb in Hxy.
  rewrite String.compare_antisym. by destruct (String.compare y x).
Qed.

Lemma sort_Strings_Sorted (l : list string) : Sorted String.le (sort_Strings l).
Proof.
  apply ascending_ltb_le, insertionSort_ascending, String_ltb_asym.
Qed.

Lemma sort_Strings_perm (l l' : list string) :
  l ≡ₚ l' → sort_Strings l = sort_Strings l'.
Proof.
  intros Hl. apply (Sorted_unique String.le); try apply sort_Strings_Sorted.
  unfold sort_Strings. by rewrite !insertionSort_Permutation.
Qed.

(** X10.  [sortedStrings] returns its input in ascending byte order, the
    same slice for every reordering of the input. *)
Theorem sortedStrings_canonical (l l' : list string) :
  Sorted String.le (sortedStrings l)
  ∧ sortedStrings l ≡ₚ l
  ∧ (l ≡ₚ l' → sortedStrings l = sortedStrings l').
Proof.
  unfold sortedStrings. split_and!.
  - case_match; [|apply sort_Strings_Sorted].
    destruct l; [constructor|done].
  - case_match; [done|]. apply insertionSort_Permutation.
  - intros Hl. rewrite <- (Permutation_length Hl).
    case_match; [|by apply sort_Strings_perm].
    destruct l; [|done]. by apply Permutation_nil_l in Hl as ->.
Qed.

(** ** The order of the collections of a service *)

Lemma diffSets_perm (old old' new new' : list string) :
  old ≡ₚ old' → new ≡ₚ new' → diffSets old new = diffSets old' new'.
Proof.
  intros Ho Hn.
  pose proof (list_to_set_perm_L (C:=gset string) _ _ Ho) as Eo.
  pose proof (list_to_set_perm_L (C:=gset string) _ _ Hn) as En.
  unfold diffSets. cbv zeta. by rewrite Eo, En.
Qed.

Section keyed_maps.
Context {V : Type} (key : V → string).

Lemma keyed_snoc (l : list V) (x : V) :
  keyed key (l ++ [x]) = <[key x := x]> (keyed key l).
Proof. unfold keyed. by rewrite fold_left_app. Qed.

Lemma keyed_lookup (l : list V) (k : string) (x : V) :
  NoDup (key <$> l) → keyed key l !! k = Some x ↔ x ∈ l ∧ key x = k.
Proof.
  induction l as [|y l IH] using rev_ind; intros Hnd.
  - unfold keyed. simpl. rewrite lookup_empty.
    split; [done|]. by intros [?%elem_of_nil _].
  - rewrite fmap_app in Hnd. apply NoDup_app in Hnd as (Hl & Hy & _).
    rewrite keyed_snoc, lookup_insert_Some, IH, elem_of_app,
      list_elem_of_singleton by done.
    split.
    + intros [[<- <-]|[Hne [Hx <-]]]; [by auto|by auto].
    + intros [[Hx| ->] <-]; [|by left].
      right. split_and!; [|done|done].
      intros Heq. apply (Hy (key x)).
      * by apply list_elem_of_fmap_2.
      * rewrite <- Heq. simpl. left.
Qed.

Lemma keyed_perm (l l' : list V) :
  NoDup (key <$> l) → l ≡ₚ l' → keyed key l = keyed key l'.
Proof.
  intros Hnd Hl. apply map_eq. intros k. apply option_eq. intros x.
  rewrite !keyed_lookup; [by rewrite Hl|by rewrite <- Hl|done].
Qed.

End keyed_maps.

Lemma portMap_perm (l l' : list PortIR) :
  NoDup (port_key <$> l) → l ≡ₚ l' → portMap l = portMap l'.
Proof. apply (keyed_perm port_key). Qed.

Lemma mountMap_perm (l l' : list MountIR) :
  NoDup (Target <$> l) → l ≡ₚ l' → mountMap l = mountMap l'.
Proof. apply (keyed_perm Target). Qed.

Lemma compareService_order (name : string) (a a' b b' : ServiceIR) :
  same_up_to_order a a' → same_up_to_order b b' →
  distinct_keys a → distinct_keys b →
  compareService name a b = compareService name a' b'.
Proof.
  intros (Ha1 & Ha2 & Ha3 & Ha4 & Ha5 & Ha6 & Ha7 & Ha8 & Ha9 & Ha10)
    (Hb1 & Hb2 & Hb3 & Hb4 & Hb5 & Hb6 & Hb7 & Hb8 & Hb9 & Hb10)
    [Hpa Hma] [Hpb Hmb].
  unfold compareService, comparePorts, compareServiceVolumes,
    compareStringSlice.
  rewrite (portMap_perm _ _ Hpa Ha3), (portMap_perm _ _ Hpb Hb3),
    (mountMap_perm _ _ Hma Ha4), (mountMap_perm _ _ Hmb Hb4),
    (diffSets_perm _ _ _ _ Ha5 Hb5), (diffSets_perm _ _ _ _ Ha6 Hb6).
  by rewrite Ha1, Ha2, Ha7, Ha8, Ha9, Ha10, Hb1, Hb2, Hb7, Hb8, Hb9, Hb10.
Qed.

Section order_of_collections.
Context `{SliceSorter}.

Lemma normalizeService_same_up_to_order (svc : ServiceIR) :
  same_up_to_order svc (normalizeService svc).
Proof.
  unfold same_up_to_order, normalizeService, normalizePorts,
    normalizeVolumes, sortedStrings. simpl.
  split_and!; try done; case_match; try done;
    symmetry;
    first [apply sort_Slice_Permutation | apply insertionSort_Permutation].
Qed.

(** X11.  The field-level changes of a service do not depend on the order
    in which its ports, mounts, networks and dependencies are listed,
    provided no two ports share a key and no two mounts a target.  In
    particular normalizing both sides first does not change them. *)
Theorem compareService_order_invariant (name : string)
    (a a' b b' : ServiceIR) :
  distinct_keys a → distinct_keys b →
  (same_up_to_order a a' → same_up_to_order b b' →
   compareService name a b = compareService name a' b')
  ∧ compareService name (normalizeService a) (normalizeService b)
    = compareService name a b.
Proof.
  intros Ha Hb. split.
  - intros Haa Hbb. by apply compareService_order.
  - symmetry. apply compareService_order; try done;
      apply normalizeService_same_up_to_order.
Qed.

End order_of_collections.

(** ** Added against removed *)

Lemma names_added_swap (old new : list string) :
  names_added old new = names_removed new old.
Proof. reflexivity. Qed.

Lemma names_common_swap (old new : list string) :
  names_common old new = names_common new old.
Proof.
  unfold names_common, diffSets. cbn [snd].
  apply sort_Strings_perm.
  apply NoDup_Permutation; try apply NoDup_filter, NoDup_elements.
  intros x. rewrite !list_elem_of_filter, !elem_of_elements. tauto.
Qed.

Lemma paths_of_kind_app (k : ChangeKind) (cs1 cs2 : list Change) :
  paths_of_kind k (cs1 ++ cs2) = paths_of_kind k cs1 ++ paths_of_kind k cs2.
Proof. unfold paths_of_kind. by rewrite filter_app, fmap_app. Qed.

Lemma paths_of_kind_all {A} (k : ChangeKind) (f : A → Change) (l : list A) :
  (∀ x, Kind (f x) = k) →
  paths_of_kind k (f <$> l) = (λ x, Path (f x)) <$> l.
Proof.
  intros Hk. unfold paths_of_kind.
  rewrite filter_all by (intros c (x & -> & _)%list_elem_of_fmap; apply Hk).
  by rewrite <- list_fmap_compose.
Qed.

Lemma paths_of_kind_none (k : ChangeKind) (cs : list Change) :
  (∀ c, c ∈ cs → Kind c ≠ k) → paths_of_kind k cs = [].
Proof. intros Hk. unfold paths_of_kind. by rewrite filter_none. Qed.

Lemma paths_of_kind_bind {A} (k : ChangeKind) (f : A → list Change)
    (l : list A) :
  paths_of_kind k (l ≫= f) = l ≫= (λ x, paths_of_kind k (f x)).
Proof.
  induction l as [|x l IH]; [done|].
  cbn [mbind list_bind]. by rewrite paths_of_kind_app, IH.
Qed.

Ltac other_kind :=
  first
    [ by intros ? (? & -> & _)%list_elem_of_fmap
    | intros ? Hin; repeat case_match;
      first [ by apply elem_of_nil in Hin
            | by apply list_elem_of_singleton in Hin as -> ] ].

Lemma compareService_added_removed (name : string) (a b : ServiceIR) :
  paths_of_kind ChangeAdded (compareService name a b)
  = paths_of_kind ChangeRemoved (compareService name b a).
Proof.
  rewrite !compareService_eq, !compareEnv_eq, !comparePorts_eq,
    !compareServiceVolumes_eq, !compareStringSlice_eq.
  unfold image_change, healthcheck_change, command_change,
    entrypoint_change, restart_change.
  rewrite !paths_of_kind_app.
  repeat match goal with
         | |- context [paths_of_kind ?k (?f <$> ?l)] =>
             first
               [ rewrite (paths_of_kind_all k f l) by done
               | rewrite (paths_of_kind_none k (f <$> l)) by other_kind ]
         | |- context [paths_of_kind ?k (if ?c then ?x else ?y)] =>
             rewrite (paths_of_kind_none k (if c then x else y))
               by other_kind
         end.
  repeat rewrite app_nil_r. cbn [app]. reflexivity.
Qed.

Lemma ptrEqual_sym (a b : option string) : ptrEqual a b = ptrEqual b a.
Proof. destruct a, b; simpl; try done. apply String.eqb_sym. Qed.

Lemma sliceEqual_sym (a b : list string) : sliceEqual a b = sliceEqual b a.
Proof.
  revert b. induction a as [|x a IH]; intros [|y b]; simpl; try done.
  rewrite (String.eqb_sym x y), IH. done.
Qed.

Lemma healthcheckEqual_sym (a b : option HealthcheckIR) :
  healthcheckEqual a b = healthcheckEqual b a.
Proof.
  destruct a, b; simpl; try done. apply bool_decide_ext. by split.
Qed.

Lemma filter_differ_sym {A B} `{EqDecision B} (u v : A → B) (l : list A) :
  filter (λ x, bool_decide (u x ≠ v x)) l
  = filter (λ x, bool_decide (v x ≠ u x)) l.
Proof.
  apply list_filter_iff. intros x. rewrite !bool_decide_spec.
  split; intros Hne Heq; by apply Hne.
Qed.

Lemma compareEnv_modified_sym svcName basePath a b :
  paths_of_kind ChangeModified (compareEnv svcName basePath a b)
  = paths_of_kind ChangeModified (compareEnv svcName basePath b a).
Proof.
  rewrite !compareEnv_eq, !paths_of_kind_app.
  repeat match goal with
         | |- context [paths_of_kind ?k (?f <$> ?l)] =>
             first
               [ rewrite (paths_of_kind_all k f l) by done
               | rewrite (paths_of_kind_none k (f <$> l)) by other_kind ]
         end.
  rewrite (names_common_swap (envKeys b)).
  rewrite (filter_differ_sym (λ key, ptrValue (b !!! key))
             (λ key, ptrValue (a !!! key))).
  reflexivity.
Qed.

Lemma comparePorts_modified_sym svcName basePath a b :
  paths_of_kind ChangeModified (comparePorts svcName basePath a b)
  = paths_of_kind ChangeModified (comparePorts svcName basePath b a).
Proof.
  rewrite !comparePorts_eq, !paths_of_kind_app.
  repeat match goal with
         | |- context [paths_of_kind ?k (?f <$> ?l)] =>
             first
               [ rewrite (paths_of_kind_all k f l) by done
               | rewrite (paths_of_kind_none k (f <$> l)) by other_kind ]
         end.
  rewrite (names_common_swap (mapKeys (portMap b))).
  rewrite (filter_differ_sym (λ key, portMap b !!! key)
             (λ key, portMap a !!! key)).
  reflexivity.
Qed.

Lemma compareServiceVolumes_modified_sym svcName basePath a b :
  paths_of_kind ChangeModified (compareServiceVolumes svcName basePath a b)
  = paths_of_kind ChangeModified (compareServiceVolumes svcName basePath b a).
Proof.
  rewrite !compareServiceVolumes_eq, !paths_of_kind_app.
  repeat match goal with
         | |- context [paths_of_kind ?k (?f <$> ?l)] =>
             first
               [ rewrite (paths_of_kind_all k f l) by done
               | rewrite (paths_of_kind_none k (f <$> l)) by other_kind ]
         end.
  rewrite (names_common_swap (mapKeys (mountMap b))).
  rewrite (filter_differ_sym (λ key, mountMap b !!! key)
             (λ key, mountMap a !!! key)).
  reflexivity.
Qed.

Lemma compareStringSlice_modified svcName path a b sev :
  paths_of_kind ChangeModified (compareStringSlice svcName path a b sev) = [].
Proof.
  rewrite compareStringSlice_eq, paths_of_kind_app.
  by rewrite !paths_of_kind_none by other_kind.
Qed.

Lemma paths_of_kind_if (k : ChangeKind) (c : bool) (x : Change) :
  Kind x = k →
  paths_of_kind k (if c then [x] else []) = if c then [Path x] else [].
Proof.
  intros Hk. destruct c; [|done].
  unfold paths_of_kind. by rewrite filter_cons_True.
Qed.

Lemma compareService_modified_sym (name : string) (a b : ServiceIR) :
  paths_of_kind ChangeModified (compareService name a b)
  = paths_of_kind ChangeModified (compareService name b a).
Proof.
  rewrite !compareService_eq, !paths_of_kind_app.
  rewrite (compareEnv_modified_sym _ _ (Env a)),
    (comparePorts_modified_sym _ _ (Ports a)),
    (compareServiceVolumes_modified_sym _ _ (Volumes a)),
    !compareStringSlice_modified.
  unfold image_change, healthcheck_change, command_change,
    entrypoint_change, restart_change.
  rewrite !paths_of_kind_if by done.
  rewrite (ptrEqual_sym (Image a)), (ptrEqual_sym (Restart a)),
    (sliceEqual_sym (Command a)), (sliceEqual_sym (Entrypoint a)),
    (healthcheckEqual_sym (Healthcheck a)).
  reflexivity.
Qed.

(** X12.  Comparing in the other direction gives the mirror image: the
    paths of the added changes of [Compare a b] are, in order, the paths
    of the removed changes of [Compare b a], and the paths of the modified
    changes are the same in both directions. *)
Theorem added_mirrors_removed (a b : ComposeIR) :
  paths_of_kind ChangeAdded (Changes (Compare a b))
  = paths_of_kind ChangeRemoved (Changes (Compare b a))
  ∧ paths_of_kind ChangeModified (Changes (Compare a b))
    = paths_of_kind ChangeModified (Changes (Compare b a)).
Proof.
  rewrite !Compare_Changes.
  unfold service_changes, volume_changes, network_changes, field_changes.
  rewrite !paths_of_kind_app, !paths_of_kind_bind.
  rewrite (names_common_swap (mapKeys (ir_Services b))).
  rewrite (list_bind_ext
    (λ name, paths_of_kind ChangeAdded
               (changes_of (ir_Services a) (ir_Services b) name))
    (λ name, paths_of_kind ChangeRemoved
               (changes_of (ir_Services b) (ir_Services a) name))
    _ _ (λ name, compareService_added_removed name _ _) eq_refl).
  rewrite (list_bind_ext
    (λ name, paths_of_kind ChangeModified
               (changes_of (ir_Services a) (ir_Services b) name))
    (λ name, paths_of_kind ChangeModified
               (changes_of (ir_Services b) (ir_Services a) name))
    _ _ (λ name, compareService_modified_sym name _ _) eq_refl).
  repeat match goal with
         | |- context [paths_of_kind ?k (?f <$> ?l)] =>
             first
               [ rewrite (paths_of_kind_all k f l) by done
               | rewrite (paths_of_kind_none k (f <$> l)) by other_kind ]
         end.
  repeat rewrite app_nil_r. cbn [app]. split; reflexivity.
Qed.

(** ** Glob patterns of ordinary bytes *)

Lemma glob_star_free (pattern str : string) :
  star_free pattern = true → glob pattern str = String.eqb pattern str.
Proof.
  revert str. induction pattern as [|c pattern IH]; intros str Hp.
  - by destruct str.
  - unfold star_free, free_of in Hp. cbn [string_forall] in Hp.
    apply andb_true_iff in Hp as [Hc Hp]. apply negb_true_iff in Hc.
    cbn [glob]. rewrite Hc. destruct str as [|d str]; [done|].
    cbn [String.eqb]. rewrite (Ascii.eqb_sym c d).
    destruct (Ascii.eqb d c); [by apply IH|done].
Qed.

(** X13.  On a pattern whose bytes are [.], [*] and bytes that are no
    operator of the regular-expression syntax, and a path without a
    newline, [matchGlob] matches the whole path, [*] standing for any run
    of bytes and every other byte for itself; a pattern without [*]
    matches exactly the path that is equal to it. *)
Theorem matchGlob_plain_patterns (pattern str : string) :
  string_forall glob_byte pattern = true →
  string_forall not_newline str = true →
  matchGlob pattern str = glob pattern str
  ∧ (star_free pattern = true →
     matchGlob pattern str = String.eqb pattern str).
Proof.
  intros Hp Hs. split; [by apply matchGlob_glob|].
  intros Hstar. rewrite matchGlob_glob by done. by apply glob_star_free.
Qed.

(** ** The field of a path *)

Lemma splitPath_from_parts (path current : string) (parts : list string) :
  splitPath_from path current parts = parts ++ splitPath_from path current [].
Proof.
  revert current parts.
  induction path as [|r path IH]; intros current parts; cbn [splitPath_from].
  - destruct (negb (String.eqb current "")); by rewrite ?app_nil_r.
  - destruct (Ascii.eqb r ".");
      [destruct (negb (String.eqb current ""))|]; [|apply IH|apply IH].
    rewrite IH, (IH _ ([] ++ [current])). by rewrite app_assoc.
Qed.

Lemma splitPath_from_segment (a rest current : string) (parts : list string) :
  dot_free a = true →
  splitPath_from (a +:+ rest) current parts
  = splitPath_from rest (current +:+ a) parts.
Proof.
  revert current. induction a as [|c a IH]; intros current Ha.
  - by rewrite String_app_nil_l, String_app_nil_r.
  - unfold dot_free, free_of in Ha. cbn [string_forall] in Ha.
    apply andb_true_iff in Ha as [Hc Ha]. apply negb_true_iff in Hc.
    rewrite String_app_cons. cbn [splitPath_from]. rewrite Hc.
    rewrite IH by done. by rewrite String_app_assoc.
Qed.

Lemma splitPath_from_dot (rest current : string) (parts : list string) :
  current ≠ "" →
  splitPath_from ("." +:+ rest) current parts
  = splitPath_from rest "" (parts ++ [current]).
Proof.
  intros Hne. rewrite String_app_cons, String_app_nil_l.
  cbn [splitPath_from]. change (Ascii.eqb "." ".") with true. cbv iota.
  by rewrite (proj2 (String.eqb_neq _ _) Hne).
Qed.

Lemma splitPath_service_field (name field tail : string) :
  dot_free name = true → name ≠ "" →
  dot_free field = true → field ≠ "" →
  tail = "" ∨ (∃ t, tail = "." +:+ t) →
  ∃ rest,
    splitPath ("services." +:+ name +:+ "." +:+ field +:+ tail)
    = ["services"; name; field] ++ rest.
Proof.
  intros Hn Hne Hf Hfe Ht. unfold splitPath.
  change ("services." +:+ name +:+ "." +:+ field +:+ tail)
    with ("services" +:+ "." +:+ name +:+ "." +:+ field +:+ tail).
  rewrite splitPath_from_segment by reflexivity. rewrite String_app_nil_l.
  rewrite splitPath_from_dot by done.
  rewrite splitPath_from_segment by done. rewrite String_app_nil_l.
  rewrite splitPath_from_dot by done.
  rewrite splitPath_from_segment by done. rewrite String_app_nil_l.
  destruct Ht as [->|[t ->]].
  - exists []. cbn [splitPath_from].
    by rewrite (proj2 (String.eqb_neq _ _) Hfe).
  - rewrite splitPath_from_dot by done. rewrite splitPath_from_parts.
    by eexists.
Qed.

Lemma extractFieldFromPath_service_field (name field tail : string) :
  dot_free name = true → name ≠ "" →
  dot_free field = true → field ≠ "" →
  tail = "" ∨ (∃ t, tail = "." +:+ t) →
  extractFieldFromPath ("services." +:+ name +:+ "." +:+ field +:+ tail)
  = field.
Proof.
  intros Hn Hne Hf Hfe Ht. unfold extractFieldFromPath.
  destruct (splitPath_service_field name field tail) as [rest ->]; done.
Qed.

Lemma service_fields_plain (field : string) :
  field ∈ service_fields → dot_free field = true ∧ field ≠ "".
Proof.
  unfold service_fields. rewrite !elem_of_cons, elem_of_nil.
  intros Hf. repeat destruct Hf as [->|Hf]; done.
Qed.

Ltac field_at field tail :=
  exists field, tail;
  split_and!;
    [ unfold service_fields; rewrite !elem_of_cons; tauto
    | first [by left|by right; eexists]
    | rewrite ?String_app_assoc; reflexivity ].

Lemma compareService_paths (name : string) (old new : ServiceIR) :
  Forall
    (λ c, ∃ field tail,
       field ∈ service_fields
       ∧ (tail = "" ∨ ∃ t, tail = "." +:+ t)
       ∧ Path c = "services." +:+ name +:+ "." +:+ field +:+ tail)
    (compareService name old new).
Proof.
  rewrite compareService_eq.
  rewrite compareEnv_eq, comparePorts_eq, compareServiceVolumes_eq,
    !compareStringSlice_eq.
  unfold image_change, healthcheck_change, command_change,
    entrypoint_change, restart_change.
  repeat apply Forall_app_2;
    repeat match goal with
           | |- Forall _ (if ?b then _ else _) => destruct b
           | |- Forall _ [] => apply Forall_nil_2
           | |- Forall _ [_] => apply Forall_singleton
           | |- Forall _ (_ <$> _) =>
               apply Forall_fmap, Forall_forall; intros key _
           end.
  all: cbn [Path env_added env_removed env_modified port_added port_removed
            port_modified mount_added mount_removed mount_modified
            item_added item_removed compose].
  all: first
    [ field_at "image" ""
    | field_at "environment" ("." +:+ key)
    | field_at "ports" ("." +:+ key)
    | field_at "volumes" ("." +:+ key)
    | field_at "networks" ("." +:+ key)
    | field_at "depends_on" ("." +:+ key)
    | field_at "healthcheck" ""
    | field_at "command" ""
    | field_at "entrypoint" ""
    | field_at "restart" "" ].
Qed.

(** X14.  For a service whose name has no dot, [extractFieldFromPath]
    returns the third part of a path below the service, and on every
    change that [compareService] emits for the service this is the field
    that was compared.  (The parts are cut at every dot: for a service
    named [my.app] the first statement, read with [my] as the name, gives
    the field [app].) *)
Theorem extractFieldFromPath_of_service (name : string) :
  dot_free name = true → name ≠ "" →
  (∀ field tail,
     dot_free field = true → field ≠ "" →
     tail = "" ∨ (∃ t, tail = "." +:+ t) →
     extractFieldFromPath ("services." +:+ name +:+ "." +:+ field +:+ tail)
     = field)
  ∧ (∀ old new c,
       c ∈ compareService name old new →
       extractFieldFromPath (Path c) ∈ service_fields
       ∧ ∃ tail,
           Path c
           = "services." +:+ name +:+ "." +:+ extractFieldFromPath (Path c)
               +:+ tail).
Proof.
  intros Hn Hne. split.
  - intros field tail. by apply extractFieldFromPath_service_field.
  - intros old new c Hc.
    pose proof (compareService_paths name old new) as Hall.
    rewrite Forall_forall in Hall.
    destruct (Hall c Hc) as (field & tail & Hf & Ht & Hp).
    destruct (service_fields_plain field Hf) as [Hd Hfe].
    rewrite Hp.
    rewrite (extractFieldFromPath_service_field name field tail) by done.
    split; [done|]. by exists tail.
Qed.

(** ** Port and volume strings *)

Lemma free_of_cons (x c : ascii) (s : string) :
  free_of x (String c s) = true ↔ Ascii.eqb c x = false ∧ free_of x s = true.
Proof.
  unfold free_of. cbn [string_forall].
  by rewrite andb_true_iff, negb_true_iff.
Qed.

Lemma strings_Split_plain (a : string) (sep : ascii) :
  free_of sep a = true → strings_Split a sep = [a].
Proof.
  induction a as [|c a IH]; [done|].
  intros [Hc Ha]%free_of_cons. cbn [strings_Split].
  by rewrite Hc, IH.
Qed.

Lemma strings_Split_app (a rest : string) (sep : ascii) :
  free_of sep a = true →
  strings_Split (a +:+ String sep rest) sep = a :: strings_Split rest sep.
Proof.
  induction a as [|c a IH].
  - intros _. rewrite String_app_nil_l. cbn [strings_Split].
    by rewrite Ascii.eqb_refl.
  - intros [Hc Ha]%free_of_cons. rewrite String_app_cons.
    cbn [strings_Split]. by rewrite Hc, IH.
Qed.

Lemma strings_HasSuffix_free (s suffix : string) (x : ascii) :
  free_of x s = true → strings_HasSuffix s (String x suffix) = false.
Proof.
  induction s as [|c s IH]; [done|].
  intros [Hc Hs]%free_of_cons. cbn [strings_HasSuffix String.eqb].
  by rewrite Hc, IH.
Qed.

Lemma free_of_app (x : ascii) (a b : string) :
  free_of x (a +:+ b) = true ↔ free_of x a = true ∧ free_of x b = true.
Proof.
  induction a as [|c a IH].
  - rewrite String_app_nil_l. by intuition.
  - rewrite String_app_cons, !free_of_cons, IH. tauto.
Qed.

Lemma substring_app_prefix (a b : string) :
  String.substring 0 (String.length a) (a +:+ b) = a.
Proof.
  induction a as [|c a IH].
  - rewrite String_app_nil_l. by destruct b.
  - rewrite String_app_cons. cbn [String.length String.substring].
    by rewrite IH.
Qed.

Lemma strings_TrimSuffix_app (a b : string) :
  strings_TrimSuffix (a +:+ b) b = a.
Proof.
  unfold strings_TrimSuffix. rewrite strings_HasSuffix_app.
  rewrite String_length_app.
  replace (String.length a + String.length b - String.length b)%nat
    with (String.length a) by lia.
  apply substring_app_prefix.
Qed.

Lemma parsePortString_Protocol (s : string) :
  Protocol (parsePortString s) = "tcp" ∨ Protocol (parsePortString s) = "udp".
Proof.
  unfold parsePortString.
  destruct (strings_HasSuffix s "/udp"); [|destruct (strings_HasSuffix s "/tcp")];
    repeat case_match; cbn [Protocol]; auto.
Qed.

Lemma parsePortString_plain (h c : string) :
  free_of ":" h = true → free_of "/" h = true →
  free_of ":" c = true → free_of "/" c = true →
  parsePortString (h +:+ ":" +:+ c) = mkPortIR "" h c "tcp".
Proof.
  intros Hh Hh' Hc Hc'. unfold parsePortString.
  assert (free_of "/" (h +:+ ":" +:+ c) = true) as Hs.
  { rewrite !free_of_app. by split_and!. }
  rewrite !(strings_HasSuffix_free _ _ _ Hs).
  change (h +:+ ":" +:+ c) with (h +:+ String ":" c).
  by rewrite strings_Split_app, strings_Split_plain.
Qed.

Lemma parsePortString_suffix (h c proto : string) :
  free_of ":" h = true → free_of ":" c = true →
  proto = "tcp" ∨ proto = "udp" →
  parsePortString (h +:+ ":" +:+ c +:+ "/" +:+ proto) = mkPortIR "" h c proto.
Proof.
  intros Hh Hc Hp. unfold parsePortString.
  replace (h +:+ ":" +:+ c +:+ "/" +:+ proto)
    with ((h +:+ ":" +:+ c) +:+ ("/" +:+ proto))
    by by rewrite !String_app_assoc.
  destruct Hp as [-> | ->].
  - change ("/" +:+ "tcp") with "/tcp".
    rewrite strings_HasSuffix_app, strings_TrimSuffix_app.
    destruct (strings_HasSuffix _ "/udp") eqn:E.
    + exfalso. revert E. generalize (h +:+ ":" +:+ c). intros s.
      induction s as [|x s IH]; [done|].
      rewrite String_app_cons. cbn [strings_HasSuffix].
      destruct (String.eqb_spec (String x (s +:+ "/tcp")) "/udp") as [E|_];
        [|done].
      intros _. apply (f_equal String.length) in E.
      cbn [String.length] in E. rewrite String_length_app in E.
      cbn [String.length] in E.
      destruct s as [|y s]; [done|]. cbn [String.length] in E. lia.
    + change (h +:+ ":" +:+ c) with (h +:+ String ":" c).
      by rewrite strings_Split_app, strings_Split_plain.
  - change ("/" +:+ "udp") with "/udp".
    rewrite strings_HasSuffix_app, strings_TrimSuffix_app.
    change (h +:+ ":" +:+ c) with (h +:+ String ":" c).
    by rewrite strings_Split_app, strings_Split_plain.
Qed.

Lemma comparePorts_refl (svcName basePath : string) (ports : list PortIR) :
  comparePorts svcName basePath ports ports = [].
Proof.
  rewrite comparePorts_eq, names_added_refl, names_removed_refl.
  rewrite filter_none; [done|]. by intros key _ Hne%bool_decide_unpack.
Qed.

(** X15.  A short-form port [host:container] in which neither part holds
    a colon or a slash is parsed to the binding of these two ports over
    tcp, with or without the suffix [/tcp], and over udp with the suffix
    [/udp]; its key in the differ is [host:container/tcp], so rewriting
    [host:container] as [host:container/tcp] is no change.  The protocol
    of a parsed port string is always tcp or udp. *)
Theorem parsePortString_short_form (h c svcName basePath : string) :
  free_of ":" h = true → free_of "/" h = true →
  free_of ":" c = true → free_of "/" c = true →
  parsePortString (h +:+ ":" +:+ c) = mkPortIR "" h c "tcp"
  ∧ parsePortString (h +:+ ":" +:+ c +:+ "/tcp") = mkPortIR "" h c "tcp"
  ∧ parsePortString (h +:+ ":" +:+ c +:+ "/udp") = mkPortIR "" h c "udp"
  ∧ port_key (parsePortString (h +:+ ":" +:+ c)) = h +:+ ":" +:+ c +:+ "/tcp"
  ∧ comparePorts svcName basePath
      [parsePortString (h +:+ ":" +:+ c)]
      [parsePortString (h +:+ ":" +:+ c +:+ "/tcp")] = []
  ∧ (∀ s, Protocol (parsePortString s) = "tcp"
          ∨ Protocol (parsePortString s) = "udp").
Proof.
  intros Hh Hh' Hc Hc'.
  pose proof (parsePortString_plain h c Hh Hh' Hc Hc') as E1.
  pose proof (parsePortString_suffix h c "tcp" Hh Hc (or_introl eq_refl)) as E2.
  pose proof (parsePortString_suffix h c "udp" Hh Hc (or_intror eq_refl)) as E3.
  change ("/" +:+ "tcp") with "/tcp" in E2.
  change ("/" +:+ "udp") with "/udp" in E3.
  split_and!; [done|done|done| | |apply parsePortString_Protocol].
  - by rewrite E1.
  - rewrite E1, E2. apply comparePorts_refl.
Qed.

Lemma parseVolumeString_two (source target : string) :
  free_of ":" source = true → free_of ":" target = true →
  parseVolumeString (source +:+ ":" +:+ target)
  = mkMountIR (inferMountType source) source target false.
Proof.
  intros Hs Ht. unfold parseVolumeString.
  change (source +:+ ":" +:+ target) with (source +:+ String ":" target).
  by rewrite strings_Split_app, strings_Split_plain.
Qed.

Lemma parseVolumeString_three (source target mode : string) :
  free_of ":" source = true → free_of ":" target = true →
  free_of ":" mode = true →
  parseVolumeString (source +:+ ":" +:+ target +:+ ":" +:+ mode)
  = mkMountIR (inferMountType source) source target (String.eqb mode "ro").
Proof.
  intros Hs Ht Hm. unfold parseVolumeString.
  change (source +:+ ":" +:+ target +:+ ":" +:+ mode)
    with (source +:+ String ":" (target +:+ String ":" mode)).
  by rewrite !strings_Split_app, strings_Split_plain.
Qed.

(** X16.  A volume string is cut at its colons.  Without a colon it is
    the target of an anonymous volume; [source:target] is a bind mount
    when the source starts with [./], [/] or [~] and a named volume
    otherwise; a third part makes the mount read-only exactly when it is
    [ro], so that any other mode, [rw] or [ro,z] say, is parsed like no
    mode at all. *)
Theorem parseVolumeString_forms (source target mode : string) :
  free_of ":" source = true → free_of ":" target = true →
  free_of ":" mode = true →
  parseVolumeString target = mkMountIR "volume" "" target false
  ∧ parseVolumeString (source +:+ ":" +:+ target)
    = mkMountIR (inferMountType source) source target false
  ∧ parseVolumeString (source +:+ ":" +:+ target +:+ ":" +:+ mode)
    = mkMountIR (inferMountType source) source target (String.eqb mode "ro")
  ∧ (mode ≠ "ro" →
     parseVolumeString (source +:+ ":" +:+ target +:+ ":" +:+ mode)
     = parseVolumeString (source +:+ ":" +:+ target)).
Proof.
  intros Hs Ht Hm. split_and!.
  - unfold parseVolumeString. by rewrite strings_Split_plain.
  - by apply parseVolumeString_two.
  - by apply parseVolumeString_three.
  - intros Hne.
    rewrite (parseVolumeString_three source target mode),
      (parseVolumeString_two source target) by done.
    by rewrite (proj2 (String.eqb_neq _ _) Hne).
Qed.

(** ** The two forms of an environment *)

Lemma strings_SplitN_2_app (a rest : string) (sep : ascii) :
  free_of sep a = true →
  strings_SplitN_2 (a +:+ String sep rest) sep = [a; rest].
Proof.
  induction a as [|c a IH].
  - intros _. rewrite String_app_nil_l. cbn [strings_SplitN_2].
    by rewrite Ascii.eqb_refl.
  - intros [Hc Ha]%free_of_cons. rewrite String_app_cons.
    cbn [strings_SplitN_2]. by rewrite Hc, IH.
Qed.

Lemma strings_SplitN_2_plain (a : string) (sep : ascii) :
  free_of sep a = true → strings_SplitN_2 a sep = [a].
Proof.
  induction a as [|c a IH]; [done|].
  intros [Hc Ha]%free_of_cons. cbn [strings_SplitN_2]. by rewrite Hc, IH.
Qed.

Lemma parseEnvVar_pair (key value : string) :
  free_of "=" key = true → parseEnvVar (key +:+ "=" +:+ value) = (key, value).
Proof.
  intros Hk. unfold parseEnvVar.
  change (key +:+ "=" +:+ value) with (key +:+ String "=" value).
  by rewrite strings_SplitN_2_app.
Qed.

Lemma parseEnvironment_forms (kvs : list (string * string))
    (env : gmap string (option string)) :
  Forall (λ kv, free_of "=" kv.1 = true) kvs →
  fold_left
    (λ env item,
       match item with
       | ScalarNode value =>
           let '(key, value) := parseEnvVar value in set_env key value env
       | _ => env
       end)
    ((λ kv, ScalarNode (kv.1 +:+ "=" +:+ kv.2)) <$> kvs) env
  = parseEnvironment_mapping
      (kvs ≫= λ kv, [ScalarNode kv.1; ScalarNode kv.2]) env.
Proof.
  intros Hall. revert env.
  induction Hall as [|[key value] kvs Hk _ IH]; intros env; [done|].
  cbn [fmap list_fmap fold_left mbind list_bind app
       parseEnvironment_mapping node_Value fst snd].
  cbn [fst] in Hk. rewrite (parseEnvVar_pair key value Hk). apply IH.
Qed.

(** X17.  The list form and the map form of an environment agree: a
    sequence of scalars [key=value] is parsed to the same map as the
    mapping of the same keys to the same values, when no key holds [=].
    In both forms an empty value is a variable declared without a value,
    as is a key alone in the list form. *)
Theorem parseEnvironment_forms_agree (kvs : list (string * string))
    (key : string) :
  Forall (λ kv, free_of "=" kv.1 = true) kvs →
  free_of "=" key = true →
  parseEnvironment (env_sequence kvs) = parseEnvironment (env_mapping kvs)
  ∧ parseEnvironment (SequenceNode [ScalarNode key]) = {[ key := None ]}
  ∧ parseEnvironment (env_sequence [(key, "")]) = {[ key := None ]}
  ∧ parseEnvironment (env_mapping [(key, "")]) = {[ key := None ]}.
Proof.
  intros Hall Hkey. split_and!.
  - by apply parseEnvironment_forms.
  - cbn [parseEnvironment fold_left]. unfold parseEnvVar.
    by rewrite strings_SplitN_2_plain.
  - cbn [parseEnvironment env_sequence fmap list_fmap fold_left fst snd].
    by rewrite (parseEnvVar_pair key "" Hkey).
  - done.
Qed.

(** ** File names of baselines *)

Lemma sanitize_loop_app (name result : string) :
  sanitize_loop name result = result +:+ sanitize_loop name "".
Proof.
  revert result. induction name as [|r name IH]; intros result.
  - by rewrite String_app_nil_r.
  - cbn [sanitize_loop]. rewrite IH, (IH ("" +:+ sanitize_rune r)).
    by rewrite String_app_nil_l, String_app_assoc.
Qed.

Lemma sanitize_loop_cons (r : ascii) (name : string) :
  sanitize_loop (String r name) "" = sanitize_rune r +:+ sanitize_loop name "".
Proof.
  cbn [sanitize_loop]. by rewrite String_app_nil_l, sanitize_loop_app.
Qed.

Lemma sanitize_loop_concat (a b : string) :
  sanitize_loop (a +:+ b) ""
  = sanitize_loop a "" +:+ sanitize_loop b "".
Proof.
  induction a as [|r a IH]; [done|].
  by rewrite String_app_cons, !sanitize_loop_cons, IH, String_app_assoc.
Qed.

Lemma string_forall_app (P : ascii → bool) (a b : string) :
  string_forall P (a +:+ b) = string_forall P a && string_forall P b.
Proof.
  induction a as [|c a IH]; [done|].
  rewrite String_app_cons. cbn [string_forall].
  by rewrite IH, andb_assoc.
Qed.

Lemma sanitize_rune_safe (r : ascii) :
  string_forall safe_byte (sanitize_rune r) = true.
Proof.
  unfold sanitize_rune. fold (safe_byte r).
  destruct (safe_byte r) eqn:E.
  - cbn [string_forall]. by rewrite E.
  - by case_match.
Qed.

Lemma sanitize_loop_safe (name : string) :
  string_forall safe_byte (sanitize_loop name "") = true.
Proof.
  induction name as [|r name IH]; [done|].
  by rewrite sanitize_loop_cons, string_forall_app, sanitize_rune_safe, IH.
Qed.

Lemma sanitize_loop_id (name : string) :
  string_forall safe_byte name = true → sanitize_loop name "" = name.
Proof.
  induction name as [|r name IH]; [done|].
  cbn [string_forall]. intros [Hr Hn]%andb_true_iff.
  rewrite sanitize_loop_cons, IH by done.
  unfold sanitize_rune. fold (safe_byte r). by rewrite Hr.
Qed.

(** X18.  The file name that [sanitizeFilename] makes of a baseline name
    is never empty and holds only letters, digits, [-] and [_], hence no
    path separator and no dot; a name that is already such a file name is
    left as it is.  Names are not kept apart: a space and a slash both
    become [_]. *)
Theorem sanitizeFilename_safe (name a b : string) :
  string_forall safe_byte (sanitizeFilename name) = true
  ∧ sanitizeFilename name ≠ ""
  ∧ sanitizeFilename (sanitizeFilename name) = sanitizeFilename name
  ∧ sanitizeFilename (a +:+ " " +:+ b) = sanitizeFilename (a +:+ "/" +:+ b).
Proof.
  assert (string_forall safe_byte (sanitizeFilename name) = true
          ∧ sanitizeFilename name ≠ "") as [Hsafe Hne].
  { unfold sanitizeFilename. cbv zeta.
    destruct (String.eqb_spec (sanitize_loop name "") "") as [_|Hne];
      [done|]. split; [apply sanitize_loop_safe|done]. }
  split_and!; [done|done| |].
  - unfold sanitizeFilename at 1. cbv zeta.
    rewrite (sanitize_loop_id _ Hsafe).
    by rewrite (proj2 (String.eqb_neq _ _) Hne).
  - unfold sanitizeFilename. by rewrite !sanitize_loop_concat.
Qed.

(* ===================================================================== *)
(** * The reporters *)
(* ===================================================================== *)

(** ** Sorting the names of the services *)

Lemma ltb_false_le (a b : string) : String.ltb b a = false → String.le a b.
Proof.
  unfold String.le, String.leb, String.ltb.
  rewrite (String.compare_antisym a b).
  by destruct (String.compare b a).
Qed.

Lemma ltb_true_le (a b : string) : String.ltb b a = true → String.le b a.
Proof.
  unfold String.le, String.leb, String.ltb.
  by destruct (String.compare b a).
Qed.

Lemma swap_length i j ks : length (swap_if_greater i j ks) = length ks.
Proof. unfold swap_if_greater. repeat case_match; by rewrite ?length_insert. Qed.

Lemma insert_Permutation (l : list string) (j : nat) (x b : string) :
  l !! j = Some b → b :: <[j:=x]> l ≡ₚ x :: l.
Proof.
  revert j. induction l as [|y l IH]; intros [|j] Hj; simplify_eq/=.
  - apply perm_swap.
  - etrans; [apply perm_swap|]. etrans; [apply perm_skip, IH; done|].
    apply perm_swap.
Qed.

Lemma swap_Permutation i j ks : i ≠ j → swap_if_greater i j ks ≡ₚ ks.
Proof.
  intros Hij. unfold swap_if_greater.
  destruct (ks !! i) as [a|] eqn:Ha; [|done].
  destruct (ks !! j) as [b|] eqn:Hb; [|done].
  case_match; [|done].
  apply (Permutation_cons_inv (a:=a)).
  rewrite insert_Permutation by (by rewrite list_lookup_insert_ne).
  by apply insert_Permutation.
Qed.

Lemma swap_lookup_other i j ks p :
  p ≠ i → p ≠ j → swap_if_greater i j ks !! p = ks !! p.
Proof.
  intros. unfold swap_if_greater.
  repeat case_match; by rewrite ?list_lookup_insert_ne.
Qed.

(* every element of the swapped list at a position from [i] on was at a
   position from [i] on *)
Lemma swap_lookup_from i j ks q b :
  (i < j)%nat → (i ≤ q)%nat → swap_if_greater i j ks !! q = Some b →
  ∃ q', (i ≤ q')%nat ∧ ks !! q' = Some b.
Proof.
  intros Hij Hq. unfold swap_if_greater.
  destruct (ks !! i) as [a|] eqn:Ha; [|by eauto].
  destruct (ks !! j) as [c|] eqn:Hc; [|by eauto].
  case_match; [|by eauto].
  rewrite list_lookup_insert. case_decide as Hd.
  - intros [= <-]. exists j. split; [lia|done].
  - rewrite list_lookup_insert. case_decide as Hd'.
    + intros [= <-]. exists i. split; [lia|done].
    + eauto.
Qed.

Lemma swap_sorted_below i j ks :
  (i < j)%nat → sorted_below i ks → sorted_below i (swap_if_greater i j ks).
Proof.
  intros Hij Hs p q a b Hp Hpq Ha Hb.
  rewrite swap_lookup_other in Ha by lia.
  destruct (decide (q < i)%nat) as [Hq|Hq].
  - rewrite swap_lookup_other in Hb by lia. by eapply (Hs p q).
  - apply swap_lookup_from in Hb as (q' & Hq' & Hb); [|lia..].
    eapply (Hs p q'); [done|lia|done..].
Qed.

Lemma swap_least_at i j ks :
  (i < j)%nat → (j < length ks)%nat →
  least_at i j ks → least_at i (S j) (swap_if_greater i j ks).
Proof.
  intros Hij Hj Hl k a b Hk.
  unfold swap_if_greater.
  destruct (lookup_lt_is_Some_2 ks i ltac:(lia)) as [x Hx].
  destruct (lookup_lt_is_Some_2 ks j Hj) as [y Hy].
  rewrite Hx, Hy.
  destruct (String.ltb y x) eqn:E.
  - rewrite list_lookup_insert_eq by (rewrite length_insert; lia).
    intros [= <-].
    destruct (decide (k = j)) as [->|Hkj].
    + rewrite list_lookup_insert_ne by lia.
      rewrite list_lookup_insert_eq by lia.
      intros [= <-]. by apply ltb_true_le.
    + rewrite !list_lookup_insert_ne by lia. intros Hb.
      etrans; [by apply ltb_true_le|]. eapply (Hl k); [lia|done..].
  - rewrite Hx. intros [= <-] Hb.
    destruct (decide (k = j)) as [->|Hkj].
    + rewrite Hy in Hb. injection Hb as <-. by apply ltb_false_le.
    + eapply (Hl k); [lia|done..].
Qed.

Lemma inner_loop (i cnt j : nat) (ks : list string) :
  (i < j)%nat → (j + cnt)%nat = length ks →
  least_at i j ks → sorted_below i ks →
  let ks' := fold_left (λ keys j, swap_if_greater i j keys) (seq j cnt) ks in
  length ks' = length ks ∧ ks' ≡ₚ ks
  ∧ least_at i (length ks) ks' ∧ sorted_below i ks'.
Proof.
  revert j ks. induction cnt as [|cnt IH]; intros j ks Hij Hn Hl Hs; simpl.
  - replace (length ks) with j by lia. done.
  - destruct (IH (S j) (swap_if_greater i j ks)) as (H1 & H2 & H3 & H4).
    + lia.
    + rewrite swap_length. lia.
    + apply swap_least_at; [done|lia|done].
    + by apply swap_sorted_below.
    + rewrite swap_length in H1, H3.
      split_and!; [done| |done|done].
      rewrite H2. apply swap_Permutation. lia.
Qed.

Lemma outer_loop (n cnt i : nat) (ks : list string) :
  (i + cnt)%nat = n → length ks = n → sorted_below i ks →
  let ks' :=
    fold_left
      (λ keys i,
         fold_left (λ keys j, swap_if_greater i j keys)
           (seq (S i) (n - S i)%nat) keys)
      (seq i cnt) ks in
  ks' ≡ₚ ks ∧ sorted_below n ks'.
Proof.
  revert i ks. induction cnt as [|cnt IH]; intros i ks Hi Hn Hs; simpl.
  - replace n with i by lia. done.
  - destruct (inner_loop i (n - S i)%nat (S i) ks) as (H1 & H2 & H3 & H4).
    + lia.
    + lia.
    + intros k a b Hk. lia.
    + done.
    + destruct (IH (S i)
        (fold_left (λ keys j, swap_if_greater i j keys)
           (seq (S i) (n - S i)%nat) ks)) as [H5 H6].
      * lia.
      * lia.
      * intros p q a b Hp Hpq Ha Hb.
        destruct (decide (p = i)) as [->|Hpi].
        -- eapply (H3 q); [|done..]. split; [lia|].
           rewrite <- H1. by eapply lookup_lt_Some.
        -- eapply (H4 p q); [lia|done..].
      * split; [|done]. by rewrite H5.
Qed.

Lemma sorted_below_Sorted (ks : list string) :
  sorted_below (length ks) ks → Sorted String.le ks.
Proof.
  induction ks as [|x ks IH]; intros Hs; constructor.
  - apply IH. intros p q a b Hp Hpq Ha Hb.
    apply (Hs (S p) (S q)); simpl; [lia..|done|done].
  - destruct ks as [|y ks]; constructor.
    apply (Hs 0%nat 1%nat); simpl; [lia..|done|done].
Qed.

Lemma sortedKeys_Permutation (keys : list string) : sortedKeys keys ≡ₚ keys.
Proof.
  unfold sortedKeys. cbv zeta.
  by destruct (outer_loop (length keys) (length keys) 0%nat keys) as [? _];
    [done|done|intros p q a b Hp; lia|].
Qed.

Lemma sortedKeys_Sorted (keys : list string) :
  Sorted String.le (sortedKeys keys).
Proof.
  apply sorted_below_Sorted.
  rewrite (Permutation_length (sortedKeys_Permutation keys)).
  unfold sortedKeys. cbv zeta.
  by destruct (outer_loop (length keys) (length keys) 0%nat keys) as [_ ?];
    [done|done|intros p q a b Hp; lia|].
Qed.

(** X19.  [sortedKeys] returns the keys in ascending byte order, each as
    often as it was collected: the slice that [sort.Strings] would give,
    and the same whatever the order in which the map was ranged over. *)
Theorem sortedKeys_sorted (keys keys' : list string) :
  Sorted String.le (sortedKeys keys)
  ∧ sortedKeys keys ≡ₚ keys
  ∧ sortedKeys keys = sort_Strings keys
  ∧ (keys ≡ₚ keys' → sortedKeys keys = sortedKeys keys').
Proof.
  split_and!.
  - apply sortedKeys_Sorted.
  - apply sortedKeys_Permutation.
  - apply (Sorted_unique String.le);
      [apply sortedKeys_Sorted|apply sort_Strings_Sorted|].
    rewrite sortedKeys_Permutation. unfold sort_Strings.
    by rewrite insertionSort_Permutation.
  - intros Hk. apply (Sorted_unique String.le); try apply sortedKeys_Sorted.
    by rewrite !sortedKeys_Permutation.
Qed.

(** ** The sections of the Markdown report *)

Lemma filterBySeverity_filter (cs : list Change) (sev : Severity) :
  filterBySeverity cs sev = filter (λ c, String.eqb (severity c) sev) cs.
Proof.
  unfold filterBySeverity.
  rewrite (fold_snoc_if (λ c, String.eqb (severity c) sev) id).
  by rewrite list_fmap_id.
Qed.

Lemma sections_Permutation (cs : list Change) :
  Forall (λ c, known_severity (severity c)) cs →
  cs ≡ₚ filterBySeverity cs SeverityBreaking
        ++ filterBySeverity cs SeverityWarning
        ++ filterBySeverity cs SeverityInfo.
Proof.
  rewrite !filterBySeverity_filter.
  induction 1 as [|c cs Hc _ IH]; [done|].
  rewrite !filter_cons.
  destruct Hc as [-> | [-> | ->]]; simpl.
  - rewrite <- !Permutation_middle. by constructor.
  - rewrite <- !Permutation_middle. by constructor.
  - by constructor.
Qed.

Lemma count_other_unknown (cs : list Change) :
  count_if is_other cs
  = count_if is_info cs
    + Z.of_nat (length (filter (λ c, ¬ known_severity (severity c)) cs)).
Proof.
  induction cs as [|c cs IH]; [done|].
  change (c :: cs) with ([c] ++ cs).
  rewrite !count_if_app, !count_if_singleton, filter_app, length_app, IH.
  unfold is_other, is_breaking, is_warning, is_info.
  rewrite filter_cons, filter_nil.
  destruct (decide (¬ known_severity (severity c))) as [Hk|Hk];
    unfold known_severity in Hk.
  - destruct (String.eqb_spec (severity c) SeverityBreaking); [tauto|].
    destruct (String.eqb_spec (severity c) SeverityWarning); [tauto|].
    destruct (String.eqb_spec (severity c) SeverityInfo); [tauto|].
    cbn [negb andb length]. lia.
  - destruct (String.eqb_spec (severity c) SeverityBreaking) as [E|?].
    { rewrite E. cbn. lia. }
    destruct (String.eqb_spec (severity c) SeverityWarning) as [E|?].
    { rewrite E. cbn. lia. }
    destruct (String.eqb_spec (severity c) SeverityInfo) as [E|?].
    { cbn. lia. }
    tauto.
Qed.

Section markdown_sections.
Context `{RegexpEngine}.

(** X20.  The three sections of the Markdown report hold the changes whose
    severity is exactly breaking, warning and info.  For the report of
    [Compare] their lengths are the three counters of the summary and
    together they hold every change.  After [applyRules] the first two
    lengths are still the counters, while a change that a rule gave a
    severity other than these three is counted as info in the summary and
    shown in no section. *)
Theorem markdown_sections_counts (old new : ComposeIR) (report : DiffReport)
    (r : Rules) :
  (let rep := Compare old new in
   Z.of_nat (length (filterBySeverity (Changes rep) SeverityBreaking))
   = BreakingCount (Summary rep)
   ∧ Z.of_nat (length (filterBySeverity (Changes rep) SeverityWarning))
     = WarningCount (Summary rep)
   ∧ Z.of_nat (length (filterBySeverity (Changes rep) SeverityInfo))
     = InfoCount (Summary rep)
   ∧ Changes rep
     ≡ₚ filterBySeverity (Changes rep) SeverityBreaking
        ++ filterBySeverity (Changes rep) SeverityWarning
        ++ filterBySeverity (Changes rep) SeverityInfo)
  ∧ (let out := applyRules report r in
     Z.of_nat (length (filterBySeverity (Changes out) SeverityBreaking))
     = BreakingCount (Summary out)
     ∧ Z.of_nat (length (filterBySeverity (Changes out) SeverityWarning))
       = WarningCount (Summary out)
     ∧ Z.of_nat (length (filterBySeverity (Changes out) SeverityInfo))
       + Z.of_nat (length (filter (λ c, ¬ known_severity (severity c))
                             (Changes out)))
       = InfoCount (Summary out)).
Proof.
  cbv zeta. split.
  - rewrite Compare_Summary. unfold summarize.
    cbn [BreakingCount WarningCount InfoCount].
    rewrite !filterBySeverity_filter.
    split_and!; [done|done|done|].
    rewrite <- !filterBySeverity_filter.
    apply sections_Permutation, Compare_severity.
  - destruct (applyRules_recounts report r) as (_ & Hb & Hw & Hi).
    cbv zeta in Hb, Hw, Hi. rewrite Hb, Hw, Hi, count_other_unknown.
    by rewrite !filterBySeverity_filter.
Qed.
End markdown_sections.

(** ** The groups of the text report *)

Lemma groupByService_fold (cs : list Change) (m : gmap string (list Change))
    (name : string) :
  fold_left
    (λ result c,
       if bool_decide (scope c = ScopeService)
       then <[Name c := result !!! Name c ++ [c]]> result
       else result) cs m !!! name
  = m !!! name ++ filter (in_service name) cs.
Proof.
  revert m. induction cs as [|c cs IH]; intros m.
  - by rewrite app_nil_r.
  - cbn [fold_left]. rewrite IH, filter_cons.
    destruct (decide (scope c = ScopeService)) as [Hs|Hs].
    + rewrite bool_decide_eq_true_2 by done.
      destruct (decide (Name c = name)) as [<-|Hn].
      * rewrite lookup_total_insert_eq, decide_True by done.
        by rewrite <- app_assoc.
      * rewrite lookup_total_insert_ne by done.
        by rewrite decide_False by (unfold in_service; tauto).
    + rewrite bool_decide_eq_false_2 by done.
      by rewrite decide_False by (unfold in_service; tauto).
Qed.

Lemma groupByService_lookup (cs : list Change) (name : string) :
  groupByService cs !!! name = filter (in_service name) cs.
Proof.
  unfold groupByService. rewrite groupByService_fold.
  by rewrite lookup_total_empty.
Qed.

Lemma groupByService_keys (cs : list Change) (m : gmap string (list Change))
    (name : string) :
  is_Some (m !! name) ∨ (∃ c, c ∈ cs ∧ in_service name c) →
  is_Some
    (fold_left
       (λ result c,
          if bool_decide (scope c = ScopeService)
          then <[Name c := result !!! Name c ++ [c]]> result
          else result) cs m !! name).
Proof.
  revert m. induction cs as [|c cs IH]; intros m.
  - intros [?|(c & ?%elem_of_nil & _)]; done.
  - intros Hm. cbn [fold_left]. apply IH.
    destruct Hm as [Hm|(c' & [->|Hc']%elem_of_cons & Hs & Hn)].
    + left. case_bool_decide; [|done].
      rewrite lookup_insert_is_Some. destruct (decide (Name c = name)); auto.
    + left. rewrite bool_decide_eq_true_2 by done.
      rewrite lookup_insert_is_Some. auto.
    + right. exists c'. by split.
Qed.

Lemma bind_ext_in {A B} (g h : A → list B) (l : list A) :
  (∀ x, x ∈ l → g x = h x) → l ≫= g = l ≫= h.
Proof.
  induction l as [|x l IH]; intros Hgh; [done|].
  cbn [mbind list_bind]. rewrite (Hgh x) by left.
  f_equal. apply IH. intros y Hy. apply Hgh. by right.
Qed.

Lemma bind_filter_Permutation {A} (f : A → string) (names : list string)
    (l : list A) :
  NoDup names → (∀ x, x ∈ l → f x ∈ names) →
  names ≫= (λ n, filter (λ x, f x = n) l) ≡ₚ l.
Proof.
  intros Hnd. revert l. induction Hnd as [|n names Hn Hnd IH]; intros l Hl.
  - destruct l as [|x l]; [done|].
    exfalso. apply (elem_of_nil (f x)), Hl. left.
  - cbn [mbind list_bind].
    etrans; [|apply (filter_app_complement (λ x, f x = n) l)].
    apply Permutation_app_head.
    etrans; [|apply (IH (filter (λ x, ¬ f x = n) l))].
    + apply reflexive_eq, bind_ext_in. intros n' Hn'.
      rewrite list_filter_filter. apply list_filter_iff.
      intros x. split; [|tauto]. intros ->. split; [done|].
      by intros ->.
    + intros x [Hx Hin]%list_elem_of_filter.
      by destruct (proj1 (elem_of_cons _ _ _) (Hl x Hin)).
Qed.

Lemma filterVolNetChanges_filter (cs : list Change) :
  filterVolNetChanges cs = filter (λ c, ¬ scope c = ScopeService) cs.
Proof.
  unfold filterVolNetChanges.
  rewrite (fold_snoc_if
    (λ c, bool_decide (scope c = ScopeVolume)
          || bool_decide (scope c = ScopeNetwork)) id).
  rewrite list_fmap_id. simpl. apply list_filter_iff. intros c.
  rewrite orb_True, !bool_decide_spec.
  destruct (scope c); intuition congruence.
Qed.

(** X21.  The text report loses and repeats nothing: the group of a
    service holds the changes of that service in the order of the report,
    [filterVolNetChanges] the changes of volumes and networks, and the
    groups taken in the order of [sortedKeys], followed by the latter, are
    a rearrangement of the changes of the report.  ([order] is the order in
    which the map of the groups happens to be ranged over.) *)
Theorem text_report_groups (cs : list Change) (order : list string) :
  order ≡ₚ mapKeys (groupByService cs) →
  (∀ name, groupByService cs !!! name = filter (in_service name) cs)
  ∧ filterVolNetChanges cs = filter (λ c, scope c ≠ ScopeService) cs
  ∧ (sortedKeys order ≫= (λ name, groupByService cs !!! name))
    ++ filterVolNetChanges cs ≡ₚ cs.
Proof.
  intros Ho. split_and!.
  - apply groupByService_lookup.
  - apply filterVolNetChanges_filter.
  - rewrite filterVolNetChanges_filter.
    etrans; [|apply (filter_app_complement (λ c, scope c = ScopeService) cs)].
    apply Permutation_app_tail.
    etrans; [|apply (bind_filter_Permutation Name (sortedKeys order))].
    + apply reflexive_eq, bind_ext_in. intros name _.
      rewrite groupByService_lookup, list_filter_filter.
      apply list_filter_iff. intros c. unfold in_service. tauto.
    + rewrite sortedKeys_Permutation, Ho. apply NoDup_fst_map_to_list.
    + intros c [Hs Hc]%list_elem_of_filter.
      rewrite sortedKeys_Permutation, Ho. apply elem_of_mapKeys.
      apply groupByService_keys. right. by exists c.
Qed.

(** ** The field printed beside a change *)

Lemma strings_Split_nonempty (s : string) (sep : ascii) :
  strings_Split s sep ≠ [].
Proof. destruct s as [|c s]; [done|]. simpl. by repeat case_match. Qed.

Lemma strings_Join_cons (c : ascii) (p : string) (ps : list string)
    (sep : string) :
  strings_Join (String c p :: ps) sep = String c (strings_Join (p :: ps) sep).
Proof. by destruct ps. Qed.

Lemma strings_Join_Split (s : string) (sep : ascii) :
  strings_Join (strings_Split s sep) (String sep "") = s.
Proof.
  induction s as [|c s IH]; [done|].
  cbn [strings_Split].
  destruct (strings_Split s sep) as [|p ps] eqn:E.
  { by destruct (strings_Split_nonempty s sep). }
  destruct (Ascii.eqb_spec c sep) as [->|_].
  - change (strings_Join ("" :: p :: ps) (String sep ""))
      with ("" +:+ String sep "" +:+ strings_Join (p :: ps) (String sep "")).
    by rewrite IH.
  - by rewrite strings_Join_cons, IH.
Qed.

Lemma extractField_rest_eq (kind name rest : string) :
  free_of "." kind = true → free_of "." name = true →
  extractField (kind +:+ "." +:+ name +:+ "." +:+ rest) = rest.
Proof.
  intros Hk Hn. unfold extractField.
  change (kind +:+ "." +:+ name +:+ "." +:+ rest)
    with (kind +:+ String "." (name +:+ String "." rest)).
  rewrite !strings_Split_app by done.
  destruct (strings_Split rest ".") as [|p ps] eqn:E.
  { by destruct (strings_Split_nonempty rest "."). }
  cbn [length Nat.leb drop]. rewrite <- E. apply strings_Join_Split.
Qed.

(** X22.  Joining the parts that [strings.Split] cuts a string into gives
    the string back, so [extractField] returns a path without its first
    two parts, [kind.name.], and a path of fewer than three parts
    unchanged. *)
Theorem extractField_rest (kind name rest : string) :
  free_of "." kind = true → free_of "." name = true →
  extractField (kind +:+ "." +:+ name +:+ "." +:+ rest) = rest
  ∧ extractField (kind +:+ "." +:+ name) = kind +:+ "." +:+ name
  ∧ (∀ s, strings_Join (strings_Split s ".") "." = s).
Proof.
  intros Hk Hn. split_and!.
  - by apply extractField_rest_eq.
  - unfold extractField.
    change (kind +:+ "." +:+ name) with (kind +:+ String "." name).
    by rewrite strings_Split_app, strings_Split_plain.
  - intros s. apply strings_Join_Split.
Qed.


(* ===================================================================== *)
(** * Further properties of the rules and of image references *)
(* ===================================================================== *)

(** ** Applying the rules twice *)

Section applyRules_twice.
Context `{RegexpEngine}.

Lemma rescored_path (r : Rules) (c : Change) :
  Path (rescored r c) = Path c ∧ Name (rescored r c) = Name c.
Proof.
  unfold rescored. by destruct (GetSeverityOverride r (Path c)) as [sev []].
Qed.

Lemma kept_rescored (r : Rules) (c : Change) :
  kept r (rescored r c) = kept r c.
Proof.
  unfold kept. by destruct (rescored_path r c) as [-> ->].
Qed.

Lemma rescored_rescored (r : Rules) (c : Change) :
  rescored r (rescored r c) = rescored r c.
Proof.
  unfold rescored at 1. destruct (rescored_path r c) as [-> _].
  unfold rescored.
  by destruct (GetSeverityOverride r (Path c)) as [sev []].
Qed.

Lemma applyRules_twice_Changes (report : DiffReport) (r : Rules) :
  Changes (applyRules (applyRules report r) r) = Changes (applyRules report r).
Proof.
  rewrite (applyRules_Changes (applyRules report r)), applyRules_Changes.
  rewrite filter_all.
  - rewrite <- list_fmap_compose. apply list_fmap_ext.
    intros i c _. apply rescored_rescored.
  - intros c' (c & -> & [Hk _]%list_elem_of_filter)%list_elem_of_fmap.
    by rewrite kept_rescored.
Qed.

(** X23.  Applying the rules is idempotent: a report that went through
    [applyRules] is returned unchanged, summary included, when the same
    rules are applied to it again. *)
Theorem applyRules_idempotent (report : DiffReport) (r : Rules) :
  applyRules (applyRules report r) r = applyRules report r.
Proof.
  pose proof (applyRules_twice_Changes report r) as HC.
  apply DiffReport_eq; [|done].
  pose proof (applyRules_scope_counts (applyRules report r) r) as HP.
  pose proof (applyRules_recounts (applyRules report r) r) as HS2.
  pose proof (applyRules_recounts report r) as HS1.
  cbv zeta in HP, HS1, HS2. rewrite HC in HS2.
  destruct HP as (H1 & H2 & H3 & H4 & H5 & H6 & H7).
  destruct HS1 as (Ht1 & Hb1 & Hw1 & Hi1).
  destruct HS2 as (Ht2 & Hb2 & Hw2 & Hi2).
  apply DiffSummary_eq; congruence.
Qed.

End applyRules_twice.

(** ** Tags and major versions *)

Lemma strings_Contains_free (s : string) (x : ascii) :
  free_of x s = true → strings_Contains s (String x "") = false.
Proof.
  induction s as [|c s IH]; [done|].
  intros [Hc Hs]%free_of_cons. cbn [strings_Contains strings_HasPrefix].
  by rewrite Hc, IH.
Qed.

Lemma strings_Contains_at (a b : string) (x : ascii) :
  strings_Contains (a +:+ String x b) (String x "") = true.
Proof.
  induction a as [|c a IH].
  - rewrite String_app_nil_l. cbn [strings_Contains strings_HasPrefix].
    rewrite Ascii.eqb_refl. by destruct b.
  - rewrite String_app_cons. cbn [strings_Contains].
    rewrite IH. by destruct (strings_HasPrefix _ _).
Qed.

Lemma after_LastIndex_free (s : string) (x : ascii) :
  free_of x s = true → after_LastIndex s x = None.
Proof.
  induction s as [|c s IH]; [done|].
  intros [Hc Hs]%free_of_cons. cbn [after_LastIndex]. by rewrite IH, Hc.
Qed.

Lemma after_LastIndex_app (a b : string) (x : ascii) :
  free_of x b = true → after_LastIndex (a +:+ String x b) x = Some b.
Proof.
  intros Hb. induction a as [|c a IH].
  - rewrite String_app_nil_l. cbn [after_LastIndex].
    by rewrite after_LastIndex_free, Ascii.eqb_refl.
  - rewrite String_app_cons. cbn [after_LastIndex]. by rewrite IH.
Qed.

Lemma strings_Split_length (a b : string) (x : ascii) :
  (2 ≤ length (strings_Split (a +:+ String x b) x))%nat.
Proof.
  induction a as [|c a IH].
  - rewrite String_app_nil_l. cbn [strings_Split]. rewrite Ascii.eqb_refl.
    destruct (strings_Split b x) eqn:E; [|simpl; lia].
    by destruct (strings_Split_nonempty b x).
  - rewrite String_app_cons. cbn [strings_Split].
    destruct (Ascii.eqb c x); [simpl; lia|].
    destruct (strings_Split (a +:+ String x b) x); simpl in *; lia.
Qed.

Lemma extractTag_tagged (repo tag : string) :
  free_of "@" repo = true → free_of "@" tag = true →
  free_of ":" tag = true →
  extractTag (repo +:+ ":" +:+ tag)
  = if strings_Contains tag "/" then "latest" else tag.
Proof.
  intros Hr Ht Hc. unfold extractTag.
  change (repo +:+ ":" +:+ tag) with (repo +:+ String ":" tag).
  rewrite strings_Contains_free
    by (rewrite free_of_app, free_of_cons; by split_and!).
  rewrite after_LastIndex_app by done.
  pose proof (strings_Split_length repo tag ":") as Hlen.
  cbv zeta. by rewrite (proj2 (Nat.ltb_ge _ _) Hlen).
Qed.

(** X24.  The tag of an image reference: [repo:tag] has the tag [tag]
    when the tag holds no slash, whatever colons the repository holds; a
    reference without a colon, and one whose last colon is that of a
    registry port, has the tag [latest]; a reference by digest has no
    tag. *)
Theorem extractTag_forms (repo tag path digest : string) :
  free_of "@" repo = true → free_of "@" tag = true → free_of "@" path = true →
  free_of ":" tag = true → free_of "/" tag = true → free_of ":" path = true →
  extractTag (repo +:+ ":" +:+ tag) = tag
  ∧ extractTag (repo +:+ ":" +:+ tag +:+ "/" +:+ path) = "latest"
  ∧ (free_of ":" repo = true → extractTag repo = "latest")
  ∧ extractTag (repo +:+ "@" +:+ digest) = "".
Proof.
  intros Hr Ht Hp Hc Hs Hpc. split_and!.
  - rewrite extractTag_tagged by done.
    by rewrite strings_Contains_free.
  - rewrite (extractTag_tagged repo (tag +:+ "/" +:+ path)).
    + change (tag +:+ "/" +:+ path) with (tag +:+ String "/" path).
      by rewrite strings_Contains_at.
    + done.
    + change (tag +:+ "/" +:+ path) with (tag +:+ String "/" path).
      rewrite free_of_app, free_of_cons. by split_and!.
    + change (tag +:+ "/" +:+ path) with (tag +:+ String "/" path).
      rewrite free_of_app, free_of_cons. by split_and!.
  - intros Hrc. unfold extractTag.
    by rewrite strings_Contains_free, strings_Split_plain.
  - unfold extractTag.
    change (repo +:+ "@" +:+ digest) with (repo +:+ String "@" digest).
    by rewrite strings_Contains_at.
Qed.

Lemma leading_digits_app (d rest : string) :
  string_forall is_digit d = true →
  starts_with_digit rest = false →
  leading_digits (d +:+ rest) = d.
Proof.
  intros Hd Hr. induction d as [|c d IH].
  - rewrite String_app_nil_l. destruct rest as [|c rest]; [done|].
    simpl in *. by rewrite Hr.
  - cbn [string_forall] in Hd. apply andb_true_iff in Hd as [Hc Hd].
    rewrite String_app_cons. cbn [leading_digits]. by rewrite Hc, IH.
Qed.

Lemma leading_digits_digits (s : string) :
  string_forall is_digit (leading_digits s) = true.
Proof.
  induction s as [|c s IH]; [done|].
  cbn [leading_digits]. destruct (is_digit c) eqn:E; [|done].
  cbn [string_forall]. by rewrite E, IH.
Qed.

Lemma substring_all (s : string) :
  String.substring 0 (String.length s) s = s.
Proof. induction s as [|c s IH]; [done|]. simpl. by rewrite IH. Qed.

Lemma strings_TrimPrefix_v (s : string) :
  strings_TrimPrefix (String "v" s) "v" = s.
Proof.
  unfold strings_TrimPrefix. cbn [strings_HasPrefix].
  change (Ascii.eqb "v" "v") with true. cbv iota.
  cbn [String.length String.substring Nat.sub].
  rewrite Nat.sub_0_r.
  replace (strings_HasPrefix s "") with true by by destruct s.
  apply substring_all.
Qed.

Lemma strings_TrimPrefix_digit (c : ascii) (s : string) :
  is_digit c = true → strings_TrimPrefix (String c s) "v" = String c s.
Proof.
  intros Hc. unfold strings_TrimPrefix. cbn [strings_HasPrefix].
  destruct (Ascii.eqb_spec c "v") as [->|_]; [done|done].
Qed.

(** X25.  The major version of a tag is the run of digits at its start,
    after one leading [v] if there is one: [16-alpine] and [v16.2] both
    give [16].  It is always a run of digits, empty for the tags [latest]
    and the empty tag. *)
Theorem extractMajorVersion_leading_digits (d rest tag : string) :
  string_forall is_digit d = true → d ≠ "" →
  starts_with_digit rest = false →
  extractMajorVersion (d +:+ rest) = d
  ∧ extractMajorVersion ("v" +:+ d +:+ rest) = d
  ∧ string_forall is_digit (extractMajorVersion tag) = true
  ∧ extractMajorVersion "latest" = ""
  ∧ extractMajorVersion "" = "".
Proof.
  intros Hd Hne Hr.
  destruct d as [|c d]; [done|].
  pose proof Hd as Hd'. cbn [string_forall] in Hd'.
  apply andb_true_iff in Hd' as [Hc _].
  split_and!; [| | |done|done].
  - unfold extractMajorVersion. rewrite String_app_cons.
    assert (String.eqb (String c (d +:+ rest)) "latest" = false) as ->.
    { cbn [String.eqb]. destruct (Ascii.eqb_spec c "l") as [->|_]; done. }
    cbn [String.eqb orb]. rewrite strings_TrimPrefix_digit by done.
    rewrite <- String_app_cons. by apply leading_digits_app.
  - unfold extractMajorVersion.
    change ("v" +:+ String c d +:+ rest) with (String "v" (String c d +:+ rest)).
    cbn [String.eqb]. change (Ascii.eqb "v" "l") with false.
    cbn [orb]. cbv iota. rewrite strings_TrimPrefix_v.
    by apply leading_digits_app.
  - unfold extractMajorVersion.
    destruct (String.eqb tag "" || String.eqb tag "latest"); [done|].
    apply leading_digits_digits.
Qed.

(* ===================================================================== *)
(** * The further properties at concrete inputs *)
(* ===================================================================== *)

(** ** The differ *)

Lemma healthcheck_removal_is_modified_witness :
  mkChange ChangeModified ScopeService "web" "services.web.healthcheck"
    (VHealthcheck (Some healthcheck_curl)) (VHealthcheck None)
    SeverityBreaking
  ∈ compareService "web" (service_of_healthcheck (Some healthcheck_curl))
      (service_of_healthcheck None)
  ∧ IsBreakingChange
      (mkChange ChangeModified ScopeService "web" "services.web.healthcheck"
         (VHealthcheck (Some healthcheck_curl)) (VHealthcheck None)
         SeverityBreaking) = false.
Proof.
  apply (healthcheck_removal_is_modified "web"
           (service_of_healthcheck (Some healthcheck_curl))
           (service_of_healthcheck None) healthcheck_curl);
    reflexivity.
Defined.

Lemma breaking_changes_are_flagged_witness :
  (Kind removed_worker = ChangeRemoved ∧ scope removed_worker ≠ ScopeNetwork
   ∧ IsBreakingChange removed_worker = true)
  ∨ (Kind removed_worker = ChangeModified
     ∧ ∃ h, Before removed_worker = VHealthcheck (Some h)
            ∧ After removed_worker = VHealthcheck None).
Proof.
  apply (breaking_changes_are_flagged tree_worker NewComposeIR removed_worker).
  - vm_compute. left.
  - reflexivity.
Defined.

Lemma compareService_order_invariant_witness :
  compareService "web"
    (normalizeService
       (service_of_mounts
          [mkPortIR "" "8080" "80" "tcp"; mkPortIR "" "443" "443" "tcp"]
          [mkMountIR "bind" "./data" "/data" false]))
    (normalizeService
       (service_of_mounts
          [mkPortIR "" "443" "443" "tcp"; mkPortIR "" "8080" "80" "tcp"]
          [mkMountIR "bind" "./data" "/data" false]))
  = compareService "web"
      (service_of_mounts
         [mkPortIR "" "8080" "80" "tcp"; mkPortIR "" "443" "443" "tcp"]
         [mkMountIR "bind" "./data" "/data" false])
      (service_of_mounts
         [mkPortIR "" "443" "443" "tcp"; mkPortIR "" "8080" "80" "tcp"]
         [mkMountIR "bind" "./data" "/data" false]).
Proof.
  apply (compareService_order_invariant "web" _ zero_ServiceIR _ zero_ServiceIR);
    split; refine (bool_decide_unpack _ _); vm_compute; exact I.
Defined.

(** ** Patterns and paths *)

Lemma matchGlob_plain_patterns_witness :
  matchGlob "services.*.environment.*" "services.api.environment.DEBUG"
  = glob "services.*.environment.*" "services.api.environment.DEBUG"
  ∧ (star_free "services.*.environment.*" = true →
     matchGlob "services.*.environment.*" "services.api.environment.DEBUG"
     = String.eqb "services.*.environment.*" "services.api.environment.DEBUG").
Proof.
  apply (matchGlob_plain_patterns "services.*.environment.*"
           "services.api.environment.DEBUG");
    reflexivity.
Defined.

Lemma extractFieldFromPath_of_service_witness :
  extractFieldFromPath "services.web.environment.DEBUG" = "environment".
Proof.
  apply (proj1 (extractFieldFromPath_of_service "web" eq_refl
                  ltac:(discriminate)) "environment" ".DEBUG").
  - reflexivity.
  - discriminate.
  - right. by exists "DEBUG".
Defined.

(** ** The parser *)

Lemma parsePortString_short_form_witness :
  parsePortString "8080:80" = mkPortIR "" "8080" "80" "tcp"
  ∧ parsePortString "8080:80/tcp" = mkPortIR "" "8080" "80" "tcp"
  ∧ parsePortString "8080:80/udp" = mkPortIR "" "8080" "80" "udp"
  ∧ port_key (parsePortString "8080:80") = "8080:80/tcp"
  ∧ comparePorts "web" "services.web"
      [parsePortString "8080:80"] [parsePortString "8080:80/tcp"] = []
  ∧ (∀ s, Protocol (parsePortString s) = "tcp"
          ∨ Protocol (parsePortString s) = "udp").
Proof.
  apply (parsePortString_short_form "8080" "80" "web" "services.web");
    reflexivity.
Defined.

Lemma parseVolumeString_forms_witness :
  parseVolumeString "/app/data" = mkMountIR "volume" "" "/app/data" false
  ∧ parseVolumeString "./data:/app/data"
    = mkMountIR "bind" "./data" "/app/data" false
  ∧ parseVolumeString "./data:/app/data:rw"
    = mkMountIR "bind" "./data" "/app/data" false
  ∧ ("rw" ≠ "ro" →
     parseVolumeString "./data:/app/data:rw"
     = parseVolumeString "./data:/app/data").
Proof.
  apply (parseVolumeString_forms "./data" "/app/data" "rw"); reflexivity.
Defined.

Lemma parseEnvironment_forms_agree_witness :
  parseEnvironment (env_sequence [("DEBUG", "1"); ("MODE", "")])
  = parseEnvironment (env_mapping [("DEBUG", "1"); ("MODE", "")])
  ∧ parseEnvironment (SequenceNode [ScalarNode "MODE"]) = {[ "MODE" := None ]}
  ∧ parseEnvironment (env_sequence [("MODE", "")]) = {[ "MODE" := None ]}
  ∧ parseEnvironment (env_mapping [("MODE", "")]) = {[ "MODE" := None ]}.
Proof.
  apply (parseEnvironment_forms_agree [("DEBUG", "1"); ("MODE", "")] "MODE").
  - repeat constructor.
  - reflexivity.
Defined.

(** ** The reporters *)

Lemma text_report_groups_witness :
  (sortedKeys ["web"; "db"]
     ≫= λ name, groupByService changes_web_db !!! name)
  ++ filterVolNetChanges changes_web_db
  ≡ₚ changes_web_db.
Proof.
  apply (text_report_groups changes_web_db ["web"; "db"]).
  vm_compute. first [reflexivity | apply perm_swap].
Defined.

Lemma extractField_rest_witness :
  extractField "services.web.environment.DEBUG" = "environment.DEBUG"
  ∧ extractField "services.web" = "services.web"
  ∧ (∀ s, strings_Join (strings_Split s ".") "." = s).
Proof.
  apply (extractField_rest "services" "web" "environment.DEBUG"); reflexivity.
Defined.

(** ** Image references *)

Lemma extractTag_forms_witness :
  extractTag "registry.example.com:5000/app:v1.2" = "v1.2"
  ∧ extractTag "registry.example.com:5000/app:v1.2/img" = "latest"
  ∧ (free_of ":" "registry.example.com:5000/app" = true →
     extractTag "registry.example.com:5000/app" = "latest")
  ∧ extractTag "registry.example.com:5000/app@sha256:0a1b" = "".
Proof.
  apply (extractTag_forms "registry.example.com:5000/app" "v1.2" "img"
           "sha256:0a1b");
    reflexivity.
Defined.

Lemma extractMajorVersion_leading_digits_witness :
  extractMajorVersion "16-alpine" = "16"
  ∧ extractMajorVersion "v16-alpine" = "16"
  ∧ string_forall is_digit (extractMajorVersion "bookworm") = true
  ∧ extractMajorVersion "latest" = ""
  ∧ extractMajorVersion "" = "".
Proof.
  apply (extractMajorVersion_leading_digits "16" "-alpine" "bookworm").
  - reflexivity.
  - discriminate.
  - reflexivity.
Defined.
